(** * DeanComplete: symbol index, scope tree and definition resolver

    A shallow embedding of the TypeScript sources
    - [src/database/SymbolDatabase.ts]  (class [SymbolDatabase]),
    - [src/scope/ScopeManager.ts]       (class [ScopeManager]),
    - the definition provider of [extension.ts]
      ([provideDefinition], [getUnqualifiedName], [getCandidateScopePaths],
      [scoreDefinition], [analyzeFile]),
    together with the properties of the specification proved about them.

    Conventions of the embedding
    - a JS string is a [string]; a JS number holding a line, a column, a
      score or an index is a [Z];
    - a value of type [string | undefined] is an [option string]
      ([None] is [undefined]);
    - a [Map<K, V>] is a [gmap K V]: no property below depends on the
      iteration order of a [Map];
    - JS arrays are lists; [push] appends at the end;
    - objects that are never mutated after creation ([Symbol] records, and
      the scopes of a finished tree) are values; the identity of a [Symbol]
      object, which [new Set(...)] compares, is its [oid]. *)

From Stdlib Require Import ZArith String Ascii.
From stdpp Require Import gmap strings list fin_maps sorting.

Local Open Scope string_scope.
Local Open Scope Z_scope.

(** ** JS string primitives used by the sources *)

Module JsString.

(** [s.startsWith(p)] *)
Fixpoint startsWith (s p : string) : bool :=
  match p, s with
  | EmptyString, _ => true
  | String _ _, EmptyString => false
  | String c p', String d s' => Ascii.eqb c d && startsWith s' p'
  end.

(** [s.substring(start, end)]: both indices are clamped to [[0, length]]
    and swapped when [start > end]. *)
Definition clamp (len i : Z) : Z := Z.max 0 (Z.min i len).

Definition substring (s : string) (start end_ : Z) : string :=
  let len := Z.of_nat (String.length s) in
  let a := clamp len start in
  let b := clamp len end_ in
  let lo := Z.min a b in
  let hi := Z.max a b in
  String.substring (Z.to_nat lo) (Z.to_nat (hi - lo)) s.

(** [s.substring(start)] *)
Definition substring_from (s : string) (start : Z) : string :=
  substring s start (Z.of_nat (String.length s)).

(** [s.endsWith(p)]: the last [p.length] characters of [s] are [p]. *)
Definition endsWith (s p : string) : bool :=
  let ls := Z.of_nat (String.length s) in
  let lp := Z.of_nat (String.length p) in
  (lp <=? ls) && String.eqb (substring_from s (ls - lp)) p.

(** [s.includes(p)] *)
Fixpoint includes (s p : string) : bool :=
  startsWith s p ||
  match s with
  | EmptyString => false
  | String _ s' => includes s' p
  end.

(** [s.lastIndexOf(p)]: the greatest index at which [p] occurs, [-1] when
    there is none.  [i] is the index of the head of [s], [acc] the last
    occurrence seen so far. *)
Fixpoint lastIndexOf_from (s p : string) (i acc : Z) : Z :=
  let acc' := if startsWith s p then i else acc in
  match s with
  | EmptyString => acc'
  | String _ s' => lastIndexOf_from s' p (i + 1) acc'
  end.

Definition lastIndexOf (s p : string) : Z := lastIndexOf_from s p 0 (-1).

(** [l.join(sep)]; an [undefined] element is printed as the empty string. *)
Definition join (sep : string) (l : list (option string)) : string :=
  String.concat sep (map (default "") l).

(** Truthiness of a string: [""] is falsy. *)
Definition truthy (s : string) : bool := negb (String.eqb s "").

(** [s || ''] for a string [s]. *)
Definition or_empty (s : string) : string := if truthy s then s else "".

End JsString.

(** ** Data model ([parser/CppParser.ts], interfaces) *)

(** [interface Symbol].  [name] is declared [string]; the index and the
    scoring function guard against a record whose [name] is missing
    ([def.name && typeof def.name === 'string']), so the field is optional
    here.  [references] is not read by the modelled functions. *)
Record Symbol := mkSymbol {
  oid : nat;
  name : option string;
  kind : string;
  file : string;
  line : Z;
  column : Z;
  scope : string;
  type : option string;
  signature : option string;
  isDefinition : bool;
  isDeclaration : bool
}.

(** ** The scoring function of the resolver ([scoreDefinition]) *)

(** ** The identifier text, in the words of the specification *)

Module Identifier.

(** The text [p] occurs in the text [s]. *)
Definition occurs (p s : string) : Prop := exists a b, s = a ++ p ++ b.

(** The identifier text is qualified: it contains a scope separator. *)
Definition qualified (identifierText : string) : Prop := occurs "::" identifierText.

(** [identifierText] is [qualifier], a scope separator and [tail], and
    this separator is the last one of the text: no separator starts after
    its first character. *)
Definition splits_at_last_separator (identifierText qualifier tail : string) : Prop :=
  identifierText = qualifier ++ "::" ++ tail /\ ~ occurs "::" (":" ++ tail).

(** The qualifier of an identifier text: the text before its last scope
    separator; a text that is not qualified has none. *)
Definition qualifier_is (identifierText : string) (qualifier : option string) : Prop :=
  match qualifier with
  | Some q => exists tail, splits_at_last_separator identifierText q tail
  | None => ~ qualified identifierText
  end.

(** The unqualified tail of an identifier text: the text after its last
    scope separator, the whole text when it is not qualified. *)
Definition tail_is (identifierText targetName : string) : Prop :=
  (~ qualified identifierText /\ targetName = identifierText)
  \/ exists q, splits_at_last_separator identifierText q targetName.

End Identifier.

Module Resolver.
Import JsString.

(** [for (const c of candidateScopes) { if (c && defScope.endsWith(c)) { score += 12; break; } }] *)
Fixpoint suffix_loop (candidateScopes : list string) (defScope : string) (score : Z) : Z :=
  match candidateScopes with
  | [] => score
  | c :: rest =>
      if truthy c && endsWith defScope c then score + 12
      else suffix_loop rest defScope score
  end.

(** [candidateScopes.includes(x)] *)
Definition array_includes (l : list string) (x : string) : bool :=
  existsb (String.eqb x) l.

Definition qualifier_of (word : string) : string :=
  substring word 0 (Z.max 0 (lastIndexOf word "::")).

Definition scoreDefinition (def : Symbol) (currentFile : string)
    (candidateScopes : list string) (word targetName : string) : Z :=
  let score := 0 in
  let score := if String.eqb (file def) currentFile then score + 5 else score in
  let score :=
    if array_includes candidateScopes (or_empty (scope def)) then score + 20 else score in
  let score := suffix_loop candidateScopes (or_empty (scope def)) score in
  let score :=
    if includes word "::" then
      let qualifier := qualifier_of word in
      let score :=
        match name def with
        | Some n => if truthy n && startsWith n (qualifier ++ "::") then score + 15 else score
        | None => score
        end in
      if endsWith (or_empty (scope def)) qualifier then score + 10 else score
    else score in
  let score :=
    if bool_decide (name def = Some targetName) then score + 2 else score in
  let score :=
    match name def with
    | Some n => if endsWith n ("::" ++ targetName) then score + 1 else score
    | None => score
    end in
  let score :=
    if isDefinition def && negb (isDeclaration def) then score + 3 else score in
  score.

(** The scoring table of the specification, row by row.  [qualifier]
    is the qualifier of the identifier text, [None] when the text is not
    qualified. *)
Definition delta (cond : bool) (points : Z) : Z := if cond then points else 0.

Definition name_satisfies (def : Symbol) (P : string -> bool) : bool :=
  match name def with Some n => P n | None => false end.

Definition score_table (def : Symbol) (currentFile : string)
    (candidateScopePaths : list string) (qualifier : option string) (targetName : string)
    : Z :=
    delta (bool_decide (file def = currentFile)) 5
  + delta (bool_decide (scope def ∈ candidateScopePaths)) 20
  + delta (bool_decide (Exists (fun c => c <> "" /\ endsWith (scope def) c = true)
                               candidateScopePaths)) 12
  + match qualifier with
    | Some q =>
          delta (name_satisfies def (fun n => startsWith n (q ++ "::"))) 15
        + delta (endsWith (scope def) q) 10
    | None => 0
    end
  + delta (bool_decide (name def = Some targetName)) 2
  + delta (name_satisfies def (fun n => endsWith n ("::" ++ targetName))) 1
  + delta (isDefinition def && negb (isDeclaration def)) 3.

End Resolver.

(** ** JS array primitives used by the sources *)

Module JsArray.
Section Generic.
Context {A : Type}.

(** [l.findIndex(p)]: index of the first element satisfying [p], [-1]
    when there is none. *)
Fixpoint findIndex_from (p : A -> bool) (l : list A) (i : Z) : Z :=
  match l with
  | [] => -1
  | x :: l' => if p x then i else findIndex_from p l' (i + 1)
  end.

Definition findIndex (p : A -> bool) (l : list A) : Z := findIndex_from p l 0.

(** [l.splice(index, 1)] for [0 <= index]: the array without the element
    at [index]. *)
Definition splice1 (l : list A) (index : Z) : list A :=
  (take (Z.to_nat index) l ++ drop (S (Z.to_nat index)) l)%list.

(** [l.sort(cmp)].  The sort is stable (ECMAScript 2019), so for a
    comparator that orders by a numeric key the result is determined;
    it is computed here by stable insertion. *)
Fixpoint insert_sorted (cmp : A -> A -> Z) (x : A) (l : list A) : list A :=
  match l with
  | [] => [x]
  | y :: l' => if cmp x y <=? 0 then x :: l else y :: insert_sorted cmp x l'
  end.

Definition sort (cmp : A -> A -> Z) (l : list A) : list A :=
  foldr (insert_sorted cmp) [] l.

(** [l.filter((_, i) => i < n)] *)
Definition first_n (n : nat) (l : list A) : list A := take n l.
End Generic.
End JsArray.

(** ** The Name Index ([database/SymbolDatabase.ts]) *)

Module SymbolDatabase.
Import JsArray.

(** [symbols]: file -> symbols; [symbolIndex]: name -> symbols.  The
    [referenceIndex] is not touched by the methods modelled here. *)
Record state := State {
  symbols : gmap string (list Symbol);
  symbolIndex : gmap (option string) (list Symbol)
}.

Definition empty : state := State ∅ ∅.

(** [s => s.file === symbol.file && s.line === symbol.line] *)
Definition same_position (symbol s : Symbol) : bool :=
  String.eqb (file s) (file symbol) && (line s =? line symbol).

(** Body of the loop of [removeFile] for one old symbol. *)
Definition unindex_symbol (index : gmap (option string) (list Symbol)) (symbol : Symbol)
    : gmap (option string) (list Symbol) :=
  match index !! name symbol with
  | Some symbolsWithName =>
      let i := findIndex (same_position symbol) symbolsWithName in
      if negb (i =? -1) then
        let symbolsWithName := splice1 symbolsWithName i in
        if (Z.of_nat (length symbolsWithName) =? 0)
        then delete (name symbol) index
        else <[name symbol := symbolsWithName]> index
      else index
  | None => index
  end.

Definition removeFile (st : state) (filePath : string) : state :=
  match symbols st !! filePath with
  | Some oldSymbols =>
      {| symbols := delete filePath (symbols st);
         symbolIndex := foldl unindex_symbol (symbolIndex st) oldSymbols |}
  | None => st
  end.

(** Body of the loop of [updateFile] for one new symbol. *)
Definition index_symbol (index : gmap (option string) (list Symbol)) (symbol : Symbol)
    : gmap (option string) (list Symbol) :=
  let index :=
    match index !! name symbol with
    | Some _ => index
    | None => <[name symbol := []]> index
    end in
  alter (fun bucket => (bucket ++ [symbol])%list) (name symbol) index.

Definition updateFile (st : state) (filePath : string) (syms : list Symbol) : state :=
  let st := removeFile st filePath in
  {| symbols := <[filePath := syms]> (symbols st);
     symbolIndex := foldl index_symbol (symbolIndex st) syms |}.

(** [index.get(name) || []] (an array is always truthy) *)
Definition bucket_of (index : gmap (option string) (list Symbol)) (n : option string)
    : list Symbol :=
  default [] (index !! n).

Definition findSymbolsByName (st : state) (n : option string) : list Symbol :=
  bucket_of (symbolIndex st) n.

Definition findDefinitions (st : state) (n : option string) : list Symbol :=
  List.filter isDefinition (findSymbolsByName st n).

Definition findDeclarations (st : state) (n : option string) : list Symbol :=
  List.filter isDeclaration (findSymbolsByName st n).

Definition getSymbolsInFile (st : state) (filePath : string) : list Symbol :=
  default [] (symbols st !! filePath).

(** The records of the authoritative file table, all files together.
    ([getAllSymbols] enumerates them in insertion order of the files;
    the enumeration here is in the order of [map_to_list] and is only
    used up to permutation.) *)
Definition stored_symbols (files : gmap string (list Symbol)) : list Symbol :=
  map_to_list files ≫= snd.

(** The projection of the file table grouped by name: the records named
    [n]. *)
Definition named (n : option string) (l : list Symbol) : list Symbol :=
  filter (fun s => name s = n) l.

Definition projection (st : state) (n : option string) : list Symbol :=
  named n (stored_symbols (symbols st)).

(** Sequences of mutations of the index. *)
Inductive op :=
| UpdateFile (filePath : string) (syms : list Symbol)
| RemoveFile (filePath : string).

Definition apply (st : state) (o : op) : state :=
  match o with
  | UpdateFile f syms => updateFile st f syms
  | RemoveFile f => removeFile st f
  end.

Definition run (ops : list op) : state := foldl apply empty ops.

(** The parser stamps every record with the path of the file it parsed
    ([file: filePath] in every [symbols.push]). *)
Definition stamped (f : string) (syms : list Symbol) : Prop :=
  Forall (fun s => file s = f) syms.

Definition well_stamped (o : op) : Prop :=
  match o with
  | UpdateFile f syms => stamped f syms
  | RemoveFile _ => True
  end.

(** No name of the index is bound to an empty bucket. *)
Definition no_empty_bucket (index : gmap (option string) (list Symbol)) : Prop :=
  forall n bucket, index !! n = Some bucket -> bucket <> [].

(** What [removeFile] matches records by. *)
Definition position (s : Symbol) : string * Z := (file s, line s).

(** A bucket after [findIndex]/[splice] has removed the first record that
    satisfies [p]; after that has been done for each record of [old] in
    turn. *)
Fixpoint remove_first (p : Symbol -> bool) (bucket : list Symbol) : list Symbol :=
  match bucket with
  | [] => []
  | x :: rest => if p x then rest else x :: remove_first p rest
  end.

Definition unindex_all (bucket old : list Symbol) : list Symbol :=
  foldl (fun bucket symbol => remove_first (same_position symbol) bucket) bucket old.

(** The name index agrees with the file table on the positions of the
    records of every name. *)
Definition positions_consistent (st : state) : Prop :=
  forall n, position <$> findSymbolsByName st n ≡ₚ position <$> projection st n.

(** Every stored record carries the path of the file it is stored under. *)
Definition files_stamped (st : state) : Prop :=
  forall f syms, symbols st !! f = Some syms -> stamped f syms.

(** The name index is, name by name and up to the order inside a bucket,
    the projection of the file table. *)
Definition consistent (st : state) : Prop :=
  forall n, findSymbolsByName st n ≡ₚ projection st n.

End SymbolDatabase.

(** ** The scope tree builder and the Scope Registry ([scope/ScopeManager.ts]) *)

Module ScopeManager.
Import JsArray JsString.

(** [interface Scope].  Scope objects are mutated while a tree is built
    ([children.push], [symbols.push], [endLine = ...]) and point at each
    other ([parent], [children]), so a tree under construction is a store
    of scope objects addressed by their creation index; [children] and
    [parent] hold addresses. *)
Record Scope := mkScope {
  scopeName : option string;
  scopeType : string;
  startLine : Z;
  endLine : Z;
  scopeSymbols : list Symbol;
  children : list nat;
  parent : option nat
}.

(** The value of type [Scope[]] returned by [buildScopeTree]: the top-level
    scopes, with the objects they reach. *)
Record ScopeTree := mkTree {
  objects : list Scope;
  roots : list nat
}.

(** A value of type [Scope] once its tree is finished: one object of the
    tree.  Finished trees are never mutated. *)
Record ScopeRef := mkRef {
  ref_objects : list Scope;
  ref_index : nat
}.

Definition deref (r : ScopeRef) : option Scope := ref_objects r !! ref_index r.

Record state := State {
  fileScopes : gmap string ScopeTree;
  globalScopes : gmap (option string) ScopeRef
}.

Definition empty : state := State ∅ ∅.

(** [['namespace', 'class', 'struct', 'function'].includes(symbol.kind)] *)
Definition isScopeSymbol (symbol : Symbol) : bool :=
  existsb (String.eqb (kind symbol)) ["namespace"; "class"; "struct"; "function"].

Definition createScope (symbol : Symbol) : Scope :=
  {| scopeName := name symbol;
     scopeType := kind symbol;
     startLine := line symbol;
     endLine := line symbol;
     scopeSymbols := [];
     children := [];
     parent := None |}.

(** Field updates of a scope object. *)
Definition push_child (child : nat) (s : Scope) : Scope :=
  mkScope (scopeName s) (scopeType s) (startLine s) (endLine s) (scopeSymbols s)
          (children s ++ [child])%list (parent s).
Definition push_symbol (symbol : Symbol) (s : Scope) : Scope :=
  mkScope (scopeName s) (scopeType s) (startLine s) (endLine s)
          (scopeSymbols s ++ [symbol])%list (children s) (parent s).
Definition set_parent (p : nat) (s : Scope) : Scope :=
  mkScope (scopeName s) (scopeType s) (startLine s) (endLine s) (scopeSymbols s)
          (children s) (Some p).
Definition set_endLine (l : Z) (s : Scope) : Scope :=
  mkScope (scopeName s) (scopeType s) (startLine s) l (scopeSymbols s)
          (children s) (parent s).

(** The variables of the loop of [buildScopeTree]: the scope objects
    created so far, [scopes] and [scopeStack].  The top of the stack (the
    last element of the JS array) is the head of [scopeStack]. *)
Record builder := mkBuilder {
  store : list Scope;
  scopes : list nat;
  scopeStack : list nat
}.

Definition endLine_at (objs : list Scope) (i : nat) : Z :=
  match objs !! i with Some s => endLine s | None => 0 end.

(** [while (scopeStack.length > 0 && top.endLine < symbol.line) scopeStack.pop()] *)
Fixpoint pop_closed (objs : list Scope) (stack : list nat) (symbolLine : Z) : list nat :=
  match stack with
  | [] => []
  | top :: rest =>
      if endLine_at objs top <? symbolLine then pop_closed objs rest symbolLine
      else stack
  end.

(** Body of the loop of [buildScopeTree] for one symbol. *)
Definition visit (b : builder) (symbol : Symbol) : builder :=
  let b :=
    if isScopeSymbol symbol then
      let scope := createScope symbol in
      let addr := length (store b) in
      let stack := pop_closed (store b) (scopeStack b) (line symbol) in
      match stack with
      | top :: _ =>
          {| store := (alter (push_child addr) top (store b) ++ [set_parent top scope])%list;
             scopes := scopes b;
             scopeStack := addr :: stack |}
      | [] =>
          {| store := (store b ++ [scope])%list;
             scopes := (scopes b ++ [addr])%list;
             scopeStack := [addr] |}
      end
    else b in
  match scopeStack b with
  | top :: _ =>
      {| store := alter (push_symbol symbol) top (store b);
         scopes := scopes b;
         scopeStack := scopeStack b |}
  | [] => b
  end.

(** The end line given to a scope by [updateScopeEndLines]. *)
Definition backfill (scope : Scope) : Scope :=
  let scopeSymbols :=
    List.filter (fun s => (startLine scope <=? line s) && negb (String.eqb (kind s) (scopeType scope)))
                (scopeSymbols scope) in
  match last scopeSymbols with
  | Some lastSymbol => set_endLine (line lastSymbol) scope
  | None => scope
  end.

(** The recursive methods walk [children]; [fuel] bounds the depth of the
    walk, and the number of objects of the tree is enough of it. *)
Fixpoint updateScopeEndLines (fuel : nat) (objs : list Scope) (scopes : list nat) : list Scope :=
  match fuel with
  | O => objs
  | S fuel' =>
      foldl (fun objs i =>
               match objs !! i with
               | Some scope =>
                   updateScopeEndLines fuel' (alter backfill i objs) (children scope)
               | None => objs
               end) objs scopes
  end.

Fixpoint updateGlobalScopes_from (fuel : nat) (objs : list Scope) (scopes : list nat)
    (g : gmap (option string) ScopeRef) : gmap (option string) ScopeRef :=
  match fuel with
  | O => g
  | S fuel' =>
      foldl (fun g i =>
               match objs !! i with
               | Some scope =>
                   updateGlobalScopes_from fuel' objs (children scope)
                     (<[scopeName scope := mkRef objs i]> g)
               | None => g
               end) g scopes
  end.

Definition updateGlobalScopes (t : ScopeTree) (g : gmap (option string) ScopeRef)
    : gmap (option string) ScopeRef :=
  updateGlobalScopes_from (length (objects t)) (objects t) (roots t) g.

Fixpoint removeScopeFromGlobalIndex_from (fuel : nat) (objs : list Scope) (i : nat)
    (g : gmap (option string) ScopeRef) : gmap (option string) ScopeRef :=
  match fuel with
  | O => g
  | S fuel' =>
      match objs !! i with
      | Some scope =>
          foldl (fun g child => removeScopeFromGlobalIndex_from fuel' objs child g)
                (delete (scopeName scope) g) (children scope)
      | None => g
      end
  end.

(** The bindings [updateGlobalScopes] writes, in the order it writes
    them. *)
Fixpoint registrations (fuel : nat) (objs : list Scope) (scopes : list nat)
    : list (option string * ScopeRef) :=
  match fuel with
  | O => []
  | S fuel' =>
      scopes ≫= (fun i =>
        match objs !! i with
        | Some scope =>
            (scopeName scope, mkRef objs i) :: registrations fuel' objs (children scope)
        | None => []
        end)
  end.

Definition register (g : gmap (option string) ScopeRef) (binding : option string * ScopeRef)
    : gmap (option string) ScopeRef :=
  <[binding.1 := binding.2]> g.

Definition removeScopeFromGlobalIndex (objs : list Scope) (i : nat)
    (g : gmap (option string) ScopeRef) : gmap (option string) ScopeRef :=
  removeScopeFromGlobalIndex_from (length objs) objs i g.

(** [(a, b) => a.line - b.line] *)
Definition by_line (a b : Symbol) : Z := line a - line b.

(** [buildScopeTree] from the creation of [scopes] and [scopeStack] on,
    given the content of [sortedSymbols]. *)
Definition buildScopeTree_sorted (sm : state) (sortedSymbols : list Symbol)
    (filePath : string) : state * ScopeTree :=
  let b := foldl visit (mkBuilder [] [] []) sortedSymbols in
  let objs := updateScopeEndLines (length (store b)) (store b) (scopes b) in
  let tree := mkTree objs (scopes b) in
  ({| fileScopes := <[filePath := tree]> (fileScopes sm);
      globalScopes := updateGlobalScopes tree (globalScopes sm) |}, tree).

(** [buildScopeTree(symbols, filePath)] on the content of [symbols]. *)
Definition buildScopeTree (sm : state) (syms : list Symbol) (filePath : string)
    : state * ScopeTree :=
  buildScopeTree_sorted sm (sort by_line syms) filePath.

(** The same method with the arrays of symbols of the caller made
    explicit: [symbols] is the address of an array, [[...symbols]]
    allocates a copy, and [sort] sorts the array it is called on in
    place. *)
Definition spread (mem : gmap nat (list Symbol)) (a : nat) : gmap nat (list Symbol) * nat :=
  let copy := fresh (dom mem) in
  (<[copy := default [] (mem !! a)]> mem, copy).

Definition sort_in_place (mem : gmap nat (list Symbol)) (a : nat) (cmp : Symbol -> Symbol -> Z)
    : gmap nat (list Symbol) :=
  alter (sort cmp) a mem.

Definition buildScopeTree_mem (mem : gmap nat (list Symbol)) (sm : state)
    (symbolsAddr : nat) (filePath : string)
    : gmap nat (list Symbol) * (state * ScopeTree) :=
  let '(mem, copy) := spread mem symbolsAddr in
  let mem := sort_in_place mem copy by_line in
  let sortedSymbols := copy in
  (mem, buildScopeTree_sorted sm (default [] (mem !! sortedSymbols)) filePath).

Definition updateFile (sm : state) (filePath : string) (t : ScopeTree) : state :=
  {| fileScopes := <[filePath := t]> (fileScopes sm);
     globalScopes := updateGlobalScopes t (globalScopes sm) |}.

Definition removeFile (sm : state) (filePath : string) : state :=
  match fileScopes sm !! filePath with
  | Some t =>
      {| fileScopes := delete filePath (fileScopes sm);
         globalScopes :=
           foldl (fun g i => removeScopeFromGlobalIndex (objects t) i g)
                 (globalScopes sm) (roots t) |}
  | None => sm
  end.

Definition getFileScopes (sm : state) (filePath : string) : option ScopeTree :=
  fileScopes sm !! filePath.

Definition findScopeByName (sm : state) (n : option string) : option ScopeRef :=
  globalScopes sm !! n.

Fixpoint findScopeAtLine (fuel : nat) (objs : list Scope) (scopes : list nat) (l : Z)
    : option nat :=
  match fuel with
  | O => None
  | S fuel' =>
      (fix loop (scopes : list nat) : option nat :=
         match scopes with
         | [] => None
         | i :: rest =>
             match objs !! i with
             | Some scope =>
                 if (startLine scope <=? l) && (l <=? endLine scope) then
                   match findScopeAtLine fuel' objs (children scope) l with
                   | Some childScope => Some childScope
                   | None => Some i
                   end
                 else loop rest
             | None => loop rest
             end
         end) scopes
  end.

Definition findScopeAtPosition (sm : state) (filePath : string) (l : Z) : option ScopeRef :=
  match fileScopes sm !! filePath with
  | None => None
  | Some t =>
      mkRef (objects t) <$> findScopeAtLine (length (objects t)) (objects t) (roots t) l
  end.

(** The links of a tree point forward for [children] and backward for
    [parent]: a scope object is created after its parent. *)
Definition well_linked (objs : list Scope) : Prop :=
  forall i s, objs !! i = Some s ->
    Forall (fun c => (i < c)%nat) (children s)
    /\ (forall p, parent s = Some p -> (p < i)%nat).

(** The builder between two symbols: its objects are well linked and its
    stack holds addresses of objects. *)
Definition builder_ok (b : builder) : Prop :=
  well_linked (store b)
  /\ Forall (fun i => (i < length (store b))%nat) (scopeStack b).

Definition parent_at (objs : list Scope) (i : nat) : option nat :=
  match objs !! i with Some s => parent s | None => None end.

(** [while (current) { hierarchy.unshift(current); current = current.parent; }] *)
Fixpoint climb (fuel : nat) (objs : list Scope) (current : option nat) (hierarchy : list nat)
    : list nat :=
  match fuel, current with
  | S fuel', Some c => climb fuel' objs (parent_at objs c) (c :: hierarchy)
  | _, _ => hierarchy
  end.

Definition getScopeHierarchy (scope : ScopeRef) : list ScopeRef :=
  let objs := ref_objects scope in
  mkRef objs <$>
    climb (length objs) objs (parent_at objs (ref_index scope)) [ref_index scope].

Definition name_of (r : ScopeRef) : option string :=
  match deref r with Some s => scopeName s | None => None end.

Definition getScopePath (scope : ScopeRef) : string :=
  join "::" (name_of <$> getScopeHierarchy scope).

End ScopeManager.

(** ** The extension: analysis of a file and the definition provider
       ([extension.ts]) *)

Module Extension.
Import JsArray JsString.

Record state := State {
  symbolDb : SymbolDatabase.state;
  scopeManager : ScopeManager.state
}.

Definition empty : state := State SymbolDatabase.empty ScopeManager.empty.

(** [analyzeFile(document)].  The parser is external: [parsed] is the
    list [parseFile] returns for the text of the document, [None] when it
    throws (the error is caught and logged). *)
Definition analyzeFile (st : state) (fileName : string) (parsed : option (list Symbol))
    : state :=
  match parsed with
  | None => st
  | Some syms =>
      let db := SymbolDatabase.updateFile (symbolDb st) fileName syms in
      let '(sm, scopes) := ScopeManager.buildScopeTree (scopeManager st) syms fileName in
      let sm := ScopeManager.updateFile sm fileName scopes in
      {| symbolDb := db; scopeManager := sm |}
  end.

(** The handler of [fileWatcher.onDidDelete]. *)
Definition onDidDelete (st : state) (fsPath : string) : state :=
  {| symbolDb := SymbolDatabase.removeFile (symbolDb st) fsPath;
     scopeManager := ScopeManager.removeFile (scopeManager st) fsPath |}.

Inductive event :=
| Analyzed (fileName : string) (parsed : option (list Symbol))
| Deleted (fsPath : string).

Definition handle (st : state) (e : event) : state :=
  match e with
  | Analyzed f parsed => analyzeFile st f parsed
  | Deleted f => onDidDelete st f
  end.

Definition run (events : list event) : state := foldl handle empty events.

Definition getUnqualifiedName (n : string) : string :=
  let idx := lastIndexOf n "::" in
  if idx =? -1 then n else substring_from n (idx + 2).

(** [for (let i = names.length; i >= 1; i--) paths.push(names.slice(0, i).join('::'))] *)
Fixpoint push_prefixes (names : list (option string)) (i : nat) : list string :=
  match i with
  | O => []
  | S i' => join "::" (take i names) :: push_prefixes names i'
  end.

Definition getCandidateScopePaths (scope : option ScopeManager.ScopeRef) : list string :=
  match scope with
  | None => [""]
  | Some scope =>
      let hierarchy := ScopeManager.getScopeHierarchy scope in
      let names := ScopeManager.name_of <$> hierarchy in
      (push_prefixes names (length names) ++ [""])%list
  end.

(** [[...new Set(l)]]: the objects of [l] without repetition, in the order
    of their first occurrence.  [seen] holds the identities met so far. *)
Fixpoint unique_from (seen : list nat) (l : list Symbol) : list Symbol :=
  match l with
  | [] => []
  | x :: l' =>
      if bool_decide (oid x ∈ seen) then unique_from seen l'
      else x :: unique_from (oid x :: seen) l'
  end.

Definition unique (l : list Symbol) : list Symbol := unique_from [] l.

(** The candidate definitions ([defs]) for the word under the cursor. *)
Definition candidates (st : state) (word : string) : list Symbol :=
  let targetName := getUnqualifiedName word in
  let allDefs := SymbolDatabase.findDefinitions (symbolDb st) (Some targetName) in
  let fqDefs :=
    if includes word "::" then SymbolDatabase.findDefinitions (symbolDb st) (Some word)
    else [] in
  unique (allDefs ++ fqDefs)%list.

(** [allDefs] followed by [fqDefs], before the [Set] removes
    repetitions. *)
Definition found (st : state) (word : string) : list Symbol :=
  (SymbolDatabase.findDefinitions (symbolDb st) (Some (getUnqualifiedName word))
   ++ (if includes word "::" then SymbolDatabase.findDefinitions (symbolDb st) (Some word)
       else []))%list.

Definition candidateScopes (st : state) (fileName : string) (positionLine : Z) : list string :=
  getCandidateScopePaths
    (ScopeManager.findScopeAtPosition (scopeManager st) fileName positionLine).

(** The score given to a candidate. *)
Definition score_of (st : state) (fileName word : string) (positionLine : Z) (def : Symbol) : Z :=
  Resolver.scoreDefinition def fileName (candidateScopes st fileName positionLine)
    word (getUnqualifiedName word).

(** [ranked]: the candidates paired with their scores, sorted by
    [(a, b) => b.score - a.score]. *)
Definition ranked (st : state) (fileName word : string) (positionLine : Z)
    : list (Symbol * Z) :=
  sort (fun a b => snd b - snd a)
       ((fun def => (def, score_of st fileName word positionLine def))
          <$> candidates st word).

(** [top]: [ranked.filter((_, i) => i < 5).map(r => r.def)] *)
Definition top (st : state) (fileName word : string) (positionLine : Z) : list Symbol :=
  fst <$> first_n 5 (ranked st fileName word positionLine).

(** [new vscode.Location(Uri.file(d.file), new Position(d.line, d.column))] *)
Record Location := mkLocation {
  loc_file : string;
  loc_line : Z;
  loc_column : Z
}.

Definition location_of (d : Symbol) : Location := mkLocation (file d) (line d) (column d).

(** What [provideDefinition] returns. *)
Inductive result :=
| Undefined
| OneLocation (l : Location)
| Locations (ls : list Location).

(** The value returned, as a sequence of locations. *)
Definition locations (r : result) : list Location :=
  match r with
  | Undefined => []
  | OneLocation l => [l]
  | Locations ls => ls
  end.

(** [provideDefinition(document, position)].  [word] is the text of the
    identifier at the position, [None] when there is no word range. *)
Definition provideDefinition (st : state) (fileName : string)
    (parsed : option (list Symbol)) (word : option string) (positionLine : Z)
    : state * result :=
  let st := analyzeFile st fileName parsed in
  match word with
  | None => (st, Undefined)
  | Some word =>
      let defs := candidates st word in
      if Z.of_nat (length defs) =? 0 then (st, Undefined)
      else
        let locations := location_of <$> top st fileName word positionLine in
        match locations with
        | [l] => (st, OneLocation l)
        | _ => (st, Locations locations)
        end
  end.

End Extension.

(** ** The candidate set, in the words of the specification *)

Module ResolverSpec.

(** The definitions found under a name: the records the Name Index holds
    under the name that are definitions. *)
Definition definitions_under (db : SymbolDatabase.state) (n : string) : list Symbol :=
  filter (fun s => isDefinition s = true) (SymbolDatabase.findSymbolsByName db (Some n)).

(** The candidates before duplicates are removed: the definitions found
    under the unqualified tail, followed by those found under the whole
    identifier text when it is qualified. *)
Definition candidate_pool (db : SymbolDatabase.state) (identifierText targetName : string)
    (pool : list Symbol) : Prop :=
  (Identifier.qualified identifierText ->
     pool = (definitions_under db targetName ++ definitions_under db identifierText)%list)
  /\ (~ Identifier.qualified identifierText -> pool = definitions_under db targetName).

End ResolverSpec.

(** ** Concrete inputs *)

Module Examples.
Import SymbolDatabase.

(** A record as the parser builds it for a definition. *)
Definition mk (o : nat) (n k f : string) (l c : Z) (sc : string) : Symbol :=
  mkSymbol o (Some n) k f l c sc None None true false.

(** Two records named [x] at line 1 of [b.cpp]; the first one is handed
    to the index under [a.cpp]. *)
Definition misfiled : Symbol := mk 0 "x" "variable" "b.cpp" 1 0 "".
Definition homonym : Symbol := mk 1 "x" "variable" "b.cpp" 1 5 "".

Definition stale_ops : list op :=
  [UpdateFile "a.cpp" [misfiled]; UpdateFile "b.cpp" [homonym]; RemoveFile "b.cpp"].

(** Two files that both define [foo]. *)
Definition foo_a : Symbol := mk 2 "foo" "function" "a.cpp" 0 0 "".
Definition foo_b : Symbol := mk 3 "foo" "function" "b.cpp" 4 0 "".

Definition two_files : list op :=
  [UpdateFile "a.cpp" [foo_a]; UpdateFile "b.cpp" [foo_b]; UpdateFile "a.cpp" [foo_a]].

(** [foo] defined at global scope in [a.cpp], and in the scope [other] in
    [b.cpp]. *)
Definition foo_other : Symbol := mk 5 "foo" "function" "b.cpp" 4 0 "other".

Definition two_foos : list Extension.event :=
  [Extension.Analyzed "a.cpp" (Some [foo_a]); Extension.Analyzed "b.cpp" (Some [foo_other])].

(** A record without a name. *)
Definition nameless : Symbol :=
  mkSymbol 4 None "variable" "a.cpp" 3 0 "" None None true false.

(** The symbols of [namespace math { class Calculator { double add(...); }; }]
    with the three declarations on the lines [l0], [l1] and [l2]. *)
Definition calculator (l0 l1 l2 : Z) : list Symbol :=
  [mk 10 "math" "namespace" "calc.cpp" l0 0 "";
   mk 11 "Calculator" "class" "calc.cpp" l1 4 "math";
   mk 12 "add" "function" "calc.cpp" l2 8 "math::Calculator"].

(** The same file when the parser reports the member [add] as a
    declaration of kind [variable]. *)
Definition calculator_member (l0 l1 l2 : Z) : list Symbol :=
  [mk 10 "math" "namespace" "calc.cpp" l0 0 "";
   mk 11 "Calculator" "class" "calc.cpp" l1 4 "math";
   mk 12 "add" "variable" "calc.cpp" l2 8 "math::Calculator"].

(** The scope a scope-bearing symbol opens when nothing is nested in it. *)
Definition flat_scope (s : Symbol) : ScopeManager.Scope :=
  ScopeManager.push_symbol s (ScopeManager.createScope s).

(** A file that declares a class [Foo], and its events: analysed, then
    analysed again after [Foo] was deleted from it. *)
Definition class_foo : Symbol := mk 20 "Foo" "class" "a.cpp" 0 0 "".

Definition foo_deleted : list Extension.event :=
  [Extension.Analyzed "a.cpp" (Some [class_foo]); Extension.Analyzed "a.cpp" (Some [])].

End Examples.

(** ** The other queries of the Name Index ([database/SymbolDatabase.ts]) *)

Module SymbolQueries.
Import SymbolDatabase.

(** [symbol.line === position.line && symbol.column <= position.character] *)
Definition at_position (positionLine positionCharacter : Z) (symbol : Symbol) : bool :=
  (line symbol =? positionLine) && (column symbol <=? positionCharacter).

(** [findSymbolAtPosition(filePath, position)]: the loop returns the first
    symbol of the file that passes the test, [null] when the file is not
    stored or no symbol passes. *)
Definition findSymbolAtPosition (st : state) (filePath : string)
    (positionLine positionCharacter : Z) : option Symbol :=
  match symbols st !! filePath with
  | None => None
  | Some syms => List.find (at_position positionLine positionCharacter) syms
  end.

(** [s.kind === kind] and [s.scope === scope] *)
Definition of_kind (k : string) (s : Symbol) : bool := String.eqb (kind s) k.
Definition in_scope (sc : string) (s : Symbol) : bool := String.eqb (scope s) sc.

(** [getSymbolStatistics()] *)
Record statistics := mkStatistics {
  total : Z;
  byKind : gmap string Z;
  byFile : gmap string Z
}.

(** [byKind.set(symbol.kind, (byKind.get(symbol.kind) || 0) + 1)] *)
Definition count_kind (byKind : gmap string Z) (symbol : Symbol) : gmap string Z :=
  <[kind symbol := default 0 (byKind !! kind symbol) + 1]> byKind.

(** Body of the loop over the files. *)
Definition count_file (filePath : string) (syms : list Symbol) (acc : statistics)
    : statistics :=
  {| total := total acc + Z.of_nat (length syms);
     byKind := foldl count_kind (byKind acc) syms;
     byFile := <[filePath := Z.of_nat (length syms)]> (byFile acc) |}.

Definition getSymbolStatistics (st : state) : statistics :=
  map_fold count_file (mkStatistics 0 ∅ ∅) (symbols st).

(** Every record of a bucket carries the name the bucket is stored under. *)
Definition buckets_named (index : gmap (option string) (list Symbol)) : Prop :=
  forall n s, s ∈ bucket_of index n -> name s = n.

(** The count [getSymbolStatistics] holds for a key: absent when nothing
    was counted. *)
Definition counted (c : nat) : option Z :=
  match c with O => None | S _ => Some (Z.of_nat c) end.
End SymbolQueries.

(** ** The file table with the order of its keys *)

Module OrderedIndex.
Import SymbolDatabase SymbolQueries.

(** A JS [Map] iterates its entries in the order in which its keys were
    inserted.  [getAllSymbols], [findSymbolsByKind] and
    [findSymbolsInScope] walk [this.symbols.values()] and return the lists
    of the files in that order, so the Name Index is taken here together
    with the keys of [this.symbols] in the order of their insertion. *)
Record state := State {
  index : SymbolDatabase.state;
  fileOrder : list string
}.

Definition empty : state := State SymbolDatabase.empty [].

(** [Map.prototype.delete] and [Map.prototype.set] on the order of the
    keys: a deleted key leaves the order; a new key goes last; a key that
    is present keeps its place. *)
Definition map_delete (key : string) (keys : list string) : list string :=
  filter (fun k => k <> key) keys.

Definition map_set (key : string) (keys : list string) : list string :=
  if decide (key ∈ keys) then keys else (keys ++ [key])%list.

(** [removeFile]: [this.symbols.delete(filePath)] runs when the file is
    stored. *)
Definition removeFile (o : state) (filePath : string) : state :=
  {| index := SymbolDatabase.removeFile (index o) filePath;
     fileOrder :=
       match symbols (index o) !! filePath with
       | Some _ => map_delete filePath (fileOrder o)
       | None => fileOrder o
       end |}.

(** [updateFile]: [this.removeFile(filePath)], then
    [this.symbols.set(filePath, symbols)]. *)
Definition updateFile (o : state) (filePath : string) (syms : list Symbol) : state :=
  {| index := SymbolDatabase.updateFile (index o) filePath syms;
     fileOrder := map_set filePath (fileOrder (removeFile o filePath)) |}.

Definition apply (o : state) (o' : op) : state :=
  match o' with
  | UpdateFile f syms => updateFile o f syms
  | RemoveFile f => removeFile o f
  end.

Definition run (ops : list op) : state := foldl apply empty ops.

(** [getAllSymbols()], [findSymbolsByKind(kind)], [findSymbolsInScope(scope)]:
    the lists of the files one after the other, in the order of the keys,
    filtered; the order inside a file is that of its list. *)
Definition getAllSymbols (o : state) : list Symbol :=
  fileOrder o ≫= getSymbolsInFile (index o).

Definition findSymbolsByKind (o : state) (k : string) : list Symbol :=
  fileOrder o ≫= (fun f => List.filter (of_kind k) (getSymbolsInFile (index o) f)).

Definition findSymbolsInScope (o : state) (sc : string) : list Symbol :=
  fileOrder o ≫= (fun f => List.filter (in_scope sc) (getSymbolsInFile (index o) f)).

(** The order of the keys lists each stored file once. *)
Definition lists_the_files (o : state) : Prop :=
  NoDup (fileOrder o)
  /\ forall f, f ∈ fileOrder o <-> is_Some (symbols (index o) !! f).

End OrderedIndex.

(** ** The other queries of the Scope Registry ([scope/ScopeManager.ts]) *)

Module ScopeQueries.
Import ScopeManager.

(** [findSymbolsInScope(scopeName)]: the [symbols] of the registered
    scope, [[]] when the name is not bound. *)
Definition findSymbolsInScope (sm : state) (n : option string) : list Symbol :=
  match globalScopes sm !! n with
  | None => []
  | Some r => match deref r with Some s => scopeSymbols s | None => [] end
  end.

(** [findChildScopes(scopeName)]: the [children] of the registered scope. *)
Definition findChildScopes (sm : state) (n : option string) : list ScopeRef :=
  match globalScopes sm !! n with
  | None => []
  | Some r =>
      match deref r with
      | Some s => mkRef (ref_objects r) <$> children s
      | None => []
      end
  end.

(** The addresses [getScopeHierarchy] walks through, outermost first. *)
Definition ancestry (objs : list Scope) (i : nat) : list nat :=
  climb (length objs) objs (parent_at objs i) [i].

(** [line] lies between the first and the last line of the scope. *)
Definition covers (s : Scope) (l : Z) : Prop := startLine s <= l <= endLine s.

(** The symbol a scope was created for. *)
Definition opened_by (s : Scope) (opener : Symbol) : Prop :=
  name opener = scopeName s /\ kind opener = scopeType s
  /\ line opener = startLine s /\ isScopeSymbol opener = true.

(** The scope objects between two rounds of the loop of [buildScopeTree],
    when the symbols come in the order of their lines and [lo] is the line
    of the last one: no end line is set yet, each scope starts with the
    symbol it was created for, and a scope was put under a parent only on
    the line the parent starts on. *)
Definition under_construction (lo : Z) (objs : list Scope) : Prop :=
  forall i s, objs !! i = Some s ->
    endLine s = startLine s
    /\ startLine s <= lo
    /\ (exists opener rest,
          scopeSymbols s = opener :: rest /\ opened_by s opener
          /\ Forall (fun x => startLine s <= line x) rest)
    /\ (forall p, parent s = Some p ->
          exists ps, objs !! p = Some ps /\ startLine ps = startLine s)
    /\ (forall c, c ∈ children s ->
          exists sc, objs !! c = Some sc /\ parent sc = Some i).

(** What [updateScopeEndLines] may do to a scope object: nothing but set
    its end line to the line of one of its symbols that is not above its
    start line and is of another kind. *)
Definition backfilled (s s' : Scope) : Prop :=
  scopeName s' = scopeName s /\ scopeType s' = scopeType s
  /\ startLine s' = startLine s /\ scopeSymbols s' = scopeSymbols s
  /\ children s' = children s /\ parent s' = parent s
  /\ (endLine s' = endLine s
      \/ exists x, x ∈ scopeSymbols s /\ startLine s <= line x
                   /\ kind x <> scopeType s /\ endLine s' = line x).

(** Every scope object is a top-level scope or a child of a scope
    object. *)
Definition attached (top_level : list nat) (objs : list Scope) : Prop :=
  forall i, (i < length objs)%nat ->
    i ∈ top_level \/ exists p sp, objs !! p = Some sp /\ i ∈ children sp.

(** The scopes the recursive methods reach from the scopes [ids]. *)
Inductive descends (objs : list Scope) : list nat -> nat -> Prop :=
| descends_here ids i : i ∈ ids -> descends objs ids i
| descends_child ids j sj i :
    j ∈ ids -> objs !! j = Some sj -> descends objs (children sj) i ->
    descends objs ids i.

(** The names [removeScopeFromGlobalIndex] deletes for the scopes
    [scopes] and their descendants. *)
Definition names_of (t : ScopeTree) : list (option string) :=
  (registrations (length (objects t)) (objects t) (roots t)).*1.

(** Every binding of the registry leads to a scope object of a tree built
    by [buildScopeTree] that carries the name it is bound to. *)
Definition registry_valid (g : gmap (option string) ScopeRef) : Prop :=
  forall n r, g !! n = Some r ->
    exists syms s,
      ref_objects r = objects (buildScopeTree empty syms "").2
      /\ deref r = Some s /\ scopeName s = n.

(** [this.globalScopes.delete(name)] for each name of a list. *)
Definition unbind (g : gmap (option string) ScopeRef) (names : list (option string))
    : gmap (option string) ScopeRef :=
  foldl (fun g n => delete n g) g names.
End ScopeQueries.

(** ** Duplicate symbols ([analysis/CodeAnalyzer.ts]) *)

Module CodeAnalyzer.
Import SymbolDatabase SymbolQueries.

(** [symbolGroups], a [Map] from names to arrays: its entries in the order
    of their insertion.  One round of the first loop of
    [findDuplicateSymbols]: the symbol is pushed on the array of its name,
    which is created at the end of the map when the name is new. *)
Fixpoint group_push (groups : list (option string * list Symbol)) (symbol : Symbol)
    : list (option string * list Symbol) :=
  match groups with
  | [] => [(name symbol, [symbol])]
  | (n, syms) :: rest =>
      if decide (n = name symbol) then (n, syms ++ [symbol])%list :: rest
      else (n, syms) :: group_push rest symbol
  end.

Definition symbolGroups (allSymbols : list Symbol) : list (option string * list Symbol) :=
  foldl group_push [] allSymbols.

(** [findDuplicateSymbols()]: the groups with more than one symbol. *)
Definition findDuplicateSymbols (o : OrderedIndex.state)
    : list (option string * list Symbol) :=
  List.filter (fun group => 1 <? Z.of_nat (length group.2))
              (symbolGroups (OrderedIndex.getAllSymbols o)).

(** The names of a list of symbols, each once, in the order of their
    first occurrence; [seen] holds the names met so far. *)
Fixpoint first_occurrences_from (seen : list (option string)) (allSymbols : list Symbol)
    : list (option string) :=
  match allSymbols with
  | [] => []
  | s :: rest =>
      if decide (name s ∈ seen) then first_occurrences_from seen rest
      else name s :: first_occurrences_from (name s :: seen) rest
  end.

Definition first_occurrences (allSymbols : list Symbol) : list (option string) :=
  first_occurrences_from [] allSymbols.

(** The groups once the symbols [allSymbols] are distributed: one entry
    for each name that occurs, holding the symbols of that name in their
    order. *)
Definition grouped (groups : list (option string * list Symbol)) (allSymbols : list Symbol)
    : Prop :=
  NoDup groups.*1
  /\ forall n syms, (n, syms) ∈ groups <-> syms = named n allSymbols /\ syms <> [].
End CodeAnalyzer.

(** ** The lookup in the index file ([extension.ts], [lookupDefinition]) *)

Module IndexLookup.

(** The [length] of a JS string is the number of its UTF-16 code units.
    The [scope] of a row is only measured ([a.scope?.length]), so it is
    kept as the sequence of its code units. *)
Definition code_unit : Type := N.

(** [type DefRow] *)
Record DefRow := mkDefRow {
  row_name : string;
  row_scope : option (list code_unit);
  row_file : string;
  row_line : Z;
  row_column : Z
}.

(** [r.name === identifier || r.name.endsWith(`::${identifier}`)] *)
Definition matches (identifier : string) (r : DefRow) : bool :=
  String.eqb (row_name r) identifier
  || JsString.endsWith (row_name r) (String.append "::" identifier).

(** [(a.file === currentFile ? -1 : 0)] *)
Definition file_rank (currentFile : string) (r : DefRow) : Z :=
  if String.eqb (row_file r) currentFile then -1 else 0.

(** [(a.scope?.length || 9999)]: a missing scope and the empty scope both
    give 9999. *)
Definition scope_rank (r : DefRow) : Z :=
  match row_scope r with
  | None => 9999
  | Some s =>
      let n := Z.of_nat (length s) in
      if n =? 0 then 9999 else n
  end.

(** The comparator: [x || y] on numbers is [y] when [x] is 0. *)
Definition compare (currentFile : string) (a b : DefRow) : Z :=
  let byFile := file_rank currentFile a - file_rank currentFile b in
  if byFile =? 0 then scope_rank a - scope_rank b else byFile.

(** [lookupDefinition(indexFile, identifier, currentFile)].  Reading the
    file is external: [rows] is the list of the rows parsed from its
    lines, [None] when the file does not exist. *)
Definition lookupDefinition (rows : option (list DefRow)) (identifier currentFile : string)
    : list DefRow :=
  match rows with
  | None => []
  | Some rows =>
      JsArray.sort (compare currentFile) (List.filter (matches identifier) rows)
  end.

(** The order of the ranking: rows of the current file first, then by
    the rank of the scope. *)
Definition ranks_before (currentFile : string) (a b : DefRow) : Prop :=
  file_rank currentFile a < file_rank currentFile b
  \/ (file_rank currentFile a = file_rank currentFile b /\ scope_rank a <= scope_rank b).
End IndexLookup.

(** ** Further concrete inputs *)

Module Fixtures.
Import SymbolDatabase.

(** A file [c.cpp] that defines [bar]. *)
Definition bar_c : Symbol := Examples.mk 30 "bar" "function" "c.cpp" 2 0 "".

(** [namespace a { class B { void f(); }; }] written on one line, and a
    variable on the next line. *)
Definition one_line : list Symbol :=
  [Examples.mk 40 "a" "namespace" "n.cpp" 0 0 "";
   Examples.mk 41 "B" "class" "n.cpp" 0 14 "a";
   Examples.mk 42 "f" "function" "n.cpp" 0 29 "a::B";
   Examples.mk 43 "v" "variable" "n.cpp" 1 0 ""].

(** The path of the file, and the scope object built for [f]: it ends on
    the line of [v]. *)
Definition one_line_file : string := "n.cpp".

Definition scope_f : ScopeManager.Scope :=
  ScopeManager.mkScope (Some "f") "function" 0 1
    [Examples.mk 42 "f" "function" "n.cpp" 0 29 "a::B";
     Examples.mk 43 "v" "variable" "n.cpp" 1 0 ""] [] (Some 1%nat).

(** The scope object built for [B]. *)
Definition scope_B : ScopeManager.Scope :=
  ScopeManager.mkScope (Some "B") "class" 0 0
    [Examples.mk 41 "B" "class" "n.cpp" 0 14 "a"] [2%nat] (Some 0%nat).

Definition one_line_tree : ScopeManager.ScopeTree :=
  (ScopeManager.buildScopeTree ScopeManager.empty one_line "n.cpp").2.

End Fixtures.

(** * Properties *)

Local Close Scope string_scope.

(** ** Strings *)

Lemma or_empty_id (s : string) : JsString.or_empty s = s.
Proof.
  unfold JsString.or_empty, JsString.truthy.
  destruct (String.eqb_spec s ""); simpl; congruence.
Qed.

Lemma truthy_spec (s : string) : JsString.truthy s = true <-> s <> "".
Proof.
  unfold JsString.truthy. destruct (String.eqb_spec s ""); simpl; split; congruence.
Qed.

Lemma startsWith_spec (s p : string) :
  JsString.startsWith s p = true <-> exists t, s = String.append p t.
Proof.
  revert s. induction p as [|c p IH]; intros s; simpl.
  - destruct s; (split; [intros _; eexists; reflexivity | reflexivity]).
  - destruct s as [|d s].
    + split; [discriminate | intros [t Ht]; discriminate].
    + simpl. destruct (Ascii.eqb_spec c d) as [->|Hne]; simpl.
      * rewrite IH. split; intros [t Ht]; exists t.
        -- subst s. reflexivity.
        -- change (String d s = String d (String.append p t)) in Ht. congruence.
      * split; [discriminate |].
        intros [t Ht]. change (String d s = String c (String.append p t)) in Ht. congruence.
Qed.

Lemma startsWith_nonempty (s p : string) :
  p <> "" -> JsString.startsWith s p = true -> JsString.truthy s = true.
Proof.
  intros Hp Hs. apply truthy_spec. intros ->.
  destruct p; [congruence | discriminate].
Qed.

Lemma append_nonempty_r (q : string) : String.append q "::" <> "".
Proof. destruct q; discriminate. Qed.

(** ** Strings: what the primitives decide *)

Lemma string_length_append (t p : string) :
  String.length (String.append t p) = (String.length t + String.length p)%nat.
Proof. induction t as [|c t IH]; [done |]. simpl. by rewrite IH. Qed.

Lemma string_substring_all (p : string) : String.substring 0 (String.length p) p = p.
Proof. induction p as [|c p IH]; [done |]. simpl. by rewrite IH. Qed.

Lemma string_substring_suffix (t p : string) :
  String.substring (String.length t) (String.length p) (String.append t p) = p.
Proof. induction t as [|c t IH]; [apply string_substring_all | exact IH]. Qed.

Lemma string_substring_split (s : string) (n : nat) :
  (n <= String.length s)%nat ->
  s = String.append (String.substring 0 n s) (String.substring n (String.length s - n) s).
Proof.
  revert n. induction s as [|c s IH]; intros n Hn.
  - simpl in Hn. by replace n with 0%nat by lia.
  - destruct n as [|n].
    + simpl. by rewrite string_substring_all.
    + simpl in Hn. simpl.
      change (String c s = String c (String.append (String.substring 0 n s)
                                       (String.substring n (String.length s - n) s))).
      f_equal. apply IH. lia.
Qed.

Lemma substring_from_suffix (s : string) (n : nat) :
  (n <= String.length s)%nat ->
  JsString.substring_from s (Z.of_nat n) = String.substring n (String.length s - n) s.
Proof.
  intros Hn. unfold JsString.substring_from, JsString.substring, JsString.clamp.
  f_equal; lia.
Qed.

(** [s.endsWith(p)] holds exactly when [s] is some text followed by [p]. *)
Lemma endsWith_spec (s p : string) :
  JsString.endsWith s p = true <-> exists t, s = String.append t p.
Proof.
  unfold JsString.endsWith. rewrite andb_true_iff, Z.leb_le, String.eqb_eq. split.
  - intros [Hle Hsub].
    replace (Z.of_nat (String.length s) - Z.of_nat (String.length p))
      with (Z.of_nat (String.length s - String.length p)) in Hsub by lia.
    rewrite substring_from_suffix in Hsub by lia.
    exists (String.substring 0 (String.length s - String.length p) s).
    rewrite (string_substring_split s (String.length s - String.length p)) at 1 by lia.
    by rewrite Hsub.
  - intros [t ->]. rewrite string_length_append. split; [lia |].
    replace (Z.of_nat (String.length t + String.length p) - Z.of_nat (String.length p))
      with (Z.of_nat (String.length t)) by lia.
    rewrite substring_from_suffix by (rewrite string_length_append; lia).
    rewrite string_length_append.
    replace (String.length t + String.length p - String.length t)%nat
      with (String.length p) by lia.
    apply string_substring_suffix.
Qed.

(** [s.includes(p)] holds exactly when [p] occurs somewhere in [s]. *)
Lemma includes_spec (s p : string) :
  JsString.includes s p = true
  <-> exists a b, s = String.append a (String.append p b).
Proof.
  induction s as [|c s IH].
  - cbn [JsString.includes]. rewrite orb_false_r, startsWith_spec. split.
    + intros [b Hb]. by exists EmptyString, b.
    + intros (a & b & Hab). destruct a; [by exists b | discriminate].
  - cbn [JsString.includes]. rewrite orb_true_iff, startsWith_spec, IH. split.
    + intros [[b Hb] | (a & b & Hab)].
      * by exists EmptyString, b.
      * exists (String c a), b. simpl. by rewrite Hab.
    + intros (a & b & Hab). destruct a as [|d a].
      * left. by exists b.
      * right. injection Hab as _ Hab. by exists a, b.
Qed.

(** ** Strings: qualified identifiers *)

Lemma includes_tail (c : ascii) (s p : string) :
  JsString.includes (String c s) p = false -> JsString.includes s p = false.
Proof. cbn [JsString.includes]. by intros [_ ?]%orb_false_iff. Qed.

Lemma lastIndexOf_from_none (s p : string) (i acc : Z) :
  JsString.includes s p = false -> JsString.lastIndexOf_from s p i acc = acc.
Proof.
  revert i acc. induction s as [|c s IH]; intros i acc.
  - cbn [JsString.includes JsString.lastIndexOf_from]. rewrite orb_false_r. by intros ->.
  - cbn [JsString.includes JsString.lastIndexOf_from].
    intros [-> Hs]%orb_false_iff. by apply IH.
Qed.

(** The index returned is that of the last occurrence: the text splits
    there, and the pattern does not occur again after its first character. *)
Lemma lastIndexOf_from_some (s p : string) (i acc : Z) :
  JsString.includes s p = true ->
  exists a b,
    s = String.append a b
    /\ JsString.startsWith b p = true
    /\ JsString.lastIndexOf_from s p i acc = i + Z.of_nat (String.length a)
    /\ match b with
       | EmptyString => True
       | String _ b' => JsString.includes b' p = false
       end.
Proof.
  revert i acc. induction s as [|c s IH]; intros i acc.
  - cbn [JsString.includes JsString.lastIndexOf_from]. rewrite orb_false_r. intros Hp.
    exists EmptyString, EmptyString. rewrite Hp. cbn. split; [done |].
    split; [done |]. split; [lia | done].
  - cbn [JsString.includes JsString.lastIndexOf_from]. intros Hinc.
    destruct (JsString.includes s p) eqn:Hs.
    + destruct (IH (i + 1) (if JsString.startsWith (String c s) p then i else acc) eq_refl)
        as (a & b & -> & Hb & Hidx & Hlast).
      exists (String c a), b. split; [done |]. split; [done |].
      split; [| done]. rewrite Hidx. cbn [String.length]. lia.
    + rewrite orb_false_r in Hinc. rewrite Hinc, lastIndexOf_from_none by done.
      exists EmptyString, (String c s). cbn. split; [done |]. split; [done |].
      split; [lia | done].
Qed.

Lemma string_substring_prefix (a b : string) :
  String.substring 0 (String.length a) (String.append a b) = a.
Proof.
  induction a as [|c a IH]; [by destruct b |].
  change (String c (String.substring 0 (String.length a) (String.append a b)) = String c a).
  by rewrite IH.
Qed.

(** An identifier text without separator is its own unqualified name. *)
Lemma getUnqualifiedName_unqualified (word : string) :
  JsString.includes word "::" = false -> Extension.getUnqualifiedName word = word.
Proof.
  intros Hinc. unfold Extension.getUnqualifiedName, JsString.lastIndexOf.
  by rewrite lastIndexOf_from_none.
Qed.

(** The code cuts a qualified identifier text at its last separator: the
    separator does not occur again after its first character. *)
Lemma last_separator_cut (word : string) :
  JsString.includes word "::" = true ->
  exists a t,
    word = String.append a (String.append "::" t)
    /\ JsString.includes (String.append ":" t) "::" = false
    /\ Resolver.qualifier_of word = a
    /\ Extension.getUnqualifiedName word = t.
Proof.
  intros Hinc.
  destruct (lastIndexOf_from_some word "::" 0 (-1) Hinc) as (a & b & -> & Hb & Hidx & Hlast).
  apply startsWith_spec in Hb as [t ->].
  change (JsString.lastIndexOf (String.append a (String.append "::" t)) "::"
          = 0 + Z.of_nat (String.length a)) in Hidx.
  exists a, t. split; [done |]. split; [exact Hlast |]. split.
  - unfold Resolver.qualifier_of, JsString.substring, JsString.clamp. rewrite Hidx.
    rewrite string_length_append.
    replace (Z.to_nat _) with 0%nat by lia.
    replace (Z.to_nat _) with (String.length a) by lia.
    apply string_substring_prefix.
  - unfold Extension.getUnqualifiedName. rewrite Hidx.
    replace (0 + Z.of_nat (String.length a) =? -1) with false
      by (symmetry; apply Z.eqb_neq; lia).
    unfold JsString.substring_from, JsString.substring, JsString.clamp.
    rewrite !string_length_append. cbn [String.length].
    replace (Z.to_nat _) with (String.length (String.append a "::"))
      by (rewrite string_length_append; cbn [String.length]; lia).
    replace (Z.to_nat _) with (String.length t) by lia.
    replace (String.append a (String.append "::" t))
      with (String.append (String.append a "::") t).
    + apply string_substring_suffix.
    + clear. induction a as [|c a IH]; [done |].
      change (String c (String.append (String.append a "::") t)
              = String c (String.append a (String.append "::" t))). by rewrite IH.
Qed.

(** A qualified identifier text is its qualifier, the separator and its
    unqualified name, and the unqualified name holds no separator. *)
Lemma qualified_split (word : string) :
  JsString.includes word "::" = true ->
  word = String.append (Resolver.qualifier_of word)
           (String.append "::" (Extension.getUnqualifiedName word))
  /\ JsString.includes (Extension.getUnqualifiedName word) "::" = false.
Proof.
  intros Hinc. destruct (last_separator_cut word Hinc) as (a & t & Hword & Hlast & -> & ->).
  split; [done |]. by apply includes_tail in Hlast.
Qed.

(** ** The last scope separator of an identifier text *)

Section LastSeparator.
Implicit Types (word q tail a b c d m : string).

Lemma occurs_includes p s : JsString.includes s p = true <-> Identifier.occurs p s.
Proof. apply includes_spec. Qed.

Lemma not_occurs_includes p s : JsString.includes s p = false <-> ~ Identifier.occurs p s.
Proof. rewrite <- occurs_includes. by destruct (JsString.includes s p). Qed.

Lemma string_append_empty_r a : String.append a EmptyString = a.
Proof.
  induction a as [|x a IH]; [done |].
  change (String x (String.append a EmptyString) = String x a). by rewrite IH.
Qed.

(** Two ways of cutting one text differ by a middle part. *)
Lemma string_append_cut a : forall b c d,
  String.append a b = String.append c d ->
  exists m, (c = String.append a m /\ b = String.append m d)
            \/ (a = String.append c m /\ d = String.append m b).
Proof.
  induction a as [|x a IH]; intros b c d H.
  - exists c. left. done.
  - destruct c as [|y c].
    + exists (String x a). right. done.
    + change (String x (String.append a b) = String y (String.append c d)) in H.
      injection H as -> H. destruct (IH b c d H) as [m [[-> ->] | [-> ->]]]; exists m.
      * left. done.
      * right. done.
Qed.

Lemma splits_at_last_separator_unique word q1 tail1 q2 tail2 :
  Identifier.splits_at_last_separator word q1 tail1 ->
  Identifier.splits_at_last_separator word q2 tail2 ->
  q1 = q2 /\ tail1 = tail2.
Proof.
  assert (forall q1 tail1 q2 tail2 m,
            q2 = String.append q1 m ->
            String.append "::" tail1 = String.append m (String.append "::" tail2) ->
            ~ Identifier.occurs "::" (String.append ":" tail1) ->
            q1 = q2 /\ tail1 = tail2) as Hcase.
  { clear. intros q1 tail1 q2 tail2 m -> Hm Hlast. destruct m as [|x m].
    - rewrite string_append_empty_r.
      change (String ":" (String ":" tail1) = String ":" (String ":" tail2)) in Hm.
      by injection Hm as ->.
    - change (String ":" (String ":" tail1)
              = String x (String.append m (String.append "::" tail2))) in Hm.
      injection Hm as _ Hm. destruct Hlast. by exists m, tail2. }
  intros [-> Hlast1] [H Hlast2].
  destruct (string_append_cut _ _ _ _ H) as [m [[Hq Hm] | [Hq Hm]]].
  - by apply (Hcase q1 tail1 q2 tail2 m).
  - destruct (Hcase q2 tail2 q1 tail1 m); done.
Qed.

(** The code cuts a qualified identifier text at its last separator. *)
Lemma code_splits_at_last_separator word :
  JsString.includes word "::" = true ->
  Identifier.splits_at_last_separator word (Resolver.qualifier_of word)
    (Extension.getUnqualifiedName word).
Proof.
  intros Hinc. destruct (last_separator_cut word Hinc) as (a & t & Hword & Hlast & -> & ->).
  split; [done |]. by apply not_occurs_includes.
Qed.

(** The qualifier and the tail of the specification are those the code
    computes. *)
Lemma qualifier_is_code word (qualifier : option string) :
  Identifier.qualifier_is word qualifier <->
  qualifier = if JsString.includes word "::" then Some (Resolver.qualifier_of word) else None.
Proof.
  destruct (JsString.includes word "::") eqn:Hinc.
  - pose proof (code_splits_at_last_separator word Hinc) as Hcode. split.
    + destruct qualifier as [q|]; cbn.
      * intros [tail Hq]. by destruct (splits_at_last_separator_unique _ _ _ _ _ Hq Hcode) as [-> _].
      * intros Hno. destruct Hno. by apply occurs_includes.
    + intros ->. cbn. eauto.
  - apply not_occurs_includes in Hinc. split.
    + destruct qualifier as [q|]; cbn; [| done].
      intros [tail [-> _]]. destruct Hinc. by exists q, tail.
    + intros ->. done.
Qed.

Lemma tail_is_code word targetName :
  Identifier.tail_is word targetName <-> targetName = Extension.getUnqualifiedName word.
Proof.
  destruct (JsString.includes word "::") eqn:Hinc.
  - pose proof (code_splits_at_last_separator word Hinc) as Hcode. split.
    + intros [[Hno _] | [q Hq]].
      * destruct Hno. by apply occurs_includes.
      * by destruct (splits_at_last_separator_unique _ _ _ _ _ Hq Hcode) as [_ ->].
    + intros ->. right. eauto.
  - rewrite (getUnqualifiedName_unqualified word Hinc).
    apply not_occurs_includes in Hinc. split.
    + intros [[_ ->] | [q [-> _]]]; [done |]. destruct Hinc. by exists q, targetName.
    + intros ->. by left.
Qed.
End LastSeparator.

(** ** The fuel of the recursive walks is enough *)

Section Fuel.
Import ScopeManager.
Implicit Types (objs : list Scope) (scopes : list nat) (fuel : nat).

Lemma findScopeAtLine_S fuel objs scopes (l : Z) :
  findScopeAtLine (S fuel) objs scopes l =
  match scopes with
  | [] => None
  | i :: rest =>
      match objs !! i with
      | Some scope =>
          if (startLine scope <=? l) && (l <=? endLine scope) then
            match findScopeAtLine fuel objs (children scope) l with
            | Some childScope => Some childScope
            | None => Some i
            end
          else findScopeAtLine (S fuel) objs rest l
      | None => findScopeAtLine (S fuel) objs rest l
      end
  end.
Proof. by destruct scopes. Qed.

(** More fuel than the number of objects past the scopes visited does not
    change what [findScopeAtLine] returns. *)
Lemma findScopeAtLine_fuel objs (l : Z) :
  well_linked objs ->
  forall fuel scopes,
    Forall (fun i => (length objs <= i + fuel)%nat) scopes ->
    findScopeAtLine (S fuel) objs scopes l = findScopeAtLine fuel objs scopes l.
Proof.
  intros Hwl. induction fuel as [|fuel IH]; intros scopes Hscopes.
  - induction Hscopes as [|i scopes Hi _ IHs]; [done |].
    rewrite findScopeAtLine_S, lookup_ge_None_2 by lia. exact IHs.
  - induction Hscopes as [|i scopes Hi _ IHs]; [done |].
    rewrite (findScopeAtLine_S (S fuel)), (findScopeAtLine_S fuel).
    destruct (objs !! i) as [scope|] eqn:Hobj; [| exact IHs].
    destruct ((startLine scope <=? l) && (l <=? endLine scope)); [| exact IHs].
    rewrite (IH (children scope)); [done |].
    destruct (Hwl i scope Hobj) as [Hch _].
    eapply Forall_impl; [exact Hch |]. simpl. intros c Hc. lia.
Qed.

Lemma findScopeAtLine_enough objs scopes (l : Z) (extra : nat) :
  well_linked objs ->
  findScopeAtLine (length objs + extra) objs scopes l
  = findScopeAtLine (length objs) objs scopes l.
Proof.
  intros Hwl. induction extra as [|extra IH]; [by rewrite Nat.add_0_r |].
  rewrite Nat.add_succ_r, findScopeAtLine_fuel; [done | done |].
  apply Forall_forall. intros i _. lia.
Qed.

Lemma registrations_S fuel objs scopes :
  registrations (S fuel) objs scopes =
  match scopes with
  | [] => []
  | i :: rest =>
      match objs !! i with
      | Some scope =>
          (scopeName scope, mkRef objs i) :: registrations fuel objs (children scope)
      | None => []
      end ++ registrations (S fuel) objs rest
  end.
Proof. by destruct scopes. Qed.

Lemma registrations_fuel objs :
  well_linked objs ->
  forall fuel scopes,
    Forall (fun i => (length objs <= i + fuel)%nat) scopes ->
    registrations (S fuel) objs scopes = registrations fuel objs scopes.
Proof.
  intros Hwl. induction fuel as [|fuel IH]; intros scopes Hscopes.
  - induction Hscopes as [|i scopes Hi _ IHs]; [done |].
    rewrite registrations_S, lookup_ge_None_2 by lia. exact IHs.
  - induction Hscopes as [|i scopes Hi _ IHs]; [done |].
    rewrite (registrations_S (S fuel)), (registrations_S fuel), IHs. f_equal.
    destruct (objs !! i) as [scope|] eqn:Hobj; [| done].
    f_equal. apply IH.
    destruct (Hwl i scope Hobj) as [Hch _].
    eapply Forall_impl; [exact Hch |]. simpl. intros c Hc. lia.
Qed.

Lemma registrations_enough objs scopes (extra : nat) :
  well_linked objs ->
  registrations (length objs + extra) objs scopes = registrations (length objs) objs scopes.
Proof.
  intros Hwl. induction extra as [|extra IH]; [by rewrite Nat.add_0_r |].
  rewrite Nat.add_succ_r, registrations_fuel; [done | done |].
  apply Forall_forall. intros i _. lia.
Qed.

(** [climb] stops at a scope without parent before the fuel runs out. *)
Lemma climb_fuel objs :
  well_linked objs ->
  forall fuel current hierarchy,
    (forall c, current = Some c -> (c < fuel)%nat) ->
    climb (S fuel) objs current hierarchy = climb fuel objs current hierarchy.
Proof.
  intros Hwl. induction fuel as [|fuel IH]; intros current hierarchy Hc.
  - destruct current as [c|]; [| done]. specialize (Hc c eq_refl). lia.
  - destruct current as [c|]; [| done].
    cbn [climb]. apply IH. intros p Hp.
    specialize (Hc c eq_refl). unfold parent_at in Hp.
    destruct (objs !! c) as [s|] eqn:Hobj; [| done].
    destruct (Hwl c s Hobj) as [_ Hpar]. apply Hpar in Hp. lia.
Qed.

Lemma climb_enough objs (i : nat) hierarchy (extra : nat) :
  well_linked objs ->
  climb (length objs + extra) objs (parent_at objs i) hierarchy
  = climb (length objs) objs (parent_at objs i) hierarchy.
Proof.
  intros Hwl. induction extra as [|extra IH]; [by rewrite Nat.add_0_r |].
  rewrite Nat.add_succ_r, climb_fuel; [done | done |].
  intros p Hp. unfold parent_at in Hp.
  destruct (objs !! i) as [s|] eqn:Hobj; [| done].
  destruct (Hwl i s Hobj) as [_ Hpar]. apply Hpar in Hp.
  apply lookup_lt_Some in Hobj. lia.
Qed.
End Fuel.

(** ** The trees [buildScopeTree] builds are well linked *)

Section Builder.
Import ScopeManager.
Implicit Types (objs : list Scope) (b : builder) (s : Symbol).

Lemma pop_closed_Forall (P : nat -> Prop) objs stack (l : Z) :
  Forall P stack -> Forall P (pop_closed objs stack l).
Proof.
  induction 1 as [|i stack Hi Hs IH]; [constructor |]. simpl.
  destruct (endLine_at objs i <? l); [exact IH | by constructor].
Qed.

Lemma well_linked_alter objs (i : nat) (f : Scope -> Scope) :
  (forall sc, children (f sc) = children sc /\ parent (f sc) = parent sc) ->
  well_linked objs -> well_linked (alter f i objs).
Proof.
  intros Hf Hwl j sc Hj. destruct (decide (i = j)) as [-> | Hne].
  - rewrite list_lookup_alter_eq in Hj.
    destruct (objs !! j) as [sc0|] eqn:Hobj; [| done].
    injection Hj as <-. destruct (Hf sc0) as [-> ->]. by apply Hwl.
  - rewrite list_lookup_alter_ne in Hj by done. by apply Hwl.
Qed.

Lemma well_linked_snoc objs (sc : Scope) :
  well_linked objs ->
  children sc = [] -> (forall p, parent sc = Some p -> (p < length objs)%nat) ->
  well_linked (objs ++ [sc]).
Proof.
  intros Hwl Hch Hpar j sc' Hj. apply lookup_app_Some in Hj as [Hj | [Hlen Hj]].
  - by apply Hwl.
  - apply list_lookup_singleton_Some in Hj as [Hj0 <-].
    rewrite Hch. split; [constructor |]. intros p Hp. apply Hpar in Hp. lia.
Qed.

Lemma well_linked_push_child objs (top : nat) :
  well_linked objs -> (top < length objs)%nat ->
  well_linked (alter (push_child (length objs)) top objs).
Proof.
  intros Hwl Htop j sc Hj. destruct (decide (top = j)) as [-> | Hne].
  - rewrite list_lookup_alter_eq in Hj.
    destruct (objs !! j) as [sc0|] eqn:Hobj; [| done].
    injection Hj as <-. destruct (Hwl j sc0 Hobj) as [Hch Hpar].
    split; [| exact Hpar]. cbn. apply Forall_app. split; [done |].
    by constructor.
  - rewrite list_lookup_alter_ne in Hj by done. by apply Hwl.
Qed.

Lemma builder_ok_push_symbol b s (top : nat) :
  builder_ok b ->
  builder_ok (mkBuilder (alter (push_symbol s) top (store b)) (scopes b) (scopeStack b)).
Proof.
  intros [Hwl Hstack]. split; cbn.
  - by apply well_linked_alter.
  - by rewrite length_alter.
Qed.

Lemma visit_ok b s : builder_ok b -> builder_ok (visit b s).
Proof.
  intros Hb. unfold visit.
  assert (builder_ok
            (if isScopeSymbol s
             then match pop_closed (store b) (scopeStack b) (line s) with
                  | [] => mkBuilder (store b ++ [createScope s])
                                    (scopes b ++ [length (store b)]) [length (store b)]
                  | top :: _ =>
                      mkBuilder (alter (push_child (length (store b))) top (store b)
                                 ++ [set_parent top (createScope s)])
                                (scopes b)
                                (length (store b)
                                 :: pop_closed (store b) (scopeStack b) (line s))
                  end
             else b)) as Hopen.
  { destruct (isScopeSymbol s); [| done]. destruct Hb as [Hwl Hstack].
    pose proof (pop_closed_Forall _ (store b) _ (line s) Hstack) as Hpop.
    destruct (pop_closed (store b) (scopeStack b) (line s)) as [|top rest] eqn:Hp.
    - split; cbn.
      + by apply well_linked_snoc.
      + constructor; [| constructor]. rewrite length_app. cbn. lia.
    - apply Forall_cons in Hpop as [Htop Hrest]. split; cbn.
      + apply well_linked_snoc; [by apply well_linked_push_child | done |].
        intros p [= <-]. by rewrite length_alter.
      + rewrite length_app, length_alter. cbn.
        constructor; [lia |]. constructor; [lia |].
        eapply Forall_impl; [exact Hrest |]. simpl. intros. lia. }
  destruct (isScopeSymbol s).
  - destruct (pop_closed (store b) (scopeStack b) (line s)) as [|top rest];
      cbn [scopeStack]; by apply builder_ok_push_symbol.
  - destruct (scopeStack b) as [|top rest] eqn:Hst; [done |].
    rewrite <- Hst. by apply builder_ok_push_symbol.
Qed.

Lemma foldl_visit_ok (syms : list Symbol) b :
  builder_ok b -> builder_ok (foldl visit b syms).
Proof.
  revert b. induction syms as [|s syms IH]; intros b Hb; [done |].
  simpl. by apply IH, visit_ok.
Qed.

Lemma backfill_links (sc : Scope) :
  children (backfill sc) = children sc /\ parent (backfill sc) = parent sc.
Proof. unfold backfill. by destruct (last _). Qed.

Lemma updateScopeEndLines_S (fuel : nat) objs (scopes : list nat) :
  updateScopeEndLines (S fuel) objs scopes =
  match scopes with
  | [] => objs
  | i :: rest =>
      updateScopeEndLines (S fuel)
        match objs !! i with
        | Some scope => updateScopeEndLines fuel (alter backfill i objs) (children scope)
        | None => objs
        end rest
  end.
Proof. by destruct scopes. Qed.

Lemma updateScopeEndLines_links (fuel : nat) :
  forall (ids : list nat) objs,
    well_linked objs ->
    well_linked (updateScopeEndLines fuel objs ids)
    /\ length (updateScopeEndLines fuel objs ids) = length objs.
Proof.
  induction fuel as [|fuel IH]; [done |].
  induction ids as [|i ids IHs]; intros objs Hwl; [done |].
  rewrite updateScopeEndLines_S.
  destruct (objs !! i) as [scope|] eqn:Hobj; [| by apply IHs].
  destruct (IH (children scope) (alter backfill i objs)) as [Hwl' Hlen'].
  { apply well_linked_alter; [apply backfill_links | done]. }
  destruct (IHs _ Hwl') as [Hwl'' Hlen'']. split; [done |].
  by rewrite Hlen'', Hlen', length_alter.
Qed.

Lemma updateScopeEndLines_fuel (fuel : nat) :
  forall (ids : list nat) objs,
    well_linked objs ->
    Forall (fun i => (length objs <= i + fuel)%nat) ids ->
    updateScopeEndLines (S fuel) objs ids = updateScopeEndLines fuel objs ids.
Proof.
  induction fuel as [|fuel IH].
  - induction ids as [|i ids IHs]; intros objs Hwl Hids; [done |].
    apply Forall_cons in Hids as [Hi Hids].
    rewrite updateScopeEndLines_S, lookup_ge_None_2 by lia. by apply IHs.
  - induction ids as [|i ids IHs]; intros objs Hwl Hids; [done |].
    apply Forall_cons in Hids as [Hi Hids].
    rewrite (updateScopeEndLines_S (S fuel)), (updateScopeEndLines_S fuel).
    destruct (objs !! i) as [scope|] eqn:Hobj; [| by apply IHs].
    assert (well_linked (alter backfill i objs)) as Hwl1
      by (apply well_linked_alter; [apply backfill_links | done]).
    rewrite (IH (children scope)).
    + destruct (updateScopeEndLines_links fuel (children scope) _ Hwl1) as [Hwl2 Hlen2].
      apply IHs; [done |]. by rewrite Hlen2, length_alter.
    + done.
    + rewrite length_alter. destruct (Hwl i scope Hobj) as [Hch _].
      eapply Forall_impl; [exact Hch |]. simpl. intros c Hc. lia.
Qed.

(** The objects of the tree returned by [buildScopeTree] are well linked,
    so the fuel of the walks over it is never exhausted. *)
Lemma buildScopeTree_well_linked (sm : state) (syms : list Symbol) (f : string) :
  well_linked (objects (buildScopeTree sm syms f).2).
Proof.
  unfold buildScopeTree, buildScopeTree_sorted. cbn [snd objects].
  apply updateScopeEndLines_links.
  apply (foldl_visit_ok _ (mkBuilder [] [] [])).
  split; [intros i sc Hi; cbn in Hi; by rewrite lookup_nil in Hi | constructor].
Qed.

Lemma removeScopeFromGlobalIndex_fuel objs :
  well_linked objs ->
  forall (fuel i : nat) (g : gmap (option string) ScopeRef),
    (length objs <= i + fuel)%nat ->
    removeScopeFromGlobalIndex_from (S fuel) objs i g
    = removeScopeFromGlobalIndex_from fuel objs i g.
Proof.
  intros Hwl. induction fuel as [|fuel IH]; intros i g Hi.
  - cbn. by rewrite lookup_ge_None_2 by lia.
  - change (removeScopeFromGlobalIndex_from (S (S fuel)) objs i g)
      with (match objs !! i with
            | Some scope =>
                foldl (fun g child => removeScopeFromGlobalIndex_from (S fuel) objs child g)
                      (delete (scopeName scope) g) (children scope)
            | None => g
            end).
    change (removeScopeFromGlobalIndex_from (S fuel) objs i g)
      with (match objs !! i with
            | Some scope =>
                foldl (fun g child => removeScopeFromGlobalIndex_from fuel objs child g)
                      (delete (scopeName scope) g) (children scope)
            | None => g
            end).
    destruct (objs !! i) as [scope|] eqn:Hobj; [| done].
    destruct (Hwl i scope Hobj) as [Hch _].
    generalize (delete (scopeName scope) g). clear Hobj.
    induction Hch as [|c cs Hc _ IHc]; intros g'; [done |].
    cbn [foldl]. rewrite IH by lia. apply IHc.
Qed.

Lemma updateScopeEndLines_enough objs (ids : list nat) (extra : nat) :
  well_linked objs ->
  updateScopeEndLines (length objs + extra) objs ids
  = updateScopeEndLines (length objs) objs ids.
Proof.
  intros Hwl. induction extra as [|extra IH]; [by rewrite Nat.add_0_r |].
  rewrite Nat.add_succ_r, updateScopeEndLines_fuel; [done | done |].
  apply Forall_forall. intros i _. lia.
Qed.

Lemma removeScopeFromGlobalIndex_enough objs (i extra : nat)
    (g : gmap (option string) ScopeRef) :
  well_linked objs ->
  removeScopeFromGlobalIndex_from (length objs + extra) objs i g
  = removeScopeFromGlobalIndex objs i g.
Proof.
  intros Hwl. unfold removeScopeFromGlobalIndex.
  induction extra as [|extra IH]; [by rewrite Nat.add_0_r |].
  rewrite Nat.add_succ_r, removeScopeFromGlobalIndex_fuel; [done | done | lia].
Qed.
End Builder.

(** ** C1: the scoring function is the additive table *)

Lemma suffix_loop_delta (cs : list string) (sc : string) (score : Z) :
  Resolver.suffix_loop cs sc score =
  score + Resolver.delta
            (bool_decide (Exists (fun c => c <> "" /\ JsString.endsWith sc c = true) cs)) 12.
Proof.
  induction cs as [|c cs IH]; cbn [Resolver.suffix_loop].
  - rewrite bool_decide_eq_false_2 by (intros H; inversion H).
    unfold Resolver.delta. lia.
  - destruct (JsString.truthy c && JsString.endsWith sc c) eqn:Hc.
    + apply andb_true_iff in Hc as [Ht He]. apply truthy_spec in Ht.
      rewrite bool_decide_eq_true_2 by (by apply Exists_cons_hd). done.
    + rewrite IH. f_equal. f_equal. apply bool_decide_ext.
      rewrite Exists_cons. split; [tauto |].
      intros [[Hn He] | H]; [| done].
      apply truthy_spec in Hn. rewrite Hn, He in Hc. discriminate.
Qed.

Lemma array_includes_elem_of (l : list string) (x : string) :
  Resolver.array_includes l x = bool_decide (x ∈ l).
Proof.
  unfold Resolver.array_includes. induction l as [|y l IH].
  - symmetry. apply bool_decide_eq_false_2, not_elem_of_nil.
  - cbn [existsb]. rewrite IH. destruct (String.eqb_spec x y) as [->|Hne].
    + symmetry. apply bool_decide_eq_true_2. left.
    + cbn [orb]. apply bool_decide_ext. rewrite elem_of_cons. tauto.
Qed.

Lemma scoreDefinition_table
    (def : Symbol) (currentFile : string) (candidateScopePaths : list string)
    (identifierText targetName : string) :
  Resolver.scoreDefinition def currentFile candidateScopePaths identifierText targetName =
  Resolver.score_table def currentFile candidateScopePaths
    (if JsString.includes identifierText "::"
     then Some (Resolver.qualifier_of identifierText) else None)
    targetName.
Proof.
  unfold Resolver.scoreDefinition, Resolver.score_table, Resolver.name_satisfies.
  rewrite !or_empty_id, suffix_loop_delta, array_includes_elem_of.
  replace (String.eqb (file def) currentFile) with (bool_decide (file def = currentFile))
    by (destruct (String.eqb_spec (file def) currentFile);
        [by rewrite bool_decide_eq_true_2 | by rewrite bool_decide_eq_false_2]).
  assert (Hq : forall n q, JsString.truthy n && JsString.startsWith n (String.append q "::")
                           = JsString.startsWith n (String.append q "::")).
  { intros n q. destruct (JsString.startsWith n (String.append q "::")) eqn:Hs.
    - rewrite (startsWith_nonempty _ _ (append_nonempty_r q) Hs). done.
    - apply andb_false_r. }
  generalize (bool_decide (file def = currentFile)) as sameFile.
  generalize (bool_decide (scope def ∈ candidateScopePaths)) as exactScope.
  generalize (bool_decide (Exists (fun c => c <> "" /\ JsString.endsWith (scope def) c = true)
                                  candidateScopePaths)) as suffixScope.
  generalize (bool_decide (name def = Some targetName)) as exactName.
  generalize (isDefinition def && negb (isDeclaration def)) as pureDef.
  destruct (JsString.includes identifierText "::"); cbv iota.
  - generalize (JsString.endsWith (scope def) (Resolver.qualifier_of identifierText))
      as qualScope.
    destruct (name def) as [n|].
    + rewrite Hq.
      generalize (JsString.startsWith n
                    (String.append (Resolver.qualifier_of identifierText) "::")) as qualName.
      generalize (JsString.endsWith n (String.append "::" targetName)) as tailName.
      intros [] [] [] [] [] [] [] []; reflexivity.
    + intros [] [] [] [] [] []; reflexivity.
  - destruct (name def) as [n|].
    + generalize (JsString.endsWith n (String.append "::" targetName)) as tailName.
      intros [] [] [] [] [] []; reflexivity.
    + intros [] [] [] [] []; reflexivity.
Qed.

(** C1.  For every candidate, current file, list of candidate scope paths,
    identifier text and target name, [scoreDefinition] returns the sum of
    the rows of the scoring table: +5 same file, +20 scope equal to an entry
    of the candidate scope paths, +12 (once) scope ending with a non-empty
    entry, +15 for a name starting with the qualifier and ["::"] and +10
    for a scope ending with the qualifier when the identifier text is
    qualified, +2 and +1 for the name, +3 for a definition that is not a
    declaration, and nothing else.  The qualifier is the text before the
    last ["::"] of the identifier text; every identifier text has one
    or, when it contains no ["::"], none. *)
Theorem scoreDefinition_is_score_table
    (def : Symbol) (currentFile : string) (candidateScopePaths : list string)
    (identifierText targetName : string) :
  (exists qualifier, Identifier.qualifier_is identifierText qualifier)
  /\ forall qualifier,
       Identifier.qualifier_is identifierText qualifier ->
       Resolver.scoreDefinition def currentFile candidateScopePaths identifierText targetName
       = Resolver.score_table def currentFile candidateScopePaths qualifier targetName.
Proof.
  split.
  - eexists. by apply qualifier_is_code.
  - intros qualifier Hq. apply qualifier_is_code in Hq as ->.
    apply scoreDefinition_table.
Qed.

(** ** The Name Index: buckets after each step of the two loops *)

Section NameIndexSteps.
Import SymbolDatabase.
Implicit Types (index : gmap (option string) (list Symbol)) (s : Symbol)
               (n : option string) (bucket : list Symbol).

Lemma findIndex_from_spec (p : Symbol -> bool) bucket (k : Z) :
  0 <= k ->
  (JsArray.findIndex_from p bucket k = -1 /\ remove_first p bucket = bucket)
  \/ (k <= JsArray.findIndex_from p bucket k
      /\ JsArray.splice1 bucket (JsArray.findIndex_from p bucket k - k)
         = remove_first p bucket
      /\ exists x, x ∈ bucket /\ p x = true).
Proof.
  revert k. induction bucket as [|x rest IH]; intros k Hk; simpl.
  - by left.
  - destruct (p x) eqn:Hp.
    + right. split; [lia |]. rewrite Z.sub_diag. split; [done |].
      exists x. split; [left | done].
    + destruct (IH (k + 1)) as [[Hnone Hsame] | (Hle & Hsplice & y & Hy & Hpy)]; [lia | |].
      * left. by rewrite Hnone, Hsame.
      * right. split; [lia |]. split.
        -- rewrite <- Hsplice. unfold JsArray.splice1.
           replace (Z.to_nat (JsArray.findIndex_from p rest (k + 1) - k))
             with (S (Z.to_nat (JsArray.findIndex_from p rest (k + 1) - (k + 1)))) by lia.
           done.
        -- exists y. split; [by right | done].
Qed.

Lemma findIndex_spec (p : Symbol -> bool) bucket :
  (JsArray.findIndex p bucket = -1 /\ remove_first p bucket = bucket)
  \/ (0 <= JsArray.findIndex p bucket
      /\ JsArray.splice1 bucket (JsArray.findIndex p bucket) = remove_first p bucket
      /\ exists x, x ∈ bucket /\ p x = true).
Proof.
  destruct (findIndex_from_spec p bucket 0) as [H | H]; [lia | by left |].
  right. unfold JsArray.findIndex. by rewrite Z.sub_0_r in H.
Qed.

Lemma remove_first_nil_inv (p : Symbol -> bool) bucket :
  JsArray.findIndex p bucket = -1 -> bucket <> [] -> remove_first p bucket <> [].
Proof.
  intros Hi Hne. destruct (findIndex_spec p bucket) as [[_ ->] | (H0 & _)]; [done | lia].
Qed.

(** One iteration of the loop of [removeFile]. *)
Lemma bucket_unindex_symbol index s n :
  bucket_of (unindex_symbol index s) n =
  if decide (n = name s) then remove_first (same_position s) (bucket_of index n)
  else bucket_of index n.
Proof.
  unfold unindex_symbol, bucket_of.
  destruct (index !! name s) as [b|] eqn:Hb.
  - destruct (findIndex_spec (same_position s) b) as [[Hi Hsame] | (Hi & Hsplice & _)].
    + rewrite Hi. simpl. case_decide as Hn; [subst n; rewrite Hb; simpl; by rewrite Hsame | done].
    + replace (JsArray.findIndex (same_position s) b =? -1) with false
        by (symmetry; apply Z.eqb_neq; lia).
      simpl. rewrite Hsplice.
      destruct (Z.of_nat (length (remove_first (same_position s) b)) =? 0) eqn:Hlen.
      * apply Z.eqb_eq in Hlen.
        assert (remove_first (same_position s) b = []) as Hnil
          by (destruct (remove_first (same_position s) b); [done | simpl in Hlen; lia]).
        case_decide as Hn.
        -- subst n. rewrite lookup_delete_eq, Hb. simpl. by rewrite Hnil.
        -- by rewrite lookup_delete_ne.
      * case_decide as Hn.
        -- subst n. by rewrite lookup_insert_eq, Hb.
        -- by rewrite lookup_insert_ne.
  - case_decide as Hn; [subst n; by rewrite Hb | done].
Qed.

Lemma no_empty_unindex_symbol index s :
  no_empty_bucket index -> no_empty_bucket (unindex_symbol index s).
Proof.
  intros Hne n b. unfold unindex_symbol.
  destruct (index !! name s) as [b0|] eqn:Hb; [| apply Hne].
  destruct (findIndex_spec (same_position s) b0) as [[Hi Hsame] | (Hi & Hsplice & _)].
  - rewrite Hi. simpl. apply Hne.
  - replace (JsArray.findIndex (same_position s) b0 =? -1) with false
      by (symmetry; apply Z.eqb_neq; lia).
    simpl.
    destruct (Z.of_nat (length (JsArray.splice1 b0 (JsArray.findIndex (same_position s) b0))) =? 0)
      eqn:Hlen.
    + rewrite lookup_delete_Some. intros [_ H]. (eapply Hne; eassumption).
    + rewrite lookup_insert_Some. intros [[_ <-] | [_ H]]; [| (eapply Hne; eassumption)].
      intros Hnil. rewrite Hnil in Hlen. done.
Qed.

(** One iteration of the loop of [updateFile]. *)
Lemma bucket_index_symbol index s n :
  bucket_of (index_symbol index s) n =
  if decide (n = name s) then bucket_of index n ++ [s] else bucket_of index n.
Proof.
  unfold index_symbol, bucket_of.
  case_decide as Hn.
  - subst n. rewrite lookup_alter_eq.
    destruct (index !! name s) as [b|] eqn:Hb; [by rewrite Hb |].
    by rewrite lookup_insert_eq.
  - rewrite lookup_alter_ne by done.
    destruct (index !! name s); [done | by rewrite lookup_insert_ne].
Qed.

Lemma no_empty_index_symbol index s :
  no_empty_bucket index -> no_empty_bucket (index_symbol index s).
Proof.
  intros Hne n b. unfold index_symbol.
  rewrite lookup_alter_Some. intros [(_ & b' & Hb' & ->) | [Hn H]].
  - by destruct b'.
  - destruct (index !! name s) eqn:Hb; [(eapply Hne; eassumption) |].
    apply lookup_insert_Some in H as [[? _] | [_ H]]; [done | eapply Hne; eassumption].
Qed.

(** The two loops. *)
Lemma bucket_foldl_unindex old index n :
  bucket_of (foldl unindex_symbol index old) n =
  unindex_all (bucket_of index n) (named n old).
Proof.
  unfold unindex_all, named. revert index.
  induction old as [|s old IH]; intros index; [done |].
  simpl. rewrite IH, bucket_unindex_symbol, filter_cons.
  case_decide as Hn; case_decide as Hn'; try congruence; done.
Qed.

Lemma bucket_foldl_index new index n :
  bucket_of (foldl index_symbol index new) n = bucket_of index n ++ named n new.
Proof.
  unfold named. revert index.
  induction new as [|s new IH]; intros index; simpl.
  - by rewrite filter_nil, app_nil_r.
  - rewrite IH, bucket_index_symbol, filter_cons.
    case_decide as Hn; case_decide as Hn'; try congruence; try done.
    by rewrite <- app_assoc.
Qed.

Lemma no_empty_foldl_unindex old index :
  no_empty_bucket index -> no_empty_bucket (foldl unindex_symbol index old).
Proof.
  revert index. induction old as [|s old IH]; intros index H; [done |].
  simpl. by apply IH, no_empty_unindex_symbol.
Qed.

Lemma no_empty_foldl_index new index :
  no_empty_bucket index -> no_empty_bucket (foldl index_symbol index new).
Proof.
  revert index. induction new as [|s new IH]; intros index H; [done |].
  simpl. by apply IH, no_empty_index_symbol.
Qed.

(** Two indexes without empty buckets are equal when their buckets are. *)
Lemma index_ext index1 index2 :
  no_empty_bucket index1 -> no_empty_bucket index2 ->
  (forall n, bucket_of index1 n = bucket_of index2 n) -> index1 = index2.
Proof.
  intros H1 H2 Hb. apply map_eq. intros n. specialize (Hb n). unfold bucket_of in Hb.
  destruct (index1 !! n) as [b1|] eqn:E1, (index2 !! n) as [b2|] eqn:E2; simpl in Hb.
  - by subst.
  - subst. by apply H1 in E1.
  - subst. by apply H2 in E2.
  - done.
Qed.
End NameIndexSteps.

(** ** The Name Index: what the loops do to a bucket *)

Section NameIndexBuckets.
Import SymbolDatabase.
Implicit Types (s b x : Symbol) (bucket old : list Symbol).

Lemma same_position_spec s b : same_position s b = true <-> position b = position s.
Proof.
  unfold same_position, position. rewrite andb_true_iff, String.eqb_eq, Z.eqb_eq.
  split; [intros [-> ->]; done | intros [= -> ->]; done].
Qed.

Lemma same_position_refl s : same_position s s = true.
Proof. by apply same_position_spec. Qed.

Lemma remove_first_hit (p : Symbol -> bool) bucket x :
  x ∈ bucket -> p x = true ->
  exists b, p b = true /\ b ∈ bucket /\ bucket ≡ₚ b :: remove_first p bucket.
Proof.
  induction bucket as [|y rest IH]; intros Hin Hp; [by apply elem_of_nil in Hin |].
  simpl. destruct (p y) eqn:Hy.
  - exists y. split; [done |]. split; [left | done].
  - apply elem_of_cons in Hin as [-> | Hin]; [congruence |].
    destruct (IH Hin Hp) as (b & Hb & Hbin & Hperm).
    exists b. split; [done |]. split; [by right |].
    rewrite Hperm at 1. apply Permutation_swap.
Qed.

Lemma remove_first_app_hit (p : Symbol -> bool) bucket x rest :
  (forall b, b ∈ bucket -> p b = false) -> p x = true ->
  remove_first p (bucket ++ x :: rest) = bucket ++ rest.
Proof.
  induction bucket as [|y bucket IH]; intros Hnone Hp; simpl.
  - by rewrite Hp.
  - rewrite (Hnone y) by left. f_equal. apply IH; [| done].
    intros b Hb. apply Hnone. by right.
Qed.

(** Positions: each old record takes one record of its position out of
    the bucket. *)
Lemma unindex_all_positions old bucket (others : list (string * Z)) :
  position <$> bucket ≡ₚ (position <$> old) ++ others ->
  position <$> unindex_all bucket old ≡ₚ others.
Proof.
  unfold unindex_all. revert bucket.
  induction old as [|s old IH]; intros bucket Hperm; [done |].
  simpl. apply IH.
  assert (position s ∈ position <$> bucket) as Hin by (rewrite Hperm; left).
  apply list_elem_of_fmap in Hin as (x & Hx & Hin).
  destruct (remove_first_hit (same_position s) bucket x Hin) as (b & Hb & _ & Hb').
  { by apply same_position_spec. }
  apply same_position_spec in Hb.
  rewrite Hb' in Hperm. simpl in Hperm. rewrite Hb in Hperm.
  by apply Permutation_cons_inv in Hperm.
Qed.

(** Records: when the remaining records lie at other positions, exactly
    the old records leave the bucket. *)
Lemma unindex_all_records old bucket (mine others : list Symbol) :
  bucket ≡ₚ mine ++ others ->
  position <$> mine ≡ₚ position <$> old ->
  (forall r s, r ∈ others -> s ∈ old -> position r <> position s) ->
  unindex_all bucket old ≡ₚ others.
Proof.
  unfold unindex_all. revert bucket mine.
  induction old as [|s old IH]; intros bucket mine Hperm Hpos Hother.
  - apply Permutation_nil_r, fmap_nil_inv in Hpos. by subst.
  - simpl.
    assert (position s ∈ position <$> mine) as Hin by (rewrite Hpos; left).
    apply list_elem_of_fmap in Hin as (x & Hx & Hin).
    destruct (remove_first_hit (same_position s) bucket x) as (b & Hb & Hbin & Hb').
    { rewrite Hperm. apply elem_of_app. by left. }
    { by apply same_position_spec. }
    apply same_position_spec in Hb.
    assert (b ∈ mine) as Hmine.
    { rewrite Hperm in Hbin. apply elem_of_app in Hbin as [? | Hr]; [done |].
      exfalso. apply (Hother b s Hr); [left | done]. }
    apply elem_of_Permutation in Hmine as [mine' Hmine'].
    apply (IH _ mine').
    + rewrite Hb', Hmine' in Hperm. simpl in Hperm.
      by apply Permutation_cons_inv in Hperm.
    + rewrite Hmine' in Hpos. simpl in Hpos. rewrite Hb in Hpos.
      by apply Permutation_cons_inv in Hpos.
    + intros r s' Hr Hs'. apply Hother; [done | by right].
Qed.

(** Order: records just appended to a bucket that had none at their
    positions are taken out again, leaving the bucket as it was. *)
Lemma unindex_all_appended old bucket :
  (forall b s, b ∈ bucket -> s ∈ old -> same_position s b = false) ->
  unindex_all (bucket ++ old) old = bucket.
Proof.
  unfold unindex_all.
  induction old as [|s old IH]; intros Hnone; simpl.
  - apply app_nil_r.
  - rewrite remove_first_app_hit.
    + apply IH. intros b s' Hb Hs'. apply Hnone; [done | by right].
    + intros b Hb. apply Hnone; [done | left].
    + apply same_position_refl.
Qed.

Lemma unindex_all_nil bucket : unindex_all bucket [] = bucket.
Proof. done. Qed.
End NameIndexBuckets.

(** ** The file table *)

Section FileTable.
Import SymbolDatabase.
Implicit Types (files : gmap string (list Symbol)).

Lemma stored_symbols_insert files f syms :
  stored_symbols (<[f := syms]> files) ≡ₚ syms ++ stored_symbols (delete f files).
Proof.
  unfold stored_symbols. rewrite <- insert_delete_eq.
  rewrite map_to_list_insert by apply lookup_delete_eq. done.
Qed.

Lemma stored_symbols_lookup files f syms :
  files !! f = Some syms ->
  stored_symbols files ≡ₚ syms ++ stored_symbols (delete f files).
Proof.
  intros Hf. unfold stored_symbols. by rewrite <- (map_to_list_delete files f syms).
Qed.

Lemma elem_of_stored_symbols files s :
  s ∈ stored_symbols files <-> exists f syms, files !! f = Some syms /\ s ∈ syms.
Proof.
  unfold stored_symbols. rewrite list_elem_of_bind. split.
  - intros ([f syms] & Hs & Hin). apply elem_of_map_to_list in Hin. eauto.
  - intros (f & syms & Hf & Hs). exists (f, syms). split; [done |].
    by apply elem_of_map_to_list.
Qed.

Lemma named_app n (l1 l2 : list Symbol) : named n (l1 ++ l2) = named n l1 ++ named n l2.
Proof. apply filter_app. Qed.

Lemma elem_of_named n (l : list Symbol) s : s ∈ named n l <-> name s = n /\ s ∈ l.
Proof. unfold named. by rewrite list_elem_of_filter. Qed.
End FileTable.

(** ** The Name Index: the two methods *)

Section NameIndexMethods.
Import SymbolDatabase.
Implicit Types (st : state) (f : string) (syms : list Symbol) (n : option string).

Lemma symbols_removeFile st f : symbols (removeFile st f) = delete f (symbols st).
Proof.
  unfold removeFile. destruct (symbols st !! f) eqn:Hf; [done |].
  by rewrite delete_id.
Qed.

Lemma bucket_removeFile st f n :
  findSymbolsByName (removeFile st f) n =
  unindex_all (findSymbolsByName st n) (named n (getSymbolsInFile st f)).
Proof.
  unfold findSymbolsByName, removeFile, getSymbolsInFile.
  destruct (symbols st !! f) as [old|]; simpl; [apply bucket_foldl_unindex | done].
Qed.

Lemma symbols_updateFile st f syms :
  symbols (updateFile st f syms) = <[f := syms]> (symbols st).
Proof.
  unfold updateFile. simpl. by rewrite symbols_removeFile, insert_delete_eq.
Qed.

Lemma bucket_updateFile st f syms n :
  findSymbolsByName (updateFile st f syms) n =
  findSymbolsByName (removeFile st f) n ++ named n syms.
Proof. unfold findSymbolsByName, updateFile. simpl. apply bucket_foldl_index. Qed.

Lemma no_empty_removeFile st f :
  no_empty_bucket (symbolIndex st) -> no_empty_bucket (symbolIndex (removeFile st f)).
Proof.
  intros H. unfold removeFile. destruct (symbols st !! f); [| done].
  simpl. by apply no_empty_foldl_unindex.
Qed.

Lemma no_empty_updateFile st f syms :
  no_empty_bucket (symbolIndex st) -> no_empty_bucket (symbolIndex (updateFile st f syms)).
Proof.
  intros H. unfold updateFile. simpl. by apply no_empty_foldl_index, no_empty_removeFile.
Qed.

Lemma run_snoc ops o : run (ops ++ [o]) = apply (run ops) o.
Proof. unfold run. by rewrite foldl_app. Qed.

Lemma no_empty_run ops : no_empty_bucket (symbolIndex (run ops)).
Proof.
  induction ops as [|o ops IH] using rev_ind; [intros n b; cbn; by rewrite lookup_empty |].
  rewrite run_snoc. destruct o; [by apply no_empty_updateFile | by apply no_empty_removeFile].
Qed.

(** The projection of the file table after each method. *)
Lemma projection_removeFile st f n :
  projection st n ≡ₚ named n (getSymbolsInFile st f) ++ projection (removeFile st f) n.
Proof.
  unfold projection, getSymbolsInFile. rewrite symbols_removeFile.
  destruct (symbols st !! f) as [old|] eqn:Hf; simpl.
  - rewrite <- named_app. unfold named. by rewrite <- stored_symbols_lookup.
  - by rewrite delete_id.
Qed.

Lemma projection_updateFile st f syms n :
  projection (updateFile st f syms) n ≡ₚ projection (removeFile st f) n ++ named n syms.
Proof.
  unfold projection. rewrite symbols_updateFile, symbols_removeFile.
  unfold named. rewrite stored_symbols_insert, filter_app. apply Permutation_app_comm.
Qed.

(** Positions are kept consistent by every sequence of operations. *)
Lemma positions_removeFile st f :
  positions_consistent st -> positions_consistent (removeFile st f).
Proof.
  intros Hinv n. rewrite bucket_removeFile. apply unindex_all_positions.
  by rewrite (Hinv n), (projection_removeFile st f n), fmap_app.
Qed.

Lemma positions_updateFile st f syms :
  positions_consistent st -> positions_consistent (updateFile st f syms).
Proof.
  intros Hinv n. rewrite bucket_updateFile, projection_updateFile, !fmap_app.
  by rewrite (positions_removeFile st f Hinv n).
Qed.

Lemma positions_run ops : positions_consistent (run ops).
Proof.
  induction ops as [|o ops IH] using rev_ind.
  - intros n. unfold findSymbolsByName, projection, stored_symbols, bucket_of. simpl.
    by rewrite lookup_empty, map_to_list_empty.
  - rewrite run_snoc. destruct o; [by apply positions_updateFile | by apply positions_removeFile].
Qed.

(** Under stamped updates the records themselves are kept consistent. *)
Lemma files_stamped_removeFile st f : files_stamped st -> files_stamped (removeFile st f).
Proof.
  intros H g syms. rewrite symbols_removeFile, lookup_delete_Some. intros [_ Hg]. eauto.
Qed.

Lemma files_stamped_updateFile st f syms :
  stamped f syms -> files_stamped st -> files_stamped (updateFile st f syms).
Proof.
  intros Hs H g syms'. rewrite symbols_updateFile, lookup_insert_Some.
  intros [[<- <-] | [_ Hg]]; eauto.
Qed.

Lemma removed_file_elsewhere st f n r :
  files_stamped st -> r ∈ projection (removeFile st f) n -> file r <> f.
Proof.
  intros Hst Hr. apply elem_of_named in Hr as [_ Hr].
  apply elem_of_stored_symbols in Hr as (g & syms & Hg & Hr).
  rewrite symbols_removeFile in Hg. apply lookup_delete_Some in Hg as [Hne Hg].
  apply Hst in Hg. unfold stamped in Hg. rewrite Forall_forall in Hg.
  rewrite (Hg r Hr). congruence.
Qed.

Lemma consistent_removeFile st f :
  files_stamped st -> consistent st -> consistent (removeFile st f).
Proof.
  intros Hst Hinv n. rewrite bucket_removeFile.
  eapply unindex_all_records.
  - rewrite (Hinv n). apply projection_removeFile.
  - done.
  - intros r s Hr Hs. apply (removed_file_elsewhere st f n r Hst) in Hr.
    apply elem_of_named in Hs as [_ Hs]. unfold getSymbolsInFile in Hs.
    destruct (symbols st !! f) as [old|] eqn:Hf; [| by apply elem_of_nil in Hs].
    apply Hst in Hf. unfold stamped in Hf. rewrite Forall_forall in Hf.
    unfold position. rewrite (Hf s Hs). congruence.
Qed.

Lemma consistent_updateFile st f syms :
  files_stamped st -> consistent st -> consistent (updateFile st f syms).
Proof.
  intros Hst Hinv n. rewrite bucket_updateFile, projection_updateFile.
  by rewrite (consistent_removeFile st f Hst Hinv n).
Qed.

Lemma consistent_run ops :
  Forall well_stamped ops -> files_stamped (run ops) /\ consistent (run ops).
Proof.
  induction ops as [|o ops IH] using rev_ind; intros Hops.
  - split; [intros f syms; cbn; by rewrite lookup_empty |].
    intros n. unfold findSymbolsByName, projection, stored_symbols, bucket_of. simpl.
    by rewrite lookup_empty, map_to_list_empty.
  - apply Forall_app in Hops as [Hops Ho]. rewrite Forall_singleton in Ho.
    destruct (IH Hops) as [Hst Hinv]. rewrite run_snoc. destruct o as [f syms | f]; simpl in *.
    + split; [by apply files_stamped_updateFile | by apply consistent_updateFile].
    + split; [by apply files_stamped_removeFile | by apply consistent_removeFile].
Qed.

(** Indexing the same list a second time changes nothing. *)
Lemma updateFile_twice st f syms :
  no_empty_bucket (symbolIndex st) -> files_stamped st -> consistent st -> stamped f syms ->
  updateFile (updateFile st f syms) f syms = updateFile st f syms.
Proof.
  intros Hne Hst Hinv Hs.
  assert (removeFile (updateFile st f syms) f = removeFile st f) as Hback.
  { destruct (removeFile (updateFile st f syms) f) as [files1 index1] eqn:E1.
    destruct (removeFile st f) as [files2 index2] eqn:E2.
    f_equal.
    - change files1 with (symbols (State files1 index1)).
      change files2 with (symbols (State files2 index2)).
      rewrite <- E1, <- E2, !symbols_removeFile, symbols_updateFile.
      by rewrite delete_insert_eq.
    - change index1 with (symbolIndex (State files1 index1)).
      change index2 with (symbolIndex (State files2 index2)).
      rewrite <- E1, <- E2. apply index_ext.
      + by apply no_empty_removeFile, no_empty_updateFile.
      + by apply no_empty_removeFile.
      + intros n.
        change (findSymbolsByName (removeFile (updateFile st f syms) f) n
                = findSymbolsByName (removeFile st f) n).
        rewrite bucket_removeFile, bucket_updateFile.
        unfold getSymbolsInFile. rewrite symbols_updateFile, lookup_insert_eq. simpl.
        apply unindex_all_appended. intros b s Hb Hsyms.
        apply not_true_is_false. rewrite same_position_spec. intros Hpos.
        rewrite (consistent_removeFile st f Hst Hinv n) in Hb.
        apply (removed_file_elsewhere st f n b Hst) in Hb.
        apply elem_of_named in Hsyms as [_ Hsyms].
        unfold stamped in Hs. rewrite Forall_forall in Hs.
        injection Hpos as Hfile _. rewrite (Hs s Hsyms) in Hfile. done. }
  unfold updateFile at 1. by rewrite Hback.
Qed.
End NameIndexMethods.

(** ** C4, C7, C8: the Name Index under sequences of operations *)

(** C4 (as amended).  For every sequence of [updateFile] and [removeFile]
    operations from the empty index in which every record passed to
    [updateFile(f, S)] carries [file = f], the bucket of every name is, as a
    multiset, the set of records of that name in the file table; so every
    bucket entry belongs to a stored file's list and every stored record is
    in the bucket of its name. *)
Theorem name_index_is_projection (ops : list SymbolDatabase.op) :
  Forall SymbolDatabase.well_stamped ops ->
  let st := SymbolDatabase.run ops in
  (forall n, SymbolDatabase.findSymbolsByName st n ≡ₚ SymbolDatabase.projection st n)
  /\ (forall n s, s ∈ SymbolDatabase.findSymbolsByName st n ->
        exists f syms, SymbolDatabase.symbols st !! f = Some syms /\ s ∈ syms)
  /\ (forall f syms s, SymbolDatabase.symbols st !! f = Some syms -> s ∈ syms ->
        s ∈ SymbolDatabase.findSymbolsByName st (name s)).
Proof.
  intros Hops st. destruct (consistent_run ops Hops) as [_ Hinv]. fold st in Hinv.
  split; [exact Hinv |]. split.
  - intros n s Hs. rewrite (Hinv n) in Hs. apply elem_of_named in Hs as [_ Hs].
    by apply elem_of_stored_symbols.
  - intros f syms s Hf Hs. rewrite (Hinv (name s)). apply elem_of_named. split; [done |].
    apply elem_of_stored_symbols. eauto.
Qed.

Lemma name_index_is_projection_witness :
  SymbolDatabase.findSymbolsByName (SymbolDatabase.run Examples.two_files) (Some "foo"%string)
  ≡ₚ SymbolDatabase.projection (SymbolDatabase.run Examples.two_files) (Some "foo"%string).
Proof.
  refine (proj1 (name_index_is_projection Examples.two_files _) (Some "foo"%string)).
  repeat constructor.
Defined.

(** C4 as stated fails: a record whose [file] field is not the path it was
    indexed under makes [removeFile] of another file take it out of the
    bucket, and the bucket then holds a record the file table does not. *)
Lemma stale_match_breaks_projection :
  ~ (SymbolDatabase.findSymbolsByName (SymbolDatabase.run Examples.stale_ops) (Some "x"%string)
     ≡ₚ SymbolDatabase.projection (SymbolDatabase.run Examples.stale_ops) (Some "x"%string)).
Proof.
  assert (SymbolDatabase.findSymbolsByName (SymbolDatabase.run Examples.stale_ops)
            (Some "x"%string) = [Examples.homonym]) as -> by (vm_compute; reflexivity).
  assert (SymbolDatabase.projection (SymbolDatabase.run Examples.stale_ops)
            (Some "x"%string) = [Examples.misfiled]) as -> by (vm_compute; reflexivity).
  intros H. apply Permutation_singleton_l in H. discriminate H.
Qed.

(** C8 (as amended).  [updateFile] skips nothing: after it, the bucket of
    every name value, the missing name included, is the bucket left by the
    removal of the file followed by the records of the batch with that name
    value, in input order; in particular every record of the batch is in
    the bucket of its name value. *)
Theorem updateFile_indexes_every_record
    (st : SymbolDatabase.state) (f : string) (syms : list Symbol) :
  (forall n, SymbolDatabase.findSymbolsByName (SymbolDatabase.updateFile st f syms) n
             = SymbolDatabase.findSymbolsByName (SymbolDatabase.removeFile st f) n
               ++ SymbolDatabase.named n syms)
  /\ (forall s, s ∈ syms ->
        s ∈ SymbolDatabase.findSymbolsByName (SymbolDatabase.updateFile st f syms) (name s)).
Proof.
  split; [intros n; apply bucket_updateFile |].
  intros s Hs. rewrite bucket_updateFile. apply elem_of_app. right.
  by apply elem_of_named.
Qed.

(** C8 as stated fails: a record without a name is inserted, under the
    missing name as key. *)
Lemma nameless_record_is_indexed :
  name Examples.nameless = None
  /\ SymbolDatabase.symbolIndex
       (SymbolDatabase.updateFile SymbolDatabase.empty "a.cpp" [Examples.nameless]) !! None
     = Some [Examples.nameless].
Proof. split; [reflexivity | vm_compute; reflexivity]. Qed.

Lemma findScopeAtPosition_removeFile (sm : ScopeManager.state) (f : string) (l : Z) :
  ScopeManager.findScopeAtPosition (ScopeManager.removeFile sm f) f l = None.
Proof.
  unfold ScopeManager.findScopeAtPosition, ScopeManager.removeFile.
  destruct (ScopeManager.fileScopes sm !! f) eqn:Hf; simpl.
  - by rewrite lookup_delete_eq.
  - by rewrite Hf.
Qed.

(** C7.  In every state of the index reached by a sequence of operations,
    and every state of the scope manager, after [removeFile(f)]:
    [findSymbolsByName] is empty for every name that no other file has a
    record of, [findScopeAtPosition(f, line)] has no result for any line,
    and no bucket of the name index is empty. *)
Theorem removeFile_is_total
    (ops : list SymbolDatabase.op) (sm : ScopeManager.state) (f : string) :
  let db := SymbolDatabase.run ops in
  let db' := SymbolDatabase.removeFile db f in
  let sm' := ScopeManager.removeFile sm f in
  (forall n,
      (forall g syms s, SymbolDatabase.symbols db !! g = Some syms -> s ∈ syms ->
                        name s = n -> g = f) ->
      SymbolDatabase.findSymbolsByName db' n = [])
  /\ (forall l, ScopeManager.findScopeAtPosition sm' f l = None)
  /\ (forall n bucket, SymbolDatabase.symbolIndex db' !! n = Some bucket -> bucket <> []).
Proof.
  intros db db' sm'. split; [| split].
  - intros n Honly.
    pose proof (positions_removeFile db f (positions_run ops) n) as Hpos. fold db' in Hpos.
    assert (SymbolDatabase.projection db' n = []) as Hnil.
    { apply elem_of_nil_inv. intros s Hs. apply elem_of_named in Hs as [Hn Hs].
      apply elem_of_stored_symbols in Hs as (g & syms & Hg & Hs).
      unfold db' in Hg. rewrite symbols_removeFile in Hg.
      apply lookup_delete_Some in Hg as [Hne Hg]. apply Hne. symmetry. eauto. }
    rewrite Hnil in Hpos. by apply Permutation_nil_r, fmap_nil_inv in Hpos.
  - intros l. apply findScopeAtPosition_removeFile.
  - apply no_empty_removeFile, no_empty_run.
Qed.

Lemma removeFile_is_total_witness :
  SymbolDatabase.findSymbolsByName
    (SymbolDatabase.removeFile
       (SymbolDatabase.run [SymbolDatabase.UpdateFile "a.cpp" [Examples.foo_a]]) "a.cpp")
    (Some "foo"%string) = [].
Proof.
  refine (proj1 (removeFile_is_total [SymbolDatabase.UpdateFile "a.cpp" [Examples.foo_a]]
                   ScopeManager.empty "a.cpp") (Some "foo"%string) _).
  intros g syms s Hg _ _.
  destruct (decide (g = "a.cpp"%string)) as [-> | Hne]; [reflexivity |].
  unfold SymbolDatabase.run in Hg. cbn [foldl SymbolDatabase.apply] in Hg.
  rewrite symbols_updateFile, lookup_insert_ne in Hg by done.
  cbn in Hg. by rewrite lookup_empty in Hg.
Defined.

(** ** C6: indexing the same list twice *)

Section Registry.
Import ScopeManager.
Implicit Types (g : gmap (option string) ScopeRef) (t : ScopeTree)
               (bindings : list (option string * ScopeRef)).

Lemma updateGlobalScopes_from_registrations fuel objs scopes g :
  updateGlobalScopes_from fuel objs scopes g
  = foldl register g (registrations fuel objs scopes).
Proof.
  revert scopes g. induction fuel as [|fuel IH]; intros scopes g; [done |].
  cbn [updateGlobalScopes_from registrations].
  revert g. induction scopes as [|i scopes IHs]; intros g; [done |].
  cbn [foldl mbind list_bind]. rewrite foldl_app, <- IHs.
  destruct (objs !! i) as [scope|]; [| done].
  cbn [foldl]. by rewrite IH.
Qed.

Lemma foldl_register_union bindings g :
  foldl register g bindings = list_to_map (reverse bindings) ∪ g.
Proof.
  induction bindings as [|[k v] bindings IH] using rev_ind.
  - symmetry. apply (left_id_L ∅ (∪)).
  - rewrite foldl_app, reverse_app. cbn. rewrite IH. unfold register. cbn.
    by rewrite insert_union_l.
Qed.

Lemma foldl_register_twice bindings g :
  foldl register (foldl register g bindings) bindings = foldl register g bindings.
Proof.
  rewrite !foldl_register_union.
  by rewrite (assoc_L (∪)), (idemp_L (∪)).
Qed.

Lemma updateGlobalScopes_twice t g :
  updateGlobalScopes t (updateGlobalScopes t g) = updateGlobalScopes t g.
Proof.
  unfold updateGlobalScopes. rewrite !updateGlobalScopes_from_registrations.
  apply foldl_register_twice.
Qed.

Lemma updateFile_twice_scopes sm f t :
  updateFile (updateFile sm f t) f t = updateFile sm f t.
Proof.
  unfold updateFile. simpl. by rewrite insert_insert_eq, updateGlobalScopes_twice.
Qed.

End Registry.

(** The tree [buildScopeTree] returns depends on the symbols only, and the
    method stores it the way [updateFile] does. *)
Lemma analyzeFile_unfold (st : Extension.state) (f : string) (syms : list Symbol) :
  Extension.analyzeFile st f (Some syms)
  = let tree := (ScopeManager.buildScopeTree ScopeManager.empty syms f).2 in
    Extension.State
      (SymbolDatabase.updateFile (Extension.symbolDb st) f syms)
      (ScopeManager.updateFile
         (ScopeManager.updateFile (Extension.scopeManager st) f tree) f tree).
Proof. reflexivity. Qed.

Lemma analysis_repeated_from
    (db : SymbolDatabase.state) (sm : ScopeManager.state) (f : string) (syms : list Symbol) :
  SymbolDatabase.no_empty_bucket (SymbolDatabase.symbolIndex db) ->
  SymbolDatabase.files_stamped db -> SymbolDatabase.consistent db ->
  SymbolDatabase.stamped f syms ->
  let st := Extension.State db sm in
  Extension.analyzeFile (Extension.analyzeFile st f (Some syms)) f (Some syms)
  = Extension.analyzeFile st f (Some syms).
Proof.
  intros Hne Hst Hinv Hs st.
  rewrite (analyzeFile_unfold (Extension.analyzeFile st f (Some syms))).
  rewrite (analyzeFile_unfold st). cbv zeta.
  generalize ((ScopeManager.buildScopeTree ScopeManager.empty syms f).2). intros tree.
  cbn [Extension.symbolDb Extension.scopeManager st].
  rewrite updateFile_twice by done. by rewrite !updateFile_twice_scopes.
Qed.

(** C6 (as amended).  In every state whose name index was reached by
    updates whose records carry the path of the file they were indexed
    under, and for every file [f] and symbol list [S] whose records carry
    [file = f], analysing [f] with [S] twice in a row ([updateFile(f, S)]
    and the rebuild of the scope tree) leaves the same Name Index and the
    same Scope Registry as analysing it once. *)
Theorem analyzeFile_twice
    (ops : list SymbolDatabase.op) (sm : ScopeManager.state) (f : string) (syms : list Symbol) :
  Forall SymbolDatabase.well_stamped ops ->
  SymbolDatabase.stamped f syms ->
  let st := Extension.State (SymbolDatabase.run ops) sm in
  Extension.analyzeFile (Extension.analyzeFile st f (Some syms)) f (Some syms)
  = Extension.analyzeFile st f (Some syms).
Proof.
  intros Hops Hs. destruct (consistent_run ops Hops) as [Hst Hinv].
  apply analysis_repeated_from; [apply no_empty_run | done ..].
Qed.

Lemma analyzeFile_twice_witness :
  let st := Extension.State (SymbolDatabase.run Examples.two_files) ScopeManager.empty in
  Extension.analyzeFile (Extension.analyzeFile st "b.cpp" (Some [Examples.foo_b]))
    "b.cpp" (Some [Examples.foo_b])
  = Extension.analyzeFile st "b.cpp" (Some [Examples.foo_b]).
Proof.
  apply (analyzeFile_twice Examples.two_files ScopeManager.empty "b.cpp" [Examples.foo_b]);
    repeat constructor.
Defined.

(** C6 as stated fails: when the bucket holds a record of another file
    that carries the position of a record of [S], the second [updateFile]
    removes that record instead, and [S]'s record is indexed twice. *)
Lemma second_update_differs :
  let st := Extension.State (SymbolDatabase.run [SymbolDatabase.UpdateFile "a.cpp" [Examples.misfiled]])
              ScopeManager.empty in
  Extension.analyzeFile (Extension.analyzeFile st "b.cpp" (Some [Examples.homonym]))
    "b.cpp" (Some [Examples.homonym])
  <> Extension.analyzeFile st "b.cpp" (Some [Examples.homonym]).
Proof.
  intros st H.
  apply (f_equal (fun st => SymbolDatabase.findSymbolsByName (Extension.symbolDb st)
                              (Some "x"%string))) in H.
  vm_compute in H. discriminate H.
Qed.


(** ** C3, C5: the scope tree on concrete files *)

Section BuilderSteps.
Import ScopeManager.
Implicit Types (b : builder) (s : Symbol).

Lemma pop_closed_all objs stack (l : Z) :
  Forall (fun i => endLine_at objs i < l) stack -> pop_closed objs stack l = [].
Proof.
  induction 1 as [|i stack Hi _ IH]; [done |]. simpl.
  by replace (endLine_at objs i <? l) with true by (symmetry; apply Z.ltb_lt; lia).
Qed.

(** A scope-bearing symbol met when every open scope has its end line
    before the line of the symbol opens a top-level scope. *)
Lemma visit_opens_root b s :
  isScopeSymbol s = true ->
  Forall (fun i => endLine_at (store b) i < line s) (scopeStack b) ->
  visit b s = mkBuilder (store b ++ [Examples.flat_scope s])
                        (scopes b ++ [length (store b)]) [length (store b)].
Proof.
  intros Hs Hclosed. unfold visit. rewrite Hs, pop_closed_all by done.
  cbn [scopeStack store scopes]. f_equal.
  by rewrite <- (Nat.add_0_r (length (store b))), alter_app_r.
Qed.

(** Any other symbol goes to the scope on top of the stack. *)
Lemma visit_member b s top rest :
  isScopeSymbol s = false -> scopeStack b = top :: rest ->
  visit b s = mkBuilder (alter (push_symbol s) top (store b)) (scopes b) (scopeStack b).
Proof. intros Hs Hstack. unfold visit. by rewrite Hs, Hstack. Qed.
End BuilderSteps.

(** Decide the comparisons of line numbers left in the goal from the
    hypotheses on the lines. *)
Ltac settle_lines :=
  repeat match goal with
         | |- context [?a <=? ?b] =>
             first [ replace (a <=? b) with true by (symmetry; apply Z.leb_le; lia)
                   | replace (a <=? b) with false by (symmetry; apply Z.leb_gt; lia) ]
         | |- context [?a <? ?b] =>
             first [ replace (a <? b) with true by (symmetry; apply Z.ltb_lt; lia)
                   | replace (a <? b) with false by (symmetry; apply Z.ltb_ge; lia) ]
         end.

Lemma sort_calculator (l0 l1 l2 : Z) :
  l0 < l1 -> l1 < l2 ->
  JsArray.sort ScopeManager.by_line (Examples.calculator l0 l1 l2) = Examples.calculator l0 l1 l2.
Proof.
  intros H01 H12. unfold JsArray.sort, Examples.calculator, ScopeManager.by_line.
  cbn. settle_lines. cbn. settle_lines. reflexivity.
Qed.

Lemma tree_calculator (l0 l1 l2 : Z) (sm : ScopeManager.state) :
  l0 < l1 -> l1 < l2 ->
  (ScopeManager.buildScopeTree sm (Examples.calculator l0 l1 l2) "calc.cpp").2
  = ScopeManager.mkTree (Examples.flat_scope <$> Examples.calculator l0 l1 l2) [0; 1; 2]%nat.
Proof.
  intros H01 H12. unfold ScopeManager.buildScopeTree. rewrite sort_calculator by done.
  unfold ScopeManager.buildScopeTree_sorted. cbn [snd].
  unfold Examples.calculator. cbn [foldl].
  rewrite (visit_opens_root _ (Examples.mk 10 _ _ _ _ _ _)) by (done || constructor).
  rewrite (visit_opens_root _ (Examples.mk 11 _ _ _ _ _ _))
    by (done || (repeat constructor; cbn; lia)).
  rewrite (visit_opens_root _ (Examples.mk 12 _ _ _ _ _ _))
    by (done || (repeat constructor; cbn; lia)).
  cbn. unfold ScopeManager.backfill. cbn. rewrite !andb_false_r. cbn. reflexivity.
Qed.

Lemma fileScopes_analyzeFile (st : Extension.state) (f : string) (syms : list Symbol) :
  ScopeManager.fileScopes (Extension.scopeManager (Extension.analyzeFile st f (Some syms))) !! f
  = Some (ScopeManager.buildScopeTree (Extension.scopeManager st) syms f).2.
Proof. unfold Extension.analyzeFile. cbn. by rewrite lookup_insert_eq. Qed.

(** C3, on the code.  After indexing the file of the scenario alone, with
    [math], [Calculator] and [add] on strictly increasing lines, the three
    scopes are all top-level scopes: [findScopeAtPosition(file, line_of_add)]
    returns the scope [add], whose path is ["add"], where the scenario
    expects the scope [Calculator] with path ["math::Calculator"]. *)
Theorem calculator_scopes_are_not_nested (l0 l1 l2 : Z) :
  l0 < l1 -> l1 < l2 ->
  let st := Extension.analyzeFile Extension.empty "calc.cpp"
              (Some (Examples.calculator l0 l1 l2)) in
  ScopeManager.roots <$> ScopeManager.getFileScopes (Extension.scopeManager st) "calc.cpp"
  = Some [0; 1; 2]%nat
  /\ exists r,
       ScopeManager.findScopeAtPosition (Extension.scopeManager st) "calc.cpp" l2 = Some r
       /\ ScopeManager.name_of r = Some "add"%string
       /\ ScopeManager.getScopePath r = "add"%string.
Proof.
  intros H01 H12 st.
  unfold ScopeManager.getFileScopes, ScopeManager.findScopeAtPosition.
  unfold st. rewrite fileScopes_analyzeFile, tree_calculator by done.
  split; [reflexivity |].
  cbn. settle_lines. cbn.
  eexists. split; [reflexivity |]. split; reflexivity.
Qed.

Lemma calculator_scopes_are_not_nested_witness :
  exists r,
    ScopeManager.findScopeAtPosition
      (Extension.scopeManager
         (Extension.analyzeFile Extension.empty "calc.cpp" (Some (Examples.calculator 5 6 20))))
      "calc.cpp" 20 = Some r
    /\ ScopeManager.name_of r = Some "add"%string
    /\ ScopeManager.getScopePath r = "add"%string.
Proof. apply (calculator_scopes_are_not_nested 5 6 20); lia. Defined.

(** The same scenario when [add] is reported as a member declaration: the
    scope at the line of [add] is [Calculator], but it is a top-level scope
    and its path is ["Calculator"]. *)
Lemma calculator_member_path (l0 l1 l2 : Z) :
  l0 < l1 -> l1 < l2 ->
  let st := Extension.analyzeFile Extension.empty "calc.cpp"
              (Some (Examples.calculator_member l0 l1 l2)) in
  exists r,
    ScopeManager.findScopeAtPosition (Extension.scopeManager st) "calc.cpp" l2 = Some r
    /\ ScopeManager.name_of r = Some "Calculator"%string
    /\ ScopeManager.getScopePath r = "Calculator"%string.
Proof.
  intros H01 H12 st.
  unfold ScopeManager.findScopeAtPosition.
  unfold st. rewrite fileScopes_analyzeFile.
  unfold ScopeManager.buildScopeTree, JsArray.sort, Examples.calculator_member,
    ScopeManager.by_line.
  cbn. settle_lines. cbn. settle_lines.
  unfold ScopeManager.buildScopeTree_sorted. cbn [snd foldl].
  rewrite (visit_opens_root (ScopeManager.mkBuilder _ _ _)) by (done || constructor).
  rewrite (visit_opens_root (ScopeManager.mkBuilder _ _ _))
    by (done || (repeat constructor; cbn; lia)).
  rewrite (visit_member (ScopeManager.mkBuilder _ _ _) _ 1%nat []) by done.
  cbn. unfold ScopeManager.backfill. cbn. rewrite !andb_false_r. settle_lines. cbn.
  settle_lines. cbn.
  eexists. split; [reflexivity |]. split; reflexivity.
Qed.

(** C5, on the code.  A file that declares the class [Foo] is analysed, and
    analysed again after [Foo] was deleted from it.  The name index no
    longer has [Foo] and the file has no scope left, but the Scope Registry
    still returns the scope of the first analysis under [Foo]:
    [buildScopeTree] does not take the old scopes of the file out of the
    registry, as [removeFile] does. *)
Theorem registry_keeps_deleted_scope :
  let st := Extension.run Examples.foo_deleted in
  SymbolDatabase.findSymbolsByName (Extension.symbolDb st) (Some "Foo"%string) = []
  /\ ScopeManager.getFileScopes (Extension.scopeManager st) "a.cpp"
     = Some (ScopeManager.mkTree [] [])
  /\ ScopeManager.findScopeByName (Extension.scopeManager st) (Some "Foo"%string)
     = Some (ScopeManager.mkRef [Examples.flat_scope Examples.class_foo] 0).
Proof. vm_compute. repeat split; reflexivity. Qed.

(** In general a rebuild only adds to the registry: a name bound before
    [buildScopeTree] is still bound after it, whatever the new symbols. *)
Lemma registry_only_grows
    (sm : ScopeManager.state) (syms : list Symbol) (f : string) (n : option string) :
  is_Some (ScopeManager.findScopeByName sm n) ->
  is_Some (ScopeManager.findScopeByName (ScopeManager.buildScopeTree sm syms f).1 n).
Proof.
  intros Hn. unfold ScopeManager.findScopeByName, ScopeManager.buildScopeTree,
    ScopeManager.buildScopeTree_sorted, ScopeManager.updateGlobalScopes.
  cbn [fst ScopeManager.globalScopes].
  rewrite updateGlobalScopes_from_registrations, foldl_register_union.
  apply lookup_union_is_Some. by right.
Qed.

(** The sibling path: deleting the file does clear the registry. *)
Lemma registry_cleared_by_delete :
  let st := Extension.run [Extension.Analyzed "a.cpp" (Some [Examples.class_foo]);
                           Extension.Deleted "a.cpp"] in
  ScopeManager.findScopeByName (Extension.scopeManager st) (Some "Foo"%string) = None.
Proof. vm_compute. reflexivity. Qed.

(** ** C10: the input array of [buildScopeTree] *)

Lemma fresh_address_is_new (mem : gmap nat (list Symbol)) (a : nat) :
  is_Some (mem !! a) -> fresh (dom mem) <> a.
Proof.
  intros Ha Heq. apply elem_of_dom in Ha. rewrite <- Heq in Ha.
  by apply is_fresh in Ha.
Qed.

Lemma buildScopeTree_mem_result
    (mem : gmap nat (list Symbol)) (sm : ScopeManager.state) (symbolsAddr : nat) (f : string) :
  (ScopeManager.buildScopeTree_mem mem sm symbolsAddr f).2
  = ScopeManager.buildScopeTree sm (default [] (mem !! symbolsAddr)) f.
Proof.
  unfold ScopeManager.buildScopeTree_mem, ScopeManager.spread, ScopeManager.sort_in_place,
    ScopeManager.buildScopeTree.
  cbn. by rewrite lookup_alter_eq, lookup_insert_eq.
Qed.

(** C10.  [buildScopeTree] does not change the array it is given: whatever
    the arrays of the caller are, after the call the array at the address
    passed as [symbols] (and every other array of the caller) holds the same
    elements in the same order; the sort works on a copy. *)
Theorem buildScopeTree_keeps_input
    (mem : gmap nat (list Symbol)) (sm : ScopeManager.state) (symbolsAddr : nat) (f : string) :
  is_Some (mem !! symbolsAddr) ->
  let mem' := (ScopeManager.buildScopeTree_mem mem sm symbolsAddr f).1 in
  mem' !! symbolsAddr = mem !! symbolsAddr
  /\ (forall a, is_Some (mem !! a) -> mem' !! a = mem !! a).
Proof.
  intros Hsyms mem'.
  assert (forall a, is_Some (mem !! a) -> mem' !! a = mem !! a) as Hall.
  { intros a Ha. unfold mem', ScopeManager.buildScopeTree_mem, ScopeManager.spread,
      ScopeManager.sort_in_place. cbn.
    pose proof (fresh_address_is_new mem a Ha).
    by rewrite lookup_alter_ne, lookup_insert_ne. }
  split; [by apply Hall | exact Hall].
Qed.

Lemma buildScopeTree_keeps_input_witness :
  (ScopeManager.buildScopeTree_mem {[ 0%nat := Examples.calculator 7 3 5 ]}
     ScopeManager.empty 0 "calc.cpp").1 !! 0%nat
  = Some (Examples.calculator 7 3 5).
Proof.
  refine (proj1 (buildScopeTree_keeps_input {[ 0%nat := Examples.calculator 7 3 5 ]}
                   ScopeManager.empty 0 "calc.cpp" _)).
  vm_compute. eauto.
Defined.

(** ** [Array.prototype.sort] with a comparator that subtracts keys *)

Section SortByKey.
Context {A : Type} (key : A -> Z) (cmp : A -> A -> Z).
Hypothesis cmp_key : forall a b, cmp a b = key a - key b.
Implicit Types (x y : A) (l : list A).

Lemma insert_sorted_perm x l : JsArray.insert_sorted cmp x l ≡ₚ x :: l.
Proof.
  induction l as [|y l IH]; [done |]. simpl.
  destruct (cmp x y <=? 0); [done |]. rewrite IH. apply Permutation_swap.
Qed.

Lemma sort_perm l : JsArray.sort cmp l ≡ₚ l.
Proof.
  unfold JsArray.sort. induction l as [|x l IH]; [done |].
  simpl. by rewrite insert_sorted_perm, IH.
Qed.

Lemma insert_sorted_ordered x l :
  StronglySorted (fun a b => key a <= key b) l ->
  StronglySorted (fun a b => key a <= key b) (JsArray.insert_sorted cmp x l).
Proof.
  induction 1 as [|y l Hl IH Hy]; simpl.
  - repeat constructor.
  - destruct (Z.leb_spec (cmp x y) 0) as [Hle | Hgt]; rewrite cmp_key in *.
    + constructor; [by constructor |].
      constructor; [lia |]. eapply Forall_impl; [exact Hy |]. simpl. intros z Hz. lia.
    + constructor; [done |]. rewrite insert_sorted_perm. constructor; [lia | done].
Qed.

Lemma sort_ordered l : StronglySorted (fun a b => key a <= key b) (JsArray.sort cmp l).
Proof.
  unfold JsArray.sort. induction l as [|x l IH]; simpl; [constructor |].
  by apply insert_sorted_ordered.
Qed.

(** Stability: the elements of each key keep their relative order. *)
Lemma insert_sorted_stable (v : Z) x l :
  filter (fun a => key a = v) (JsArray.insert_sorted cmp x l)
  = filter (fun a => key a = v) (x :: l).
Proof.
  induction l as [|y l IH]; [done |]. simpl.
  destruct (Z.leb_spec (cmp x y) 0) as [Hle | Hgt]; [done |].
  rewrite cmp_key in Hgt. rewrite !filter_cons, IH, filter_cons.
  repeat case_decide; try done; lia.
Qed.

Lemma sort_stable (v : Z) l :
  filter (fun a => key a = v) (JsArray.sort cmp l) = filter (fun a => key a = v) l.
Proof.
  unfold JsArray.sort. induction l as [|x l IH]; [done |].
  simpl. by rewrite insert_sorted_stable, !filter_cons, IH.
Qed.
End SortByKey.

Lemma sort_fmap {A B : Type} (f : A -> B) (cmp : B -> B -> Z) (l : list A) :
  JsArray.sort cmp (f <$> l) = f <$> JsArray.sort (fun a b => cmp (f a) (f b)) l.
Proof.
  unfold JsArray.sort. induction l as [|x l IH]; [done |].
  cbn [fmap list_fmap foldr]. rewrite IH. generalize (foldr (JsArray.insert_sorted (fun a b => cmp (f a) (f b))) [] l).
  intros l'. induction l' as [|y l' IH']; [done |].
  cbn. destruct (cmp (f x) (f y) <=? 0); [done |]. cbn. by rewrite <- IH'.
Qed.

(** ** C2, C9: the resolver *)

Section Unique.
Implicit Types (seen : list nat) (l : list Symbol).

Lemma unique_from_sublist seen l : sublist (Extension.unique_from seen l) l.
Proof.
  revert seen. induction l as [|x l IH]; intros seen; simpl; [constructor |].
  case_bool_decide; [apply sublist_cons | apply sublist_skip]; apply IH.
Qed.

Lemma unique_from_fresh seen l x :
  x ∈ Extension.unique_from seen l -> oid x ∉ seen.
Proof.
  revert seen. induction l as [|y l IH]; intros seen; simpl; [by intros ?%elem_of_nil |].
  case_bool_decide as Hy; [apply IH |].
  intros [-> | Hx]%elem_of_cons; [done |].
  apply IH in Hx. intros Hin. apply Hx. by right.
Qed.

Lemma unique_from_NoDup seen l : NoDup (oid <$> Extension.unique_from seen l).
Proof.
  revert seen. induction l as [|y l IH]; intros seen; simpl; [constructor |].
  case_bool_decide as Hy; [apply IH |].
  cbn. constructor; [| apply IH].
  intros (x & Hoid & Hx)%list_elem_of_fmap. apply unique_from_fresh in Hx.
  apply Hx. rewrite <- Hoid. left.
Qed.

Lemma unique_from_covers seen l x :
  x ∈ l -> oid x ∈ seen \/ oid x ∈ oid <$> Extension.unique_from seen l.
Proof.
  revert seen. induction l as [|y l IH]; intros seen; [by intros ?%elem_of_nil |].
  simpl. case_bool_decide as Hy.
  - intros [-> | Hx]%elem_of_cons; [by left | by apply IH].
  - intros [-> | Hx]%elem_of_cons; [right; cbn; left |].
    destruct (IH (oid y :: seen) Hx) as [[-> | Hs]%elem_of_cons | Hu].
    + right. cbn. left.
    + by left.
    + right. cbn. by right.
Qed.
End Unique.

Lemma StronglySorted_weaken {A : Type} (R R' : A -> A -> Prop) (l : list A) :
  (forall a b, R a b -> R' a b) -> StronglySorted R l -> StronglySorted R' l.
Proof.
  intros Himpl. induction 1 as [|x l Hl IH Hx]; constructor; [done |].
  eapply Forall_impl; [exact Hx | auto].
Qed.

Section Ranking.
Variables (st : Extension.state) (fileName word : string) (positionLine : Z).

Let score := Extension.score_of st fileName word positionLine.
Let defs := Extension.candidates st word.

(** The candidates by descending score, ties in the order of [defs]. *)
Lemma top_is_sorted_prefix :
  Extension.top st fileName word positionLine
  = take 5 (JsArray.sort (fun a b => score b - score a) defs).
Proof.
  unfold Extension.top, Extension.ranked, JsArray.first_n.
  rewrite (sort_fmap (fun def => (def, score def)) (fun a b => b.2 - a.2)).
  rewrite <- fmap_take, <- list_fmap_compose. apply list_fmap_id.
Qed.

Lemma ranking_spec :
  exists sorted,
    sorted ≡ₚ defs
    /\ StronglySorted (fun a b => score b <= score a) sorted
    /\ (forall v, filter (fun d => score d = v) sorted = filter (fun d => score d = v) defs)
    /\ Extension.top st fileName word positionLine = take 5 sorted.
Proof.
  exists (JsArray.sort (fun a b => score b - score a) defs).
  assert (forall a b, score b - score a = (fun d => - score d) a - (fun d => - score d) b)
    as Hkey by (intros; simpl; lia).
  split; [apply sort_perm |].
  split.
  { eapply StronglySorted_weaken; [| apply (sort_ordered (fun d => - score d) _ Hkey)].
    simpl. intros a b. lia. }
  split; [| apply top_is_sorted_prefix].
  intros v.
  pose proof (sort_stable (fun d => - score d) _ Hkey (- v) defs) as Hst.
  assert (forall l : list Symbol,
             filter (fun d => score d = v) l = filter (fun d => - score d = - v) l) as Hf.
  { intros l. apply list_filter_iff. intros d. lia. }
  by rewrite !Hf.
Qed.
End Ranking.

Lemma candidates_unique_found (st : Extension.state) (word : string) :
  Extension.candidates st word = Extension.unique (Extension.found st word).
Proof. done. Qed.

Lemma provideDefinition_result
    (st0 : Extension.state) (fileName : string) (parsed : option (list Symbol))
    (word : string) (positionLine : Z) :
  let st := Extension.analyzeFile st0 fileName parsed in
  (Extension.provideDefinition st0 fileName parsed (Some word) positionLine).2
  = match Extension.candidates st word with
    | [] => Extension.Undefined
    | _ :: _ =>
        match Extension.location_of <$> Extension.top st fileName word positionLine with
        | [l] => Extension.OneLocation l
        | ls => Extension.Locations ls
        end
    end.
Proof.
  intros st. unfold Extension.provideDefinition. fold st.
  destruct (Extension.candidates st word) as [|d defs']; [reflexivity |].
  replace (Z.of_nat (length (d :: defs')) =? 0) with false
    by (symmetry; apply Z.eqb_neq; cbn [length]; lia).
  by destruct (Extension.location_of <$> Extension.top st fileName word positionLine)
    as [|? [|? ?]].
Qed.

Lemma findDefinitions_definitions_under (db : SymbolDatabase.state) (n : string) :
  SymbolDatabase.findDefinitions db (Some n) = ResolverSpec.definitions_under db n.
Proof.
  unfold SymbolDatabase.findDefinitions, ResolverSpec.definitions_under.
  induction (SymbolDatabase.findSymbolsByName db (Some n)) as [|s l IH]; [done |].
  cbn [List.filter]. rewrite filter_cons, IH.
  destruct (isDefinition s); [by rewrite decide_True | by rewrite decide_False].
Qed.

(** The list the code removes the repetitions from is the candidate pool
    of the specification, for the tail of the specification. *)
Lemma found_is_candidate_pool (st : Extension.state) (word : string) :
  exists targetName,
    Identifier.tail_is word targetName
    /\ ResolverSpec.candidate_pool (Extension.symbolDb st) word targetName
         (Extension.found st word).
Proof.
  exists (Extension.getUnqualifiedName word). split; [by apply tail_is_code |].
  unfold Extension.found. rewrite !findDefinitions_definitions_under.
  destruct (JsString.includes word "::") eqn:Hinc; split; intros Hq; try done.
  - destruct Hq. by apply occurs_includes.
  - apply not_occurs_includes in Hinc. done.
  - by rewrite app_nil_r.
Qed.



Lemma delta_bounds (b : bool) (k : Z) : 0 <= k -> 0 <= Resolver.delta b k <= k.
Proof. intros Hk. destruct b; simpl; lia. Qed.

(** A candidate in one of the candidate scopes outscores a candidate of the
    same name in an unrelated scope of another file. *)
Lemma exact_scope_outscores
    (a b : Symbol) (currentFile : string) (paths : list string) (word targetName : string) :
  name a = name b ->
  scope a ∈ paths ->
  scope b ∉ paths ->
  ~ Exists (fun c => c <> ""%string /\ JsString.endsWith (scope b) c = true) paths ->
  file b <> currentFile ->
  Resolver.scoreDefinition b currentFile paths word targetName
  < Resolver.scoreDefinition a currentFile paths word targetName.
Proof.
  intros Hname Ha Hb Hsuffix Hfile.
  rewrite !scoreDefinition_table. unfold Resolver.score_table, Resolver.name_satisfies.
  rewrite Hname.
  rewrite (bool_decide_eq_true_2 (scope a ∈ paths)) by done.
  rewrite (bool_decide_eq_false_2 (scope b ∈ paths)) by done.
  rewrite (bool_decide_eq_false_2 (Exists _ paths)) by done.
  rewrite (bool_decide_eq_false_2 (file b = currentFile)) by done.
  change (Resolver.delta true 20) with 20. change (Resolver.delta false 20) with 0.
  change (Resolver.delta false 12) with 0. change (Resolver.delta false 5) with 0.
  destruct (JsString.includes word "::"); cbv iota;
    repeat match goal with
           | |- context [Resolver.delta ?c ?k] =>
               let H := fresh in
               pose proof (delta_bounds c k ltac:(lia)) as H;
               generalize dependent (Resolver.delta c k); intros
           end; lia.
Qed.

Lemma StronglySorted_lookup_lt {A : Type} (R : A -> A -> Prop) (l : list A) (i j : nat) (x y : A) :
  StronglySorted R l -> l !! i = Some x -> l !! j = Some y -> (i < j)%nat -> R x y.
Proof.
  intros Hs Hi Hj Hlt. rewrite <- (take_drop j l) in Hs.
  eapply StronglySorted_app_1_elem_of; [exact Hs | |].
  - apply list_elem_of_lookup. exists i. by rewrite lookup_take_lt.
  - apply list_elem_of_lookup. exists 0%nat. by rewrite lookup_drop, Nat.add_0_r.
Qed.

(** C9.  For every state, identifier text, current file and line, and every
    two candidates of the same name, one whose scope is an entry of the
    candidate scope paths and one whose scope matches no entry (neither
    equal to one, nor ending with a non-empty one) and whose file is not
    the current file: wherever the second one occurs in the returned
    ordering, the first one occurs before it. *)
Theorem exact_scope_ranks_first
    (st : Extension.state) (fileName word : string) (positionLine : Z) (a b : Symbol) :
  let paths := Extension.candidateScopes st fileName positionLine in
  let returned := Extension.top st fileName word positionLine in
  a ∈ Extension.candidates st word ->
  b ∈ Extension.candidates st word ->
  name a = name b ->
  scope a ∈ paths ->
  scope b ∉ paths ->
  ~ Exists (fun c => c <> ""%string /\ JsString.endsWith (scope b) c = true) paths ->
  file b <> fileName ->
  forall j, returned !! j = Some b ->
            exists i, (i <= j)%nat /\ returned !! i = Some a.
Proof.
  intros paths returned Ha Hb Hname Hexact Hnot Hsuffix Hfile j Hj.
  pose proof (exact_scope_outscores a b fileName paths word
                (Extension.getUnqualifiedName word) Hname Hexact Hnot Hsuffix Hfile) as Hgap.
  destruct (ranking_spec st fileName word positionLine)
    as (sorted & Hperm & Hsorted & _ & Htop).
  unfold returned in *. rewrite Htop in *.
  apply lookup_take_Some in Hj as [Hj Hj5].
  rewrite <- Hperm in Ha. apply list_elem_of_lookup in Ha as [i Hi].
  destruct (lt_eq_lt_dec i j) as [[Hlt | Heq] | Hgt].
  - exists i. split; [lia |]. rewrite lookup_take_lt by lia. done.
  - subst i. rewrite Hi in Hj. injection Hj as ->. lia.
  - pose proof (StronglySorted_lookup_lt _ _ _ _ _ _ Hsorted Hj Hi Hgt) as Hle.
    unfold Extension.score_of in Hle. fold paths in Hle. simpl in Hle. lia.
Qed.

Lemma exact_scope_ranks_first_witness :
  exists i, (i <= 1)%nat
            /\ Extension.top (Extension.run Examples.two_foos) "a.cpp" "foo" 7 !! i
               = Some Examples.foo_a.
Proof.
  apply (exact_scope_ranks_first (Extension.run Examples.two_foos) "a.cpp" "foo" 7
           Examples.foo_a Examples.foo_other).
  - vm_compute. left.
  - vm_compute. right. left.
  - reflexivity.
  - vm_compute. left.
  - apply (bool_decide_unpack _). vm_compute. exact I.
  - apply (bool_decide_unpack _). vm_compute. exact I.
  - discriminate.
  - vm_compute. reflexivity.
Defined.

(** * Further properties of the code *)

(** ** The Name Index: lookups by file and position *)

Section PositionLookup.
Import SymbolDatabase SymbolQueries.
Implicit Types (st : state) (f g : string) (syms : list Symbol).

Lemma find_first_split (p : Symbol -> bool) syms (s : Symbol) :
  List.find p syms = Some s <->
  exists before after,
    syms = before ++ s :: after /\ p s = true /\ Forall (fun x => p x = false) before.
Proof.
  induction syms as [|x syms IH]; simpl.
  - split; [done |]. intros (before & after & Heq & _). by destruct before.
  - destruct (p x) eqn:Hx.
    + split.
      * intros [= ->]. exists [], syms. by repeat split.
      * intros (before & after & Heq & Hs & Hb). destruct before as [|y before].
        -- by injection Heq as ->.
        -- injection Heq as -> _. apply Forall_cons in Hb as [Hy _]. congruence.
    + rewrite IH. split.
      * intros (before & after & -> & Hs & Hb). exists (x :: before), after.
        split; [done |]. split; [done |]. by constructor.
      * intros (before & after & Heq & Hs & Hb). destruct before as [|y before].
        -- injection Heq as -> _. congruence.
        -- injection Heq as -> ->. apply Forall_cons in Hb as [_ Hb].
           by exists before, after.
Qed.

Lemma find_none (p : Symbol -> bool) syms :
  List.find p syms = None <-> Forall (fun x => p x = false) syms.
Proof.
  induction syms as [|x syms IH]; simpl; [by split; [constructor |] |].
  destruct (p x) eqn:Hx.
  - split; [done |]. intros [? _]%Forall_cons. congruence.
  - rewrite IH. split; [by constructor | by intros [_ ?]%Forall_cons].
Qed.

(** X1.  [findSymbolAtPosition(file, position)] returns the first symbol of
    the file's stored list that is on the line of the position and starts
    at or before its column: every symbol before it in the list fails the
    test.  It returns [null] exactly when the file is not stored or no
    symbol of its list passes the test. *)
Theorem findSymbolAtPosition_first_match st f (l c : Z) :
  (forall s, findSymbolAtPosition st f l c = Some s <->
     exists before after,
       symbols st !! f = Some (before ++ s :: after)
       /\ line s = l /\ column s <= c
       /\ Forall (fun x => ~ (line x = l /\ column x <= c)) before)
  /\ (findSymbolAtPosition st f l c = None <->
      forall s, s ∈ getSymbolsInFile st f -> ~ (line s = l /\ column s <= c)).
Proof.
  assert (forall x, at_position l c x = true <-> line x = l /\ column x <= c) as Htest.
  { intros x. unfold at_position. by rewrite andb_true_iff, Z.eqb_eq, Z.leb_le. }
  assert (forall x, at_position l c x = false <-> ~ (line x = l /\ column x <= c)) as Hfail.
  { intros x. rewrite <- Htest. by destruct (at_position l c x). }
  unfold findSymbolAtPosition, getSymbolsInFile. split.
  - intros s. destruct (symbols st !! f) as [syms|]; simpl.
    + rewrite find_first_split. split.
      * intros (before & after & -> & Hs & Hb). exists before, after.
        apply Htest in Hs as [? ?]. repeat split; [done ..|].
        eapply Forall_impl; [exact Hb |]. intros x. apply Hfail.
      * intros (before & after & [= ->] & Hl & Hc & Hb). exists before, after.
        split; [done |]. split; [by apply Htest |].
        eapply Forall_impl; [exact Hb |]. intros x. apply Hfail.
    + split; [done |]. by intros (? & ? & ? & _).
  - destruct (symbols st !! f) as [syms|]; simpl.
    + rewrite find_none, Forall_forall. split; intros H s Hs; by apply Hfail, H.
    + split; [| done]. intros _ s Hs. by apply elem_of_nil in Hs.
Qed.

(** X2.  After [updateFile(f, S)] the stored list of [f] is [S] and position
    lookups in [f] search [S]; after [removeFile(f)] the file has no list
    and position lookups in it return [null]; both leave the stored list
    and the position lookups of every other file as they were. *)
Theorem file_lookups_after_mutation st f syms :
  (getSymbolsInFile (updateFile st f syms) f = syms
   /\ forall l c, findSymbolAtPosition (updateFile st f syms) f l c
                  = List.find (at_position l c) syms)
  /\ (getSymbolsInFile (removeFile st f) f = []
      /\ forall l c, findSymbolAtPosition (removeFile st f) f l c = None)
  /\ (forall g, g <> f ->
        getSymbolsInFile (updateFile st f syms) g = getSymbolsInFile st g
        /\ getSymbolsInFile (removeFile st f) g = getSymbolsInFile st g
        /\ forall l c,
             findSymbolAtPosition (updateFile st f syms) g l c = findSymbolAtPosition st g l c
             /\ findSymbolAtPosition (removeFile st f) g l c = findSymbolAtPosition st g l c).
Proof.
  unfold findSymbolAtPosition, getSymbolsInFile.
  rewrite symbols_updateFile, symbols_removeFile.
  split; [| split].
  - rewrite lookup_insert_eq. by split.
  - rewrite lookup_delete_eq. by split.
  - intros g Hg. rewrite lookup_insert_ne, lookup_delete_ne by done. by repeat split.
Qed.
End PositionLookup.

(** ** The Name Index: what the buckets hold *)

Section Buckets.
Import SymbolDatabase SymbolQueries.
Implicit Types (st : state) (f : string) (syms bucket old : list Symbol)
               (n : option string).

Lemma remove_first_sublist (p : Symbol -> bool) bucket :
  sublist (remove_first p bucket) bucket.
Proof.
  induction bucket as [|x bucket IH]; simpl; [constructor |].
  destruct (p x); [by apply sublist_cons | by apply sublist_skip].
Qed.

Lemma unindex_all_sublist old bucket : sublist (unindex_all bucket old) bucket.
Proof.
  unfold unindex_all. revert bucket.
  induction old as [|s old IH]; intros bucket; [done |].
  simpl. etrans; [apply IH | apply remove_first_sublist].
Qed.

Lemma removeFile_bucket_sublist st f n :
  sublist (findSymbolsByName (removeFile st f) n) (findSymbolsByName st n).
Proof. rewrite bucket_removeFile. apply unindex_all_sublist. Qed.

Lemma buckets_named_removeFile st f :
  buckets_named (symbolIndex st) -> buckets_named (symbolIndex (removeFile st f)).
Proof.
  intros H n s Hs. apply (H n).
  eapply elem_of_sublist; [exact Hs |]. apply (removeFile_bucket_sublist st f n).
Qed.

Lemma buckets_named_updateFile st f syms :
  buckets_named (symbolIndex st) -> buckets_named (symbolIndex (updateFile st f syms)).
Proof.
  intros H n s Hs.
  change (s ∈ findSymbolsByName (updateFile st f syms) n) in Hs.
  rewrite bucket_updateFile in Hs. apply elem_of_app in Hs as [Hs | Hs].
  - by apply (buckets_named_removeFile st f H n).
  - by apply elem_of_named in Hs as [? _].
Qed.

Lemma buckets_named_run (ops : list op) : buckets_named (symbolIndex (run ops)).
Proof.
  induction ops as [|o ops IH] using rev_ind.
  - intros n s Hs. unfold bucket_of, run in Hs. cbn in Hs.
    rewrite lookup_empty in Hs. by apply elem_of_nil in Hs.
  - rewrite run_snoc. destruct o; [by apply buckets_named_updateFile
                                  | by apply buckets_named_removeFile].
Qed.

(** X3.  Whatever the sequence of [updateFile] and [removeFile]
    operations, every record found under a name carries that name:
    [findSymbolsByName(n)] returns only records named [n],
    [findDefinitions(n)] only definitions named [n] and
    [findDeclarations(n)] only declarations named [n]. *)
Theorem lookups_return_the_name (ops : list op) n (s : Symbol) :
  let st := run ops in
  (s ∈ findSymbolsByName st n -> name s = n)
  /\ (s ∈ findDefinitions st n ->
      name s = n /\ isDefinition s = true /\ s ∈ findSymbolsByName st n)
  /\ (s ∈ findDeclarations st n ->
      name s = n /\ isDeclaration s = true /\ s ∈ findSymbolsByName st n).
Proof.
  intros st. pose proof (buckets_named_run ops n s) as Hn. fold st in Hn.
  split; [exact Hn |].
  split; intros Hs; apply list_elem_of_In, filter_In in Hs as [Hs Hflag];
    apply list_elem_of_In in Hs; auto.
Qed.

(** X4.  [removeFile] only takes records out of the buckets: for every
    state and name, the bucket after [removeFile(f)] is a subsequence of
    the bucket before, so the records that stay keep their relative order,
    and [findDefinitions] after the removal is a subsequence of
    [findDefinitions] before. *)
Theorem removeFile_only_removes st f n :
  sublist (findSymbolsByName (removeFile st f) n) (findSymbolsByName st n)
  /\ sublist (findDefinitions (removeFile st f) n) (findDefinitions st n).
Proof.
  split; [apply removeFile_bucket_sublist |].
  unfold findDefinitions.
  pose proof (removeFile_bucket_sublist st f n) as Hsub.
  induction Hsub as [|x l1 l2 _ IH | x l1 l2 _ IH]; simpl; [constructor | |].
  - destruct (isDefinition x); [by apply sublist_skip | done].
  - destruct (isDefinition x); [by apply sublist_cons | done].
Qed.

(** X5.  Whatever the records passed to [updateFile], after every sequence
    of operations each bucket holds, for every position (file, line), as
    many records as the file table holds records of that name at that
    position. *)
Theorem positions_always_agree (ops : list op) n :
  position <$> findSymbolsByName (run ops) n ≡ₚ position <$> projection (run ops) n.
Proof. apply positions_run. Qed.

Lemma removeFile_absent st f : symbols st !! f = None -> removeFile st f = st.
Proof. intros Hf. unfold removeFile. by rewrite Hf. Qed.

Lemma removeFile_updateFile st f syms :
  no_empty_bucket (symbolIndex st) -> files_stamped st -> consistent st -> stamped f syms ->
  removeFile (updateFile st f syms) f = removeFile st f.
Proof.
  intros Hne Hst Hinv Hs.
  destruct (removeFile (updateFile st f syms) f) as [files1 index1] eqn:E1.
  destruct (removeFile st f) as [files2 index2] eqn:E2.
  f_equal.
  - change files1 with (symbols (State files1 index1)).
    change files2 with (symbols (State files2 index2)).
    rewrite <- E1, <- E2, !symbols_removeFile, symbols_updateFile.
    by rewrite delete_insert_eq.
  - change index1 with (symbolIndex (State files1 index1)).
    change index2 with (symbolIndex (State files2 index2)).
    rewrite <- E1, <- E2. apply index_ext.
    + by apply no_empty_removeFile, no_empty_updateFile.
    + by apply no_empty_removeFile.
    + intros n.
      change (findSymbolsByName (removeFile (updateFile st f syms) f) n
              = findSymbolsByName (removeFile st f) n).
      rewrite bucket_removeFile, bucket_updateFile.
      unfold getSymbolsInFile. rewrite symbols_updateFile, lookup_insert_eq. simpl.
      apply unindex_all_appended. intros b s Hb Hsyms.
      apply not_true_is_false. rewrite same_position_spec. intros Hpos.
      rewrite (consistent_removeFile st f Hst Hinv n) in Hb.
      apply (removed_file_elsewhere st f n b Hst) in Hb.
      apply elem_of_named in Hsyms as [_ Hsyms].
      unfold stamped in Hs. rewrite Forall_forall in Hs.
      injection Hpos as Hfile _. rewrite (Hs s Hsyms) in Hfile. done.
Qed.

(** X6.  Indexing a file and removing it again undoes the indexing: in a
    state reached by operations whose records carry the path they were
    indexed under, and for a list [S] whose records carry [file = f],
    [removeFile(f)] after [updateFile(f, S)] gives the state
    [removeFile(f)] gives without the update; when [f] was not stored, it
    gives back the state before the update, file table and name index. *)
Theorem update_then_remove (ops : list op) f syms :
  Forall well_stamped ops -> stamped f syms ->
  let st := run ops in
  removeFile (updateFile st f syms) f = removeFile st f
  /\ (symbols st !! f = None -> removeFile (updateFile st f syms) f = st).
Proof.
  intros Hops Hs st. destruct (consistent_run ops Hops) as [Hst Hinv].
  assert (removeFile (updateFile st f syms) f = removeFile st f) as Hback
    by (apply removeFile_updateFile; [apply no_empty_run | done ..]).
  split; [done |]. intros Hf. by rewrite Hback, removeFile_absent.
Qed.

Lemma update_then_remove_witness :
  removeFile (updateFile (run Examples.two_files) (file Fixtures.bar_c) [Fixtures.bar_c])
    (file Fixtures.bar_c)
  = run Examples.two_files.
Proof.
  refine (proj2 (update_then_remove Examples.two_files (file Fixtures.bar_c)
                   [Fixtures.bar_c] _ _) _).
  - repeat constructor.
  - repeat constructor.
  - vm_compute. reflexivity.
Defined.
End Buckets.

(** ** The scans of the file table and the statistics *)

Section Scans.
Import SymbolDatabase SymbolQueries.
Implicit Types (st : state) (f k : string) (syms : list Symbol)
               (files : gmap string (list Symbol)).

Lemma filter_bind {A B : Type} (p : B -> bool) (g : A -> list B) (l : list A) :
  List.filter p (l ≫= g) = l ≫= (fun a => List.filter p (g a)).
Proof.
  induction l as [|a l IH]; [done |].
  cbn. by rewrite List.filter_app, IH.
Qed.

Lemma elem_of_List_filter {A : Type} (p : A -> bool) (l : list A) (x : A) :
  x ∈ List.filter p l <-> p x = true /\ x ∈ l.
Proof. rewrite !list_elem_of_In, filter_In. tauto. Qed.

Lemma bind_ext_elem_of {A B : Type} (g h : A -> list B) (l : list A) :
  (forall a, a ∈ l -> g a = h a) -> l ≫= g = l ≫= h.
Proof.
  induction l as [|a l IH]; intros Hgh; [done |].
  cbn. rewrite (Hgh a) by left. f_equal. apply IH. intros b Hb. apply Hgh. by right.
Qed.

Lemma index_run (ops : list op) :
  OrderedIndex.index (OrderedIndex.run ops) = run ops.
Proof.
  induction ops as [|o ops IH] using rev_ind; [done |].
  unfold OrderedIndex.run. rewrite foldl_app. cbn [foldl].
  fold (OrderedIndex.run ops). rewrite run_snoc, <- IH. by destruct o.
Qed.

Lemma elem_of_map_delete (f g : string) (keys : list string) :
  g ∈ OrderedIndex.map_delete f keys <-> g ∈ keys /\ g <> f.
Proof. unfold OrderedIndex.map_delete. rewrite list_elem_of_filter. tauto. Qed.

Lemma lists_the_files_removeFile (o : OrderedIndex.state) f :
  OrderedIndex.lists_the_files o ->
  OrderedIndex.lists_the_files (OrderedIndex.removeFile o f)
  /\ f ∉ OrderedIndex.fileOrder (OrderedIndex.removeFile o f).
Proof.
  intros [Hnd Hkeys]. unfold OrderedIndex.lists_the_files, OrderedIndex.removeFile.
  cbn [OrderedIndex.index OrderedIndex.fileOrder]. rewrite symbols_removeFile.
  destruct (symbols (OrderedIndex.index o) !! f) as [old|] eqn:Hf.
  - split; [split |].
    + by apply NoDup_filter.
    + intros g. rewrite elem_of_map_delete, Hkeys.
      destruct (decide (g = f)) as [-> | Hne].
      * rewrite lookup_delete_eq. split; [tauto | by intros [? ?]].
      * rewrite lookup_delete_ne by done. tauto.
    + rewrite elem_of_map_delete. tauto.
  - rewrite delete_id by done. split; [done |].
    rewrite Hkeys, Hf. by intros [? ?].
Qed.

Lemma fileOrder_updateFile (o : OrderedIndex.state) f syms :
  OrderedIndex.lists_the_files o ->
  OrderedIndex.fileOrder (OrderedIndex.updateFile o f syms)
  = OrderedIndex.fileOrder (OrderedIndex.removeFile o f) ++ [f].
Proof.
  intros Ho. destruct (lists_the_files_removeFile o f Ho) as [_ Hout].
  unfold OrderedIndex.updateFile, OrderedIndex.map_set.
  cbn [OrderedIndex.fileOrder]. by rewrite decide_False.
Qed.

Lemma lists_the_files_updateFile (o : OrderedIndex.state) f syms :
  OrderedIndex.lists_the_files o ->
  OrderedIndex.lists_the_files (OrderedIndex.updateFile o f syms).
Proof.
  intros Ho. destruct (lists_the_files_removeFile o f Ho) as [[Hnd Hkeys] Hout].
  split.
  - rewrite fileOrder_updateFile by done. apply NoDup_app. split; [done |].
    split; [| apply NoDup_singleton].
    intros g Hg Hf. apply list_elem_of_singleton in Hf as ->. done.
  - intros g. rewrite fileOrder_updateFile by done.
    cbn [OrderedIndex.updateFile OrderedIndex.index].
    rewrite symbols_updateFile, elem_of_app, list_elem_of_singleton, Hkeys.
    cbn [OrderedIndex.removeFile OrderedIndex.index]. rewrite symbols_removeFile.
    destruct (decide (g = f)) as [-> | Hne].
    + rewrite lookup_insert_eq. split; [by eexists | by right].
    + rewrite lookup_insert_ne, lookup_delete_ne by done. tauto.
Qed.

Lemma lists_the_files_run (ops : list op) :
  OrderedIndex.lists_the_files (OrderedIndex.run ops).
Proof.
  induction ops as [|o ops IH] using rev_ind.
  - split; [constructor |]. intros f. cbn. rewrite lookup_empty. split.
    + by intros H; apply elem_of_nil in H.
    + by intros [? ?].
  - unfold OrderedIndex.run. rewrite foldl_app. cbn [foldl]. fold (OrderedIndex.run ops).
    destruct o; [by apply lists_the_files_updateFile | by apply lists_the_files_removeFile].
Qed.

Lemma findSymbolsByKind_filter (o : OrderedIndex.state) k :
  OrderedIndex.findSymbolsByKind o k
  = List.filter (of_kind k) (OrderedIndex.getAllSymbols o).
Proof.
  unfold OrderedIndex.findSymbolsByKind, OrderedIndex.getAllSymbols. by rewrite filter_bind.
Qed.

Lemma findSymbolsInScope_filter (o : OrderedIndex.state) sc :
  OrderedIndex.findSymbolsInScope o sc
  = List.filter (in_scope sc) (OrderedIndex.getAllSymbols o).
Proof.
  unfold OrderedIndex.findSymbolsInScope, OrderedIndex.getAllSymbols. by rewrite filter_bind.
Qed.

Lemma elem_of_getAllSymbols (o : OrderedIndex.state) s :
  OrderedIndex.lists_the_files o ->
  s ∈ OrderedIndex.getAllSymbols o
  <-> exists f, s ∈ getSymbolsInFile (OrderedIndex.index o) f.
Proof.
  intros [_ Hkeys]. unfold OrderedIndex.getAllSymbols. rewrite list_elem_of_bind. split.
  - intros (f & Hs & _). eauto.
  - intros (f & Hs). exists f. split; [done |]. apply Hkeys.
    unfold getSymbolsInFile in Hs.
    destruct (symbols (OrderedIndex.index o) !! f); [done | by apply elem_of_nil in Hs].
Qed.

Lemma getAllSymbols_stored (o : OrderedIndex.state) :
  OrderedIndex.lists_the_files o ->
  OrderedIndex.getAllSymbols o ≡ₚ stored_symbols (symbols (OrderedIndex.index o)).
Proof.
  intros [Hnd Hkeys]. unfold OrderedIndex.getAllSymbols, stored_symbols.
  set (m := symbols (OrderedIndex.index o)) in *.
  set (entry := fun f : string => (f, default [] (m !! f))).
  assert (entry <$> OrderedIndex.fileOrder o ≡ₚ map_to_list m) as <-.
  { apply NoDup_Permutation.
    - apply NoDup_fmap_2_strong; [| done]. intros f g _ _ [= ->]. done.
    - apply NoDup_map_to_list.
    - intros [f syms]. rewrite list_elem_of_fmap, elem_of_map_to_list. split.
      + intros (g & [= -> ->] & Hg). apply Hkeys in Hg as [syms Hs]. fold m in Hs.
        by rewrite Hs.
      + intros Hf. exists f. split; [unfold entry; by rewrite Hf |].
        apply Hkeys. fold m. by rewrite Hf. }
  by rewrite list_fmap_bind.
Qed.

Lemma getAllSymbols_updateFile (o : OrderedIndex.state) f syms :
  OrderedIndex.lists_the_files o ->
  OrderedIndex.getAllSymbols (OrderedIndex.updateFile o f syms)
  = OrderedIndex.getAllSymbols (OrderedIndex.removeFile o f) ++ syms.
Proof.
  intros Ho. destruct (lists_the_files_removeFile o f Ho) as [_ Hout].
  unfold OrderedIndex.getAllSymbols. rewrite fileOrder_updateFile by done.
  rewrite bind_app. cbn [OrderedIndex.updateFile OrderedIndex.index].
  f_equal.
  - apply bind_ext_elem_of. intros g Hg.
    assert (g <> f) as Hne by (by intros ->).
    unfold getSymbolsInFile. cbn [OrderedIndex.removeFile OrderedIndex.index].
    by rewrite symbols_updateFile, symbols_removeFile, lookup_insert_ne, lookup_delete_ne.
  - cbn. unfold getSymbolsInFile. rewrite symbols_updateFile, lookup_insert_eq.
    cbn. by rewrite app_nil_r.
Qed.

(** X7.  After any sequence of [updateFile] and [removeFile] calls,
    [getAllSymbols] returns the lists of the stored files one after the
    other in the order in which [this.symbols] holds its keys;
    [findSymbolsByKind] and [findSymbolsInScope] are that list filtered,
    in the same order, and return exactly the records of some stored file
    whose kind (scope) is the one asked for.  A file that is indexed
    again goes to the end of the order: after [updateFile(f, S)] the list
    is that of the other files, as before, followed by [S]. *)
Theorem scans_filter_the_file_table (ops : list op) k (s : Symbol) :
  let o := OrderedIndex.run ops in
  OrderedIndex.index o = run ops
  /\ OrderedIndex.getAllSymbols o ≡ₚ stored_symbols (symbols (run ops))
  /\ OrderedIndex.findSymbolsByKind o k
     = List.filter (of_kind k) (OrderedIndex.getAllSymbols o)
  /\ OrderedIndex.findSymbolsInScope o k
     = List.filter (in_scope k) (OrderedIndex.getAllSymbols o)
  /\ (s ∈ OrderedIndex.findSymbolsByKind o k
      <-> kind s = k /\ exists f, s ∈ getSymbolsInFile (run ops) f)
  /\ (s ∈ OrderedIndex.findSymbolsInScope o k
      <-> scope s = k /\ exists f, s ∈ getSymbolsInFile (run ops) f)
  /\ forall f syms,
       OrderedIndex.getAllSymbols (OrderedIndex.updateFile o f syms)
       = OrderedIndex.getAllSymbols (OrderedIndex.removeFile o f) ++ syms.
Proof.
  intros o. pose proof (lists_the_files_run ops) as Ho. fold o in Ho.
  pose proof (index_run ops) as Hindex. fold o in Hindex.
  split; [done |].
  split; [rewrite <- Hindex; by apply getAllSymbols_stored |].
  split; [apply findSymbolsByKind_filter |].
  split; [apply findSymbolsInScope_filter |].
  rewrite findSymbolsByKind_filter, findSymbolsInScope_filter, !elem_of_List_filter,
    (elem_of_getAllSymbols o s Ho), Hindex.
  unfold of_kind, in_scope. rewrite !String.eqb_eq.
  split; [done |]. split; [done |].
  intros f syms. by apply getAllSymbols_updateFile.
Qed.

Lemma count_kind_foldl syms (counts : gmap string Z) k :
  foldl count_kind counts syms !! k
  = match length (List.filter (of_kind k) syms) with
    | O => counts !! k
    | S _ => Some (default 0 (counts !! k)
                   + Z.of_nat (length (List.filter (of_kind k) syms)))
    end.
Proof.
  revert counts. induction syms as [|s syms IH]; intros counts; [done |].
  cbn [foldl List.filter]. rewrite IH.
  assert (of_kind k s = String.eqb (kind s) k) as -> by done.
  unfold count_kind. destruct (String.eqb_spec (kind s) k) as [<- | Hk].
  - rewrite lookup_insert_eq. cbn [length default].
    destruct (length (List.filter (of_kind (kind s)) syms)). all: f_equal; unfold id; lia.
  - by rewrite lookup_insert_ne.
Qed.

Lemma statistics_spec files :
  let stats := map_fold count_file (mkStatistics 0 ∅ ∅) files in
  total stats = Z.of_nat (length (stored_symbols files))
  /\ byFile stats = (fun syms => Z.of_nat (length syms)) <$> files
  /\ forall k, byKind stats !! k
               = counted (length (List.filter (of_kind k) (stored_symbols files))).
Proof.
  cbv zeta.
  apply (map_fold_weak_ind (fun stats files =>
    total stats = Z.of_nat (length (stored_symbols files))
    /\ byFile stats = (fun syms => Z.of_nat (length syms)) <$> files
    /\ forall k, byKind stats !! k
                 = counted (length (List.filter (of_kind k) (stored_symbols files))))).
  - split; [| split].
    + unfold stored_symbols. by rewrite map_to_list_empty.
    + by rewrite fmap_empty.
    + intros k. unfold stored_symbols. by rewrite map_to_list_empty.
  - intros f syms m r Hf (Htotal & Hfile & Hkind).
    assert (stored_symbols (<[f := syms]> m) ≡ₚ syms ++ stored_symbols m) as Hperm.
    { rewrite stored_symbols_insert. by rewrite delete_id. }
    split; [| split]; cbn [total byFile byKind count_file].
    + rewrite Htotal, Hperm, length_app. lia.
    + by rewrite Hfile, fmap_insert.
    + intros k. rewrite count_kind_foldl, Hkind.
      assert (length (List.filter (of_kind k) (stored_symbols (<[f := syms]> m)))
              = (length (List.filter (of_kind k) syms)
                 + length (List.filter (of_kind k) (stored_symbols m)))%nat) as ->.
      { rewrite <- length_app, <- List.filter_app.
        apply Permutation_length.
        assert (forall l1 l2 : list Symbol, l1 ≡ₚ l2 ->
                  List.filter (of_kind k) l1 ≡ₚ List.filter (of_kind k) l2) as Hfilter.
        { induction 1 as [|x l1 l2 _ IH|x y l|l1 l2 l3 _ IH1 _ IH2]; cbn.
          - done.
          - destruct (of_kind k x); by rewrite IH.
          - destruct (of_kind k x), (of_kind k y); try done. apply perm_swap.
          - by etrans. }
        by apply Hfilter. }
      destruct (length (List.filter (of_kind k) syms)) as [|a];
        destruct (length (List.filter (of_kind k) (stored_symbols m))) as [|b];
        cbn [counted default Nat.add]; try done; f_equal; unfold id; lia.
Qed.

(** X8.  [getSymbolStatistics] counts the file table: [total] is the
    number of stored records, [byFile] holds for every stored file (and
    no other key) the length of its list, and [byKind] holds for a kind
    the number of stored records of that kind when there is one, and no
    entry otherwise. *)
Theorem statistics_count_the_table st :
  let stats := getSymbolStatistics st in
  total stats = Z.of_nat (length (stored_symbols (symbols st)))
  /\ byFile stats = (fun syms => Z.of_nat (length syms)) <$> symbols st
  /\ forall k, byKind stats !! k
               = counted (length (List.filter (of_kind k) (stored_symbols (symbols st)))).
Proof.
  intros stats. destruct (statistics_spec (symbols st)) as (Htotal & Hfile & Hkind).
  repeat split; done.
Qed.
End Scans.

(** ** Scope paths *)

Section Hierarchy.
Import ScopeManager ScopeQueries.
Implicit Types (objs : list Scope) (i p : nat) (s : Scope).

Lemma climb_app fuel objs current (h1 h2 : list nat) :
  climb fuel objs current (h1 ++ h2) = climb fuel objs current h1 ++ h2.
Proof.
  revert current h1. induction fuel as [|fuel IH]; intros current h1; [done |].
  destruct current as [c|]; [| done]. cbn [climb].
  by rewrite app_comm_cons, IH.
Qed.

Lemma ancestry_root objs i : parent_at objs i = None -> ancestry objs i = [i].
Proof. intros Hp. unfold ancestry. rewrite Hp. by destruct (length objs). Qed.

Lemma parent_at_lt objs i p : well_linked objs -> parent_at objs i = Some p -> (p < i < length objs)%nat.
Proof.
  intros Hwl Hp. unfold parent_at in Hp.
  destruct (objs !! i) as [s|] eqn:Hi; [| done].
  split; [by apply (Hwl i s Hi) | by eapply lookup_lt_Some].
Qed.

Lemma ancestry_child objs i p :
  well_linked objs -> parent_at objs i = Some p ->
  ancestry objs i = ancestry objs p ++ [i].
Proof.
  intros Hwl Hp. destruct (parent_at_lt objs i p Hwl Hp) as [Hlt Hlen].
  unfold ancestry. rewrite Hp.
  destruct (length objs) as [|fuel] eqn:Hfuel; [lia |].
  cbn [climb]. change [p; i] with ([p] ++ [i]).
  rewrite (climb_app fuel objs (parent_at objs p) [p] [i]). f_equal.
  symmetry. apply climb_fuel; [done |].
  intros c Hc. apply (parent_at_lt objs p c Hwl) in Hc. lia.
Qed.

Lemma ancestry_prefix objs : well_linked objs ->
  forall i (k : nat) a, ancestry objs i !! k = Some a ->
    take (S k) (ancestry objs i) = ancestry objs a.
Proof.
  intros Hwl i. induction (lt_wf i) as [i _ IH]. intros k a Hk.
  destruct (parent_at objs i) as [p|] eqn:Hp.
  - rewrite (ancestry_child objs i p Hwl Hp) in Hk |- *.
    destruct (parent_at_lt objs i p Hwl Hp) as [Hlt _].
    destruct (decide (k < length (ancestry objs p))%nat) as [Hin | Hout].
    + rewrite lookup_app_l in Hk by done.
      rewrite take_app_le by lia. by apply (IH p Hlt).
    + rewrite lookup_app_r in Hk by lia.
      apply list_lookup_singleton_Some in Hk as [Hk <-].
      rewrite take_ge; [by rewrite (ancestry_child objs i p Hwl Hp) |].
      rewrite length_app. cbn. lia.
  - rewrite (ancestry_root objs i Hp) in Hk |- *.
    apply list_lookup_singleton_Some in Hk as [-> <-]. by rewrite ancestry_root.
Qed.

Lemma getScopeHierarchy_ancestry objs i :
  getScopeHierarchy (mkRef objs i) = mkRef objs <$> ancestry objs i.
Proof. done. Qed.

Lemma string_append_assoc (a b c : string) :
  String.append (String.append a b) c = String.append a (String.append b c).
Proof.
  induction a as [|x a IH]; [done |].
  change (String x (String.append (String.append a b) c)
          = String x (String.append a (String.append b c))). by rewrite IH.
Qed.

Lemma join_snoc (sep : string) (l : list (option string)) (x : option string) :
  l <> [] ->
  JsString.join sep (l ++ [x])
  = String.append (JsString.join sep l) (String.append sep (default EmptyString x)).
Proof.
  unfold JsString.join. induction l as [|y l IH]; [done |]. intros _.
  destruct l as [|z l].
  - done.
  - specialize (IH ltac:(done)).
    change (String.concat sep (map (default EmptyString) ((y :: z :: l) ++ [x])))
      with (String.append (default EmptyString y)
              (String.append sep (String.concat sep (map (default EmptyString) ((z :: l) ++ [x]))))).
    rewrite IH.
    change (String.concat sep (map (default EmptyString) (y :: z :: l)))
      with (String.append (default EmptyString y)
              (String.append sep (String.concat sep (map (default EmptyString) (z :: l))))).
    by rewrite !string_append_assoc.
Qed.

Lemma name_of_lookup objs i s : objs !! i = Some s -> name_of (mkRef objs i) = scopeName s.
Proof. intros Hi. unfold name_of, deref. cbn. by rewrite Hi. Qed.

Lemma ancestry_nonempty objs i : ancestry objs i <> [].
Proof.
  unfold ancestry. change [i] with ([] ++ [i]). rewrite climb_app.
  by destruct (climb _ _ _ _).
Qed.

Lemma hierarchy_step objs i s :
  well_linked objs -> objs !! i = Some s ->
  match parent s with
  | None =>
      getScopeHierarchy (mkRef objs i) = [mkRef objs i]
      /\ getScopePath (mkRef objs i) = default EmptyString (scopeName s)
  | Some p =>
      getScopeHierarchy (mkRef objs i) = getScopeHierarchy (mkRef objs p) ++ [mkRef objs i]
      /\ getScopePath (mkRef objs i)
         = String.append (getScopePath (mkRef objs p))
             (String.append "::" (default EmptyString (scopeName s)))
  end.
Proof.
  intros Hwl Hi.
  assert (parent_at objs i = parent s) as Hp by (unfold parent_at; by rewrite Hi).
  unfold getScopePath. rewrite !getScopeHierarchy_ancestry.
  destruct (parent s) as [p|].
  - rewrite (ancestry_child objs i p Hwl Hp), !fmap_app. split; [done |].
    change (name_of <$> (mkRef objs <$> [i])) with [name_of (mkRef objs i)].
    rewrite join_snoc.
    + by rewrite (name_of_lookup objs i s Hi).
    + intros Hnil. do 2 apply fmap_nil_inv in Hnil. by apply ancestry_nonempty in Hnil.
  - rewrite (ancestry_root objs i Hp). split; [done |].
    cbn. by rewrite (name_of_lookup objs i s Hi).
Qed.

Lemma push_prefixes_ancestry objs i (n : nat) :
  well_linked objs -> (n <= length (ancestry objs i))%nat ->
  Extension.push_prefixes (name_of <$> (mkRef objs <$> ancestry objs i)) n
  = getScopePath <$> reverse (mkRef objs <$> take n (ancestry objs i)).
Proof.
  intros Hwl. induction n as [|n IH]; intros Hn; [done |].
  destruct (lookup_lt_is_Some_2 (ancestry objs i) n ltac:(lia)) as [a Ha].
  cbn [Extension.push_prefixes]. rewrite IH by lia.
  rewrite (take_S_r _ _ _ Ha), fmap_app, reverse_app.
  change (reverse (mkRef objs <$> [a])) with [mkRef objs a].
  change ([mkRef objs a] ++ reverse (mkRef objs <$> take n (ancestry objs i)))
    with (mkRef objs a :: reverse (mkRef objs <$> take n (ancestry objs i))).
  rewrite fmap_cons. f_equal.
  unfold getScopePath. rewrite getScopeHierarchy_ancestry.
  rewrite <- (ancestry_prefix objs Hwl i n a Ha).
  by rewrite <- !fmap_take.
Qed.

(** X9.  In a tree built by [buildScopeTree], the hierarchy of a scope is
    the hierarchy of its parent followed by the scope, and its path is the
    path of its parent, ["::"] and its name; a scope without parent is its
    own hierarchy and its path is its name. *)
Theorem scope_path_extends_parent
    (sm : state) (syms : list Symbol) (f : string) (i : nat) (s : Scope) :
  let objs := objects (buildScopeTree sm syms f).2 in
  objs !! i = Some s ->
  match parent s with
  | None =>
      getScopeHierarchy (mkRef objs i) = [mkRef objs i]
      /\ getScopePath (mkRef objs i) = default EmptyString (scopeName s)
  | Some p =>
      getScopeHierarchy (mkRef objs i) = getScopeHierarchy (mkRef objs p) ++ [mkRef objs i]
      /\ getScopePath (mkRef objs i)
         = String.append (getScopePath (mkRef objs p))
             (String.append "::" (default EmptyString (scopeName s)))
  end.
Proof. intros objs. apply hierarchy_step, buildScopeTree_well_linked. Qed.

Lemma scope_path_extends_parent_witness :
  getScopePath (mkRef (objects Fixtures.one_line_tree) 2)
  = String.append (getScopePath (mkRef (objects Fixtures.one_line_tree) 1))
      (String.append "::" "f").
Proof.
  refine (proj2 (scope_path_extends_parent empty Fixtures.one_line Fixtures.one_line_file
                   2 (Fixtures.scope_f) _)).
  vm_compute. reflexivity.
Defined.

(** X10.  The candidate scope paths the resolver scores against are the
    paths of the scope at the cursor and of its ancestors, innermost
    first, followed by the empty path of the global scope; without a scope
    at the cursor the global scope is the only candidate. *)
Theorem candidate_paths_are_ancestor_paths
    (sm : state) (syms : list Symbol) (f : string) (i : nat) :
  let scope := mkRef (objects (buildScopeTree sm syms f).2) i in
  Extension.getCandidateScopePaths (Some scope)
  = (getScopePath <$> reverse (getScopeHierarchy scope)) ++ [EmptyString]
  /\ Extension.getCandidateScopePaths None = [EmptyString].
Proof.
  intros scope. split; [| done].
  unfold Extension.getCandidateScopePaths. unfold scope.
  rewrite getScopeHierarchy_ancestry. rewrite !length_fmap.
  rewrite push_prefixes_ancestry by (apply buildScopeTree_well_linked || done).
  by rewrite firstn_all.
Qed.
End Hierarchy.

(** ** The scope at a line *)

Section ScopeAtLine.
Import ScopeManager ScopeQueries.
Implicit Types (objs : list Scope) (ids : list nat) (fuel i : nat) (l : Z).

Lemma covers_spec (s : Scope) l :
  (startLine s <=? l) && (l <=? endLine s) = true <-> covers s l.
Proof. unfold covers. rewrite andb_true_iff, !Z.leb_le. tauto. Qed.

Lemma findScopeAtLine_sound fuel objs : forall ids l i,
  findScopeAtLine fuel objs ids l = Some i ->
  exists s, objs !! i = Some s /\ covers s l.
Proof.
  induction fuel as [|fuel IH]; [done |].
  intros ids l i. induction ids as [|j ids IHids]; [done |].
  rewrite findScopeAtLine_S. destruct (objs !! j) as [sj|] eqn:Hj; [| done].
  destruct ((startLine sj <=? l) && (l <=? endLine sj)) eqn:Hc; [| done].
  destruct (findScopeAtLine fuel objs (children sj) l) as [c|] eqn:Hchild.
  - intros [= <-]. by apply (IH (children sj)).
  - intros [= <-]. exists sj. split; [done |]. by apply covers_spec.
Qed.

Lemma findScopeAtLine_None fuel objs ids l :
  findScopeAtLine (S fuel) objs ids l = None
  <-> forall i s, i ∈ ids -> objs !! i = Some s -> ~ covers s l.
Proof.
  induction ids as [|j ids IH].
  - split; [| done]. intros _ i s Hi. by apply elem_of_nil in Hi.
  - rewrite findScopeAtLine_S. destruct (objs !! j) as [sj|] eqn:Hj.
    + destruct ((startLine sj <=? l) && (l <=? endLine sj)) eqn:Hc.
      * apply covers_spec in Hc. split.
        -- by destruct (findScopeAtLine fuel objs (children sj) l).
        -- intros H. destruct (H j sj); [left | done | done].
      * rewrite IH. split.
        -- intros H i s Hi Hs. apply elem_of_cons in Hi as [-> | Hi]; [| by eapply H].
           rewrite Hj in Hs. injection Hs as <-. rewrite <- covers_spec, Hc. done.
        -- intros H i s Hi. apply H. by right.
    + rewrite IH. split.
      * intros H i s Hi Hs. apply elem_of_cons in Hi as [-> | Hi]; [| by eapply H].
        by rewrite Hj in Hs.
      * intros H i s Hi. apply H. by right.
Qed.

Lemma findScopeAtLine_innermost objs l : well_linked objs ->
  forall fuel ids i,
    Forall (fun j => (length objs <= j + fuel)%nat) ids ->
    findScopeAtLine fuel objs ids l = Some i ->
    exists s, objs !! i = Some s
      /\ forall c sc, c ∈ children s -> objs !! c = Some sc -> ~ covers sc l.
Proof.
  intros Hwl. induction fuel as [|fuel IH]; [done |].
  intros ids i. induction ids as [|j ids IHids]; [done |].
  intros Hids. apply Forall_cons in Hids as [Hj Hids].
  rewrite findScopeAtLine_S. destruct (objs !! j) as [sj|] eqn:Hsj; [| by apply IHids].
  destruct ((startLine sj <=? l) && (l <=? endLine sj)); [| by apply IHids].
  assert (Forall (fun c => (length objs <= c + fuel)%nat) (children sj)) as Hchildren.
  { destruct (Hwl j sj Hsj) as [Hfwd _]. eapply Forall_impl; [exact Hfwd |].
    intros c Hc. cbn in Hc. lia. }
  destruct (findScopeAtLine fuel objs (children sj) l) as [c|] eqn:Hchild.
  - intros [= <-]. by apply (IH (children sj)).
  - intros [= <-]. exists sj. split; [done |]. intros c sc Hc Hsc.
    destruct fuel as [|fuel].
    + rewrite Forall_forall in Hchildren. specialize (Hchildren c Hc).
      apply lookup_lt_Some in Hsc. lia.
    + by apply (proj1 (findScopeAtLine_None fuel objs (children sj) l) Hchild c sc).
Qed.

Lemma fileScopes_buildScopeTree (sm : state) (syms : list Symbol) (f : string) :
  fileScopes (buildScopeTree sm syms f).1 !! f = Some (buildScopeTree sm syms f).2.
Proof. unfold buildScopeTree, buildScopeTree_sorted. cbn. by rewrite lookup_insert_eq. Qed.

(** X11.  [findScopeAtPosition] on a file just built: a scope it returns
    is a scope of the file's tree that covers the line and none of whose
    children covers the line; it returns nothing exactly when no top-level
    scope of the file covers the line. *)
Theorem findScopeAtPosition_innermost
    (sm : state) (syms : list Symbol) (f : string) l :
  let sm' := (buildScopeTree sm syms f).1 in
  let t := (buildScopeTree sm syms f).2 in
  (forall r, findScopeAtPosition sm' f l = Some r ->
     ref_objects r = objects t
     /\ exists s, deref r = Some s /\ covers s l
        /\ forall c sc, c ∈ children s -> objects t !! c = Some sc -> ~ covers sc l)
  /\ (findScopeAtPosition sm' f l = None
      <-> forall i s, i ∈ roots t -> objects t !! i = Some s -> ~ covers s l).
Proof.
  intros sm' t. unfold findScopeAtPosition, sm'.
  rewrite fileScopes_buildScopeTree. fold t.
  pose proof (buildScopeTree_well_linked sm syms f) as Hwl. fold t in Hwl.
  split.
  - intros r Hr. apply fmap_Some in Hr as (i & Hi & ->). split; [done |].
    destruct (findScopeAtLine_sound _ _ _ _ _ Hi) as (s & Hs & Hcov).
    assert (Forall (fun j => (length (objects t) <= j + length (objects t))%nat) (roots t))
      as Hroots by (apply Forall_forall; intros j _; lia).
    destruct (findScopeAtLine_innermost (objects t) l Hwl _ _ _ Hroots Hi)
      as (s' & Hs' & Hin).
    rewrite Hs in Hs'. injection Hs' as <-. exists s. done.
  - rewrite fmap_None. destruct (length (objects t)) as [|fuel] eqn:Hlen.
    + split; [| done]. intros _ i s _ Hs. apply lookup_lt_Some in Hs. lia.
    + apply findScopeAtLine_None.
Qed.
End ScopeAtLine.

(** ** The shape of the trees [buildScopeTree] builds *)

Section TreeShape.
Import ScopeManager ScopeQueries.
Implicit Types (objs : list Scope) (b : builder) (x : Symbol) (lo : Z) (i top : nat)
               (s : Scope).

Lemma lookup_alter_inv objs (g : Scope -> Scope) top i s' :
  alter g top objs !! i = Some s' ->
  exists s, objs !! i = Some s /\ (s' = s \/ (i = top /\ s' = g s)).
Proof.
  destruct (decide (i = top)) as [-> | Hne].
  - rewrite list_lookup_alter_eq. intros Hs. apply fmap_Some in Hs as (s & Hs & ->). eauto.
  - rewrite list_lookup_alter_ne by done. eauto.
Qed.

Lemma lookup_alter_fwd objs (g : Scope -> Scope) top i s :
  objs !! i = Some s ->
  exists s', alter g top objs !! i = Some s' /\ (s' = s \/ s' = g s).
Proof.
  intros Hs. destruct (decide (i = top)) as [-> | Hne].
  - rewrite list_lookup_alter_eq, Hs. eauto.
  - rewrite list_lookup_alter_ne by done. eauto.
Qed.

Lemma under_construction_mono lo lo' objs :
  lo <= lo' -> under_construction lo objs -> under_construction lo' objs.
Proof.
  intros Hlo H i s Hs. destruct (H i s Hs) as (He & Hs0 & Hrest).
  split; [done |]. split; [lia | done].
Qed.

Lemma under_construction_alter lo objs (g : Scope -> Scope) top :
  under_construction lo objs ->
  (forall s, startLine (g s) = startLine s /\ endLine (g s) = endLine s
             /\ parent (g s) = parent s /\ scopeName (g s) = scopeName s
             /\ scopeType (g s) = scopeType s) ->
  (forall s, objs !! top = Some s ->
     (exists added, scopeSymbols (g s) = scopeSymbols s ++ added
                    /\ Forall (fun x => startLine s <= line x) added)
     /\ forall c, c ∈ children (g s) ->
          c ∈ children s \/ exists sc, objs !! c = Some sc /\ parent sc = Some top) ->
  under_construction lo (alter g top objs).
Proof.
  intros H Hframe Htop i s' Hs'.
  assert (forall p ps, objs !! p = Some ps ->
            exists ps', alter g top objs !! p = Some ps'
                        /\ startLine ps' = startLine ps /\ parent ps' = parent ps) as Hfwd.
  { intros p ps Hps. destruct (lookup_alter_fwd objs g top p ps Hps) as (ps' & Hps' & [-> | ->]).
    - eauto.
    - destruct (Hframe ps) as (? & _ & ? & _). eauto. }
  destruct (lookup_alter_inv objs g top i s' Hs') as (s & Hs & [-> | [-> ->]]).
  - destruct (H i s Hs) as (He & Hlo & Hsym & Hpar & Hch).
    repeat split; [done | done | done | |].
    + intros p Hp. destruct (Hpar p Hp) as (ps & Hps & Hline).
      destruct (Hfwd p ps Hps) as (ps' & Hps' & Hl & _). exists ps'. split; [done | congruence].
    + intros c Hc. destruct (Hch c Hc) as (sc & Hsc & Hp).
      destruct (Hfwd c sc Hsc) as (sc' & Hsc' & _ & Hp'). exists sc'. split; [done | congruence].
  - destruct (H top s Hs) as (He & Hlo & (opener & rest & Hsym & Hop & Hrest) & Hpar & Hch).
    destruct (Hframe s) as (Hg1 & Hg2 & Hg3 & Hg4 & Hg5).
    destruct (Htop s Hs) as ((added & Hadded & Hlines) & Hchildren).
    repeat split.
    + congruence.
    + lia.
    + exists opener, (rest ++ added). rewrite Hadded, Hsym, Hg1. split; [done |]. split.
      * destruct Hop as (? & ? & ? & ?). unfold opened_by. rewrite Hg4, Hg5, Hg1. done.
      * apply Forall_app. done.
    + intros p Hp. rewrite Hg3 in Hp. destruct (Hpar p Hp) as (ps & Hps & Hline).
      destruct (Hfwd p ps Hps) as (ps' & Hps' & Hl & _). exists ps'. split; [done | congruence].
    + intros c Hc. destruct (Hchildren c Hc) as [Hc' | (sc & Hsc & Hp)].
      * destruct (Hch c Hc') as (sc & Hsc & Hp).
        destruct (Hfwd c sc Hsc) as (sc' & Hsc' & _ & Hp'). exists sc'. split; [done | congruence].
      * destruct (Hfwd c sc Hsc) as (sc' & Hsc' & _ & Hp'). exists sc'. split; [done | congruence].
Qed.

Lemma under_construction_snoc lo objs x (p : option nat) :
  under_construction lo objs -> lo <= line x -> isScopeSymbol x = true ->
  (forall top, p = Some top -> exists ps, objs !! top = Some ps /\ startLine ps = line x) ->
  under_construction (line x)
    (objs ++ [mkScope (name x) (kind x) (line x) (line x) [x] [] p]).
Proof.
  intros H Hlo Hx Hp i s Hs.
  apply lookup_app_Some in Hs as [Hs | [Hlen Hs]].
  - destruct (H i s Hs) as (He & Hlo' & Hsym & Hpar & Hch).
    repeat split; [done | lia | done | |].
    + intros q Hq. destruct (Hpar q Hq) as (qs & Hqs & Hline). exists qs.
      split; [| done]. by apply lookup_app_l_Some.
    + intros c Hc. destruct (Hch c Hc) as (sc & Hsc & Hpc). exists sc.
      split; [| done]. by apply lookup_app_l_Some.
  - apply list_lookup_singleton_Some in Hs as [_ <-]. cbn.
    repeat split; [lia | | |].
    + exists x, []. split; [done |]. split; [done | constructor].
    + intros top Htop. destruct (Hp top Htop) as (ps & Hps & Hline). exists ps.
      split; [| done]. by apply lookup_app_l_Some.
    + intros c Hc. by apply elem_of_nil in Hc.
Qed.

Lemma pop_closed_head objs (stack : list nat) (l : Z) top (rest : list nat) :
  pop_closed objs stack l = top :: rest -> l <= endLine_at objs top /\ top ∈ stack.
Proof.
  induction stack as [|j stack IH]; [done |]. cbn [pop_closed].
  destruct (endLine_at objs j <? l) eqn:Hj.
  - intros H. destruct (IH H). split; [done | by right].
  - intros [= <- _]. split; [lia | left].
Qed.

Lemma visit_nested b x top (rest : list nat) :
  isScopeSymbol x = true ->
  pop_closed (store b) (scopeStack b) (line x) = top :: rest ->
  visit b x
  = mkBuilder (alter (push_child (length (store b))) top (store b)
               ++ [mkScope (name x) (kind x) (line x) (line x) [x] [] (Some top)])
              (scopes b) (length (store b) :: top :: rest).
Proof.
  intros Hx Hpop. unfold visit. rewrite Hx, Hpop. cbn [scopeStack store scopes].
  f_equal.
  rewrite <- (length_alter (push_child (length (store b))) (store b) top) at 1.
  rewrite <- (Nat.add_0_r (length (alter _ top (store b)))).
  by rewrite alter_app_r.
Qed.

Lemma visit_root b x :
  isScopeSymbol x = true ->
  pop_closed (store b) (scopeStack b) (line x) = [] ->
  visit b x
  = mkBuilder (store b ++ [mkScope (name x) (kind x) (line x) (line x) [x] [] None])
              (scopes b ++ [length (store b)]) [length (store b)].
Proof.
  intros Hx Hpop. unfold visit. rewrite Hx, Hpop. cbn [scopeStack store scopes].
  f_equal. rewrite <- (Nat.add_0_r (length (store b))). by rewrite alter_app_r.
Qed.

Lemma visit_under_construction b x lo :
  builder_ok b -> under_construction lo (store b) -> lo <= line x ->
  under_construction (line x) (store (visit b x)).
Proof.
  intros [Hwl Hstack] Huc Hlo.
  destruct (isScopeSymbol x) eqn:Hx.
  - destruct (pop_closed (store b) (scopeStack b) (line x)) as [|top rest] eqn:Hpop.
    + rewrite (visit_root b x Hx Hpop). cbn [store].
      by apply (under_construction_snoc lo).
    + rewrite (visit_nested b x top rest Hx Hpop). cbn [store].
      destruct (pop_closed_head _ _ _ _ _ Hpop) as [Hend Htop].
      rewrite Forall_forall in Hstack. specialize (Hstack top Htop).
      destruct (lookup_lt_is_Some_2 _ _ Hstack) as [ps Hps].
      unfold endLine_at in Hend. rewrite Hps in Hend.
      destruct (Huc top ps Hps) as (He & Hstart & _).
      rewrite <- alter_app_l by done.
      apply (under_construction_alter (line x)).
      * apply (under_construction_snoc lo); [done .. |].
        intros top' [= <-]. exists ps. split; [done | lia].
      * done.
      * intros s Hs. split; [exists []; by rewrite app_nil_r |].
        intros c Hc. cbn in Hc. apply elem_of_app in Hc as [Hc | Hc]; [by left | right].
        apply list_elem_of_singleton in Hc as ->.
        exists (mkScope (name x) (kind x) (line x) (line x) [x] [] (Some top)).
        split; [| done].
        rewrite lookup_app_r by done. by rewrite Nat.sub_diag.
  - unfold visit. rewrite Hx.
    destruct (scopeStack b) as [|top rest] eqn:Hst; cbn [store].
    + by apply (under_construction_mono lo).
    + apply (under_construction_alter (line x)).
      * by apply (under_construction_mono lo).
      * done.
      * intros s Hs. split; [| by left].
        exists [x]. split; [done |]. constructor; [| constructor].
        destruct (Huc top s Hs) as (_ & Hstart & _). lia.
Qed.

Lemma foldl_visit_under_construction (syms : list Symbol) : forall b lo,
  StronglySorted (fun a c => line a <= line c) syms ->
  Forall (fun x => lo <= line x) syms ->
  builder_ok b -> under_construction lo (store b) ->
  exists lo', under_construction lo' (store (foldl visit b syms)).
Proof.
  induction syms as [|x syms IH]; intros b lo Hsorted Hlo Hb Huc; [by exists lo |].
  apply StronglySorted_inv in Hsorted as [Hsorted Hx].
  apply Forall_cons in Hlo as [Hlox _].
  apply (IH (visit b x) (line x)); [done | done | by apply visit_ok |].
  by apply (visit_under_construction b x lo).
Qed.

Lemma backfilled_refl s : backfilled s s.
Proof. unfold backfilled. tauto. Qed.

Lemma backfilled_backfill s s' : backfilled s s' -> backfilled s (backfill s').
Proof.
  intros (Hn & Ht & Hl & Hs & Hc & Hp & He). unfold backfill.
  destruct (last _) as [lastSymbol|] eqn:Hlast; [| done].
  apply last_Some_elem_of, list_elem_of_In, filter_In in Hlast as [Hin Hpass].
  apply list_elem_of_In in Hin.
  apply andb_true_iff in Hpass as [Hline Hkind]. apply Z.leb_le in Hline.
  apply negb_true_iff in Hkind. apply String.eqb_neq in Hkind.
  unfold backfilled. cbn. repeat split; try done.
  right. exists lastSymbol. rewrite <- Hs, <- Hl, <- Ht. done.
Qed.

Lemma updateScopeEndLines_backfilled (fuel : nat) :
  forall (ids : list nat) (objs0 objs : list Scope),
    Forall2 backfilled objs0 objs ->
    Forall2 backfilled objs0 (updateScopeEndLines fuel objs ids).
Proof.
  induction fuel as [|fuel IH]; [done |].
  induction ids as [|i ids IHids]; intros objs0 objs H; [done |].
  rewrite updateScopeEndLines_S. apply IHids.
  destruct (objs !! i) as [scope|]; [| done].
  apply IH. apply Forall2_alter_r; [done |].
  intros s s' _ _. apply backfilled_backfill.
Qed.

Lemma built_tree (sm : state) (syms : list Symbol) (f : string) :
  exists lo (under : list Scope),
    under_construction lo under
    /\ Forall2 backfilled under (objects (buildScopeTree sm syms f).2).
Proof.
  unfold buildScopeTree, buildScopeTree_sorted. cbn [snd objects].
  pose proof (sort_ordered line by_line ltac:(done) syms) as Hsorted.
  set (sorted := JsArray.sort by_line syms) in *.
  set (b := foldl visit (mkBuilder [] [] []) sorted).
  assert (exists lo, under_construction lo (store b)) as [lo Hlo].
  { assert (builder_ok (mkBuilder [] [] [])) as Hok
      by (split; [intros i sc Hi; cbn in Hi; by rewrite lookup_nil in Hi | constructor]).
    assert (forall lo, under_construction lo (store (mkBuilder [] [] []))) as Hempty
      by (intros lo i s Hi; cbn in Hi; by rewrite lookup_nil in Hi).
    destruct sorted as [|x rest] eqn:Hs.
    - exists 0. apply Hempty.
    - apply (foldl_visit_under_construction (x :: rest) (mkBuilder [] [] []) (line x));
        [done | | done | done].
      apply StronglySorted_inv in Hsorted as [_ Hx].
      constructor; [lia | done]. }
  exists lo, (store b). split; [done |].
  apply updateScopeEndLines_backfilled. apply Forall2_same_length_lookup.
  split; [done |]. intros i s s' Hs Hs'. rewrite Hs in Hs'. injection Hs' as <-.
  apply backfilled_refl.
Qed.

Lemma built_tree_object (sm : state) (syms : list Symbol) (f : string) i s :
  let objs := objects (buildScopeTree sm syms f).2 in
  objs !! i = Some s ->
  startLine s <= endLine s
  /\ (exists opener rest,
        scopeSymbols s = opener :: rest /\ opened_by s opener
        /\ Forall (fun x => startLine s <= line x) rest
        /\ (endLine s = startLine s
            \/ exists x, x ∈ rest /\ kind x <> scopeType s /\ endLine s = line x))
  /\ (forall p, parent s = Some p ->
        exists ps, objs !! p = Some ps /\ startLine ps = startLine s)
  /\ (forall c, c ∈ children s ->
        exists sc, objs !! c = Some sc /\ parent sc = Some i
                   /\ startLine sc = startLine s).
Proof.
  intros objs Hs. destruct (built_tree sm syms f) as (lo & under & Huc & Hfill).
  fold objs in Hfill.
  destruct (Forall2_lookup_r _ _ _ _ _ Hfill Hs)
    as (s0 & Hs0 & (Hn & Ht & Hl & Hsym & Hc & Hp & He)).
  destruct (Huc i s0 Hs0) as (He0 & _ & (opener & rest & Hsym0 & Hop & Hrest) & Hpar & Hch).
  assert (forall j sj0, under !! j = Some sj0 ->
            exists sj, objs !! j = Some sj /\ startLine sj = startLine sj0
                       /\ parent sj = parent sj0) as Hfwd.
  { intros j sj0 Hj. destruct (Forall2_lookup_l _ _ _ _ _ Hfill Hj)
      as (sj & Hsj & (_ & _ & ? & _ & _ & ? & _)). eauto. }
  assert (endLine s = startLine s
          \/ exists x, x ∈ rest /\ kind x <> scopeType s /\ endLine s = line x) as Hend.
  { destruct He as [He | (x & Hx & Hline & Hkind & He)]; [left; congruence | right].
    exists x. rewrite Ht. split; [| done].
    rewrite Hsym0 in Hx. apply elem_of_cons in Hx as [-> | Hx]; [| done].
    destruct Hop as (_ & Hk & _). done. }
  split; [| split; [| split]].
  - destruct Hend as [-> | (x & Hx & _ & ->)]; [lia |].
    rewrite Forall_forall in Hrest. rewrite Hl. by apply Hrest.
  - exists opener, rest. rewrite Hsym, Hl. split; [done |]. split; [| split; [done |]].
    + destruct Hop as (? & ? & ? & ?). unfold opened_by. rewrite Hn, Ht, Hl. done.
    + by rewrite <- Hl.
  - intros p Hpp. rewrite Hp in Hpp. destruct (Hpar p Hpp) as (ps0 & Hps0 & Hline).
    destruct (Hfwd p ps0 Hps0) as (ps & Hps & Hl' & _). exists ps. split; [done | congruence].
  - intros c Hcc. rewrite Hc in Hcc. destruct (Hch c Hcc) as (sc0 & Hsc0 & Hpc).
    destruct (Hfwd c sc0 Hsc0) as (sc & Hsc & Hl' & Hp'). exists sc.
    split; [done |]. split; [congruence |].
    destruct (Huc c sc0 Hsc0) as (_ & _ & _ & Hparc & _).
    destruct (Hparc i Hpc) as (s0' & Hs0' & Hline). rewrite Hs0 in Hs0'.
    injection Hs0' as <-. congruence.
Qed.

Lemma hierarchy_on_one_line (sm : state) (syms : list Symbol) (f : string) :
  let objs := objects (buildScopeTree sm syms f).2 in
  forall i s a sa,
    objs !! i = Some s -> a ∈ ancestry objs i -> objs !! a = Some sa ->
    startLine sa = startLine s.
Proof.
  intros objs i. induction (lt_wf i) as [i _ IH]. intros s a sa Hs Ha Hsa.
  pose proof (buildScopeTree_well_linked sm syms f) as Hwl. fold objs in Hwl.
  assert (parent_at objs i = parent s) as Hp by (unfold parent_at; by rewrite Hs).
  destruct (parent s) as [p|] eqn:Hps.
  - rewrite (ancestry_child objs i p Hwl Hp) in Ha.
    apply elem_of_app in Ha as [Ha | Ha].
    + destruct (built_tree_object sm syms f i s Hs) as (_ & _ & Hpar & _).
      destruct (Hpar p Hps) as (ps & Hpp & Hline).
      destruct (parent_at_lt objs i p Hwl Hp) as [Hlt _].
      rewrite <- Hline. by apply (IH p Hlt ps a sa).
    + apply list_elem_of_singleton in Ha as ->. rewrite Hs in Hsa. by injection Hsa as <-.
  - rewrite (ancestry_root objs i Hp) in Ha.
    apply list_elem_of_singleton in Ha as ->. rewrite Hs in Hsa. by injection Hsa as <-.
Qed.

(** X12.  [buildScopeTree] nests a scope under another one only when both
    start on the same line: in every tree it builds, the parent of a
    scope, each of its children, and every scope of its hierarchy start
    on the line the scope starts on. *)
Theorem nested_scopes_share_a_line
    (sm : state) (syms : list Symbol) (f : string) i s :
  let objs := objects (buildScopeTree sm syms f).2 in
  objs !! i = Some s ->
  (forall p, parent s = Some p ->
     exists ps, objs !! p = Some ps /\ startLine ps = startLine s)
  /\ (forall c, c ∈ children s ->
       exists sc, objs !! c = Some sc /\ parent sc = Some i
                  /\ startLine sc = startLine s)
  /\ (forall r sa, r ∈ getScopeHierarchy (mkRef objs i) -> deref r = Some sa ->
       startLine sa = startLine s).
Proof.
  intros objs Hs.
  destruct (built_tree_object sm syms f i s Hs) as (_ & _ & Hpar & Hch).
  split; [done |]. split; [done |].
  intros r sa Hr Hsa. rewrite getScopeHierarchy_ancestry in Hr.
  apply list_elem_of_fmap in Hr as (a & -> & Ha).
  by apply (hierarchy_on_one_line sm syms f i s a sa).
Qed.

Lemma nested_scopes_share_a_line_witness :
  exists ps, objects Fixtures.one_line_tree !! 0%nat = Some ps
             /\ startLine ps = startLine Fixtures.scope_B.
Proof.
  refine (proj1 (nested_scopes_share_a_line empty Fixtures.one_line Fixtures.one_line_file
                   1 Fixtures.scope_B _) 0%nat _).
  - vm_compute. reflexivity.
  - reflexivity.
Defined.

(** X13.  Every scope of a tree built by [buildScopeTree] starts with the
    symbol it was created for, which is of one of the four scope kinds and
    gives the scope its name, type and start line; none of its symbols
    lies above its start line; and its end line is its start line, or the
    line of one of its other symbols whose kind differs from its type, so
    that a scope never ends before it starts. *)
Theorem scope_shape (sm : state) (syms : list Symbol) (f : string) i s :
  objects (buildScopeTree sm syms f).2 !! i = Some s ->
  startLine s <= endLine s
  /\ exists opener rest,
       scopeSymbols s = opener :: rest /\ opened_by s opener
       /\ Forall (fun x => startLine s <= line x) rest
       /\ (endLine s = startLine s
           \/ exists x, x ∈ rest /\ kind x <> scopeType s /\ endLine s = line x).
Proof.
  intros Hs. destruct (built_tree_object sm syms f i s Hs) as (Hle & Hshape & _). done.
Qed.

Lemma scope_shape_witness :
  startLine Fixtures.scope_f <= endLine Fixtures.scope_f
  /\ exists opener rest,
       scopeSymbols Fixtures.scope_f = opener :: rest /\ opened_by Fixtures.scope_f opener
       /\ Forall (fun x => startLine Fixtures.scope_f <= line x) rest
       /\ (endLine Fixtures.scope_f = startLine Fixtures.scope_f
           \/ exists x, x ∈ rest /\ kind x <> scopeType Fixtures.scope_f
                        /\ endLine Fixtures.scope_f = line x).
Proof.
  apply (scope_shape empty Fixtures.one_line Fixtures.one_line_file 2 Fixtures.scope_f).
  vm_compute. reflexivity.
Defined.
End TreeShape.

(** ** The Scope Registry *)

Section RegistryEntries.
Import ScopeManager ScopeQueries.
Implicit Types (g : gmap (option string) ScopeRef) (t : ScopeTree) (objs : list Scope)
               (ids : list nat) (fuel : nat) (n : option string).

Lemma registrations_valid objs : forall fuel ids n r,
  (n, r) ∈ registrations fuel objs ids ->
  ref_objects r = objs /\ exists s, deref r = Some s /\ scopeName s = n.
Proof.
  induction fuel as [|fuel IH]; intros ids n r; [by intros H; apply elem_of_nil in H |].
  induction ids as [|i ids IHids]; [by intros H; apply elem_of_nil in H |].
  rewrite registrations_S. intros H. apply elem_of_app in H as [H | H]; [| by apply IHids].
  destruct (objs !! i) as [scope|] eqn:Hi; [| by apply elem_of_nil in H].
  apply elem_of_cons in H as [[= -> ->] | H]; [| by apply (IH (children scope))].
  split; [done |]. exists scope. done.
Qed.

Lemma lookup_unbind g (names : list (option string)) n :
  unbind g names !! n = if bool_decide (n ∈ names) then None else g !! n.
Proof.
  unfold unbind. revert g. induction names as [|m names IH]; intros g; [done |].
  cbn [foldl]. rewrite IH.
  destruct (decide (n = m)) as [-> | Hne].
  - rewrite lookup_delete_eq. rewrite (bool_decide_eq_true_2 (m ∈ m :: names)) by left.
    by destruct (bool_decide _).
  - rewrite lookup_delete_ne by done.
    destruct (decide (n ∈ names)) as [Hin | Hout].
    + rewrite !bool_decide_eq_true_2; [done | by right | done].
    + rewrite !bool_decide_eq_false_2; [done | | done].
      intros [? | ?]%elem_of_cons; done.
Qed.

Lemma unbind_app g (l1 l2 : list (option string)) :
  unbind g (l1 ++ l2) = unbind (unbind g l1) l2.
Proof. apply foldl_app. Qed.

Lemma removeScopeFromGlobalIndex_from_unbind objs : forall fuel ids g,
  foldl (fun g i => removeScopeFromGlobalIndex_from fuel objs i g) g ids
  = unbind g (registrations fuel objs ids).*1.
Proof.
  induction fuel as [|fuel IH]; intros ids g.
  - cbn. induction ids as [|i ids IHids]; [done | by cbn].
  - revert g. induction ids as [|i ids IHids]; intros g; [done |].
    rewrite registrations_S, fmap_app, unbind_app. cbn [foldl]. rewrite IHids. f_equal.
    cbn [removeScopeFromGlobalIndex_from].
    destruct (objs !! i) as [scope|]; [| done].
    by rewrite IH.
Qed.

Lemma globalScopes_removeFile (sm : state) (f : string) t :
  fileScopes sm !! f = Some t ->
  globalScopes (removeFile sm f) = unbind (globalScopes sm) (names_of t).
Proof.
  intros Hf. unfold removeFile. rewrite Hf. cbn [globalScopes].
  apply removeScopeFromGlobalIndex_from_unbind.
Qed.

Lemma globalScopes_updateFile (sm : state) (f : string) t n :
  globalScopes (updateFile sm f t) !! n
  = match list_to_map (M := gmap (option string) ScopeRef)
            (reverse (registrations (length (objects t)) (objects t) (roots t))) !! n with
    | Some r => Some r
    | None => globalScopes sm !! n
    end.
Proof.
  unfold updateFile, updateGlobalScopes. cbn [globalScopes].
  rewrite updateGlobalScopes_from_registrations, foldl_register_union.
  rewrite lookup_union. by destruct (list_to_map _ !! n), (globalScopes sm !! n).
Qed.

(** X14.  [removeFile] unbinds, for the tree stored for the file, exactly
    the names [updateGlobalScopes] binds for that tree, whichever file
    bound them last, and leaves every other name as it was; the file is
    then no longer stored.  A file that is not stored changes nothing. *)
Theorem removeFile_unbinds_the_tree (sm : state) (f : string) :
  match fileScopes sm !! f with
  | None => removeFile sm f = sm
  | Some t =>
      fileScopes (removeFile sm f) = delete f (fileScopes sm)
      /\ forall n, findScopeByName (removeFile sm f) n
                   = if bool_decide (n ∈ names_of t) then None else findScopeByName sm n
  end.
Proof.
  destruct (fileScopes sm !! f) as [t|] eqn:Hf.
  - split; [unfold removeFile; by rewrite Hf |].
    intros n. unfold findScopeByName.
    rewrite (globalScopes_removeFile sm f t Hf). apply lookup_unbind.
  - unfold removeFile. by rewrite Hf.
Qed.

Lemma findScopeByName_updateFile (sm : state) (f : string) t n :
  if bool_decide (n ∈ names_of t)
  then exists r s, findScopeByName (updateFile sm f t) n = Some r
                   /\ ref_objects r = objects t /\ deref r = Some s /\ scopeName s = n
  else findScopeByName (updateFile sm f t) n = findScopeByName sm n.
Proof.
  unfold findScopeByName. rewrite globalScopes_updateFile.
  set (regs := registrations (length (objects t)) (objects t) (roots t)).
  destruct (list_to_map (reverse regs) !! n) as [r|] eqn:Hr.
  - apply elem_of_list_to_map_2 in Hr. rewrite elem_of_reverse in Hr.
    rewrite bool_decide_eq_true_2
      by (apply list_elem_of_fmap; exists (n, r); split; [done | exact Hr]).
    destruct (registrations_valid _ _ _ _ _ Hr) as (Hobjs & s & Hs & Hn).
    exists r, s. done.
  - apply not_elem_of_list_to_map_2 in Hr. rewrite fmap_reverse, elem_of_reverse in Hr.
    by rewrite bool_decide_eq_false_2.
Qed.

(** X15.  [updateFile] binds every name of the tree to a scope of that
    tree carrying the name and leaves the other names as they were;
    [removeFile] after it unbinds those names, so that a name of the tree
    that was bound before the update is lost. *)
Theorem updateFile_then_removeFile (sm : state) (f : string) t n :
  (if bool_decide (n ∈ names_of t)
   then exists r s, findScopeByName (updateFile sm f t) n = Some r
                    /\ ref_objects r = objects t /\ deref r = Some s /\ scopeName s = n
   else findScopeByName (updateFile sm f t) n = findScopeByName sm n)
  /\ findScopeByName (removeFile (updateFile sm f t) f) n
     = if bool_decide (n ∈ names_of t) then None else findScopeByName sm n.
Proof.
  split; [apply findScopeByName_updateFile |].
  unfold findScopeByName.
  rewrite (globalScopes_removeFile (updateFile sm f t) f t)
    by (unfold updateFile; cbn; apply lookup_insert_eq).
  rewrite lookup_unbind. destruct (bool_decide _) eqn:Hn; [done |].
  rewrite globalScopes_updateFile.
  apply bool_decide_eq_false_1 in Hn.
  assert (list_to_map (M := gmap (option string) ScopeRef)
            (reverse (registrations (length (objects t)) (objects t) (roots t))) !! n
          = None) as ->; [| done].
  apply not_elem_of_list_to_map_1. by rewrite fmap_reverse, elem_of_reverse.
Qed.

Lemma registry_valid_updateFile (sm : state) (f : string) (syms : list Symbol) :
  registry_valid (globalScopes sm) ->
  registry_valid (globalScopes (updateFile sm f (buildScopeTree empty syms f).2)).
Proof.
  intros H n r. rewrite globalScopes_updateFile.
  set (t := (buildScopeTree empty syms f).2).
  destruct (list_to_map _ !! n) as [r'|] eqn:Hr; [| apply H].
  intros [= ->]. apply elem_of_list_to_map_2 in Hr. rewrite elem_of_reverse in Hr.
  destruct (registrations_valid _ _ _ _ _ Hr) as (Hobjs & s & Hs & Hn).
  exists syms, s. done.
Qed.

Lemma registry_valid_removeFile (sm : state) (f : string) :
  registry_valid (globalScopes sm) -> registry_valid (globalScopes (removeFile sm f)).
Proof.
  intros H n r. destruct (fileScopes sm !! f) as [t|] eqn:Hf.
  - rewrite (globalScopes_removeFile sm f t Hf), lookup_unbind.
    destruct (bool_decide _); [done | apply H].
  - unfold removeFile. rewrite Hf. apply H.
Qed.

Lemma registry_valid_run (events : list Extension.event) :
  registry_valid (globalScopes (Extension.scopeManager (Extension.run events))).
Proof.
  induction events as [|e events IH] using rev_ind.
  - intros n r Hr. cbn in Hr. by rewrite lookup_empty in Hr.
  - unfold Extension.run. rewrite foldl_app. cbn [foldl].
    fold (Extension.run events). destruct e as [f [syms|] | f]; cbn [Extension.handle].
    + rewrite analyzeFile_unfold. cbv zeta. cbn [Extension.scopeManager].
      by do 2 apply registry_valid_updateFile.
    + done.
    + by apply registry_valid_removeFile.
Qed.

(** X16.  After any sequence of analyses and deletions, a name bound in
    the registry leads to a scope carrying that name; [findSymbolsInScope]
    of the name starts with the symbol the scope was created for, which
    carries the name, and [findChildScopes] returns scopes starting on
    the line the scope starts on.  For a name that is not bound both
    return nothing. *)
Theorem registered_scope_lookups (events : list Extension.event) n :
  let sm := Extension.scopeManager (Extension.run events) in
  match findScopeByName sm n with
  | None => findSymbolsInScope sm n = [] /\ findChildScopes sm n = []
  | Some r =>
      exists s opener rest,
        deref r = Some s /\ scopeName s = n
        /\ findSymbolsInScope sm n = opener :: rest
        /\ name opener = n /\ isScopeSymbol opener = true /\ line opener = startLine s
        /\ forall c, c ∈ findChildScopes sm n ->
             exists sc, deref c = Some sc /\ startLine sc = startLine s
  end.
Proof.
  intros sm. pose proof (registry_valid_run events n) as Hvalid. fold sm in Hvalid.
  unfold findScopeByName, findSymbolsInScope, findChildScopes.
  destruct (globalScopes sm !! n) as [r|]; [| done].
  destruct (Hvalid r eq_refl) as (syms & s & Hobjs & Hs & Hn).
  rewrite Hs. unfold deref in Hs. rewrite Hobjs in Hs.
  destruct (built_tree_object empty syms EmptyString (ref_index r) s Hs)
    as (_ & (opener & rest & Hsym & (Ho1 & _ & Ho3 & Ho4) & _) & _ & Hch).
  exists s, opener, rest. repeat split; try done; try congruence.
  intros c Hc. apply list_elem_of_fmap in Hc as (ci & -> & Hci).
  destruct (Hch ci Hci) as (sc & Hsc & _ & Hline).
  exists sc. unfold deref. cbn. rewrite Hobjs. done.
Qed.
End RegistryEntries.

(** ** What the resolver returns *)

Section ResolverResults.
Import Extension.

Lemma symbolDb_run (events : list event) :
  exists ops, symbolDb (run events) = SymbolDatabase.run ops.
Proof.
  induction events as [|e events [ops IH]] using rev_ind; [by exists [] |].
  unfold run. rewrite foldl_app. cbn [foldl]. fold (run events).
  destruct e as [f [syms|] | f]; cbn [handle].
  - exists (ops ++ [SymbolDatabase.UpdateFile f syms]).
    rewrite run_snoc, <- IH. by rewrite analyzeFile_unfold.
  - by exists ops.
  - exists (ops ++ [SymbolDatabase.RemoveFile f]). by rewrite run_snoc, <- IH.
Qed.

Lemma locations_provideDefinition
    (st0 : state) (fileName : string) (parsed : option (list Symbol))
    (word : string) (positionLine : Z) (loc : Location) :
  loc ∈ locations (provideDefinition st0 fileName parsed (Some word) positionLine).2 ->
  exists d, loc = location_of d
            /\ d ∈ candidates (analyzeFile st0 fileName parsed) word.
Proof.
  rewrite provideDefinition_result. cbv zeta.
  set (st := analyzeFile st0 fileName parsed).
  destruct (candidates st word) as [|d0 defs] eqn:Hdefs; [by intros H; apply elem_of_nil in H |].
  assert (locations
            match location_of <$> top st fileName word positionLine with
            | [l] => OneLocation l
            | ls => Locations ls
            end = location_of <$> top st fileName word positionLine) as ->
    by (by destruct (location_of <$> top st fileName word positionLine) as [|? [|? ?]]).
  intros Hloc. apply list_elem_of_fmap in Hloc as (d & -> & Hd).
  exists d. split; [done |].
  destruct (ranking_spec st fileName word positionLine) as (sorted & Hperm & _ & _ & Htop).
  rewrite Htop in Hd. apply elem_of_take in Hd as (i & Hd & _).
  apply list_elem_of_lookup_2 in Hd. rewrite Hperm, Hdefs in Hd. done.
Qed.


(** X18.  The unqualified name of an identifier holds no ["::"]; an
    identifier without ["::"] is its own unqualified name; a qualified
    identifier is the qualifier the scoring uses, ["::"] and its
    unqualified name; and taking the unqualified name twice changes
    nothing. *)
Theorem unqualified_name_splits (word : string) :
  JsString.includes (getUnqualifiedName word) "::" = false
  /\ getUnqualifiedName (getUnqualifiedName word) = getUnqualifiedName word
  /\ (if JsString.includes word "::"
      then word = String.append (Resolver.qualifier_of word)
                    (String.append "::" (getUnqualifiedName word))
      else getUnqualifiedName word = word).
Proof.
  assert (JsString.includes (getUnqualifiedName word) "::" = false) as Hno.
  { destruct (JsString.includes word "::") eqn:Hq.
    - by apply qualified_split.
    - by rewrite getUnqualifiedName_unqualified. }
  split; [done |]. split; [by apply getUnqualifiedName_unqualified |].
  destruct (JsString.includes word "::") eqn:Hq.
  - by apply qualified_split.
  - by apply getUnqualifiedName_unqualified.
Qed.
End ResolverResults.

(** ** Duplicate symbols *)

Section Duplicates.
Import SymbolDatabase SymbolQueries CodeAnalyzer.
Implicit Types (groups : list (option string * list Symbol)) (s : Symbol)
               (n : option string) (syms all : list Symbol).

Lemma group_push_keys groups s :
  (group_push groups s).*1
  = if decide (name s ∈ groups.*1) then groups.*1 else groups.*1 ++ [name s].
Proof.
  induction groups as [|[m l] groups IH]; [done |]. cbn [group_push].
  destruct (decide (m = name s)) as [-> | Hne].
  - cbn. rewrite decide_True by left. done.
  - cbn. rewrite IH. destruct (decide (name s ∈ groups.*1)) as [Hin | Hout].
    + rewrite decide_True by (by right). done.
    + rewrite decide_False; [done |]. intros [? | ?]%elem_of_cons; done.
Qed.

Lemma elem_of_group_push groups s n syms :
  NoDup groups.*1 ->
  (n, syms) ∈ group_push groups s
  <-> if decide (n = name s)
      then (exists old, (n, old) ∈ groups /\ syms = old ++ [s])
           \/ ((n ∉ groups.*1) /\ syms = [s])
      else (n, syms) ∈ groups.
Proof.
  induction groups as [|[m l] groups IH]; intros Hnd.
  - cbn [group_push]. rewrite list_elem_of_singleton.
    destruct (decide (n = name s)) as [-> | Hne].
    + split.
      * intros [= ->]. right. split; [by intros H; apply elem_of_nil in H | done].
      * intros [(old & Hold & _) | [_ ->]]; [by apply elem_of_nil in Hold | done].
    + split; [by intros [= -> _] | by intros H; apply elem_of_nil in H].
  - apply NoDup_cons in Hnd as [Hm Hnd]. specialize (IH Hnd).
    assert (forall old, (m, old) ∉ groups) as Hfresh.
    { intros old Hold. apply Hm. apply list_elem_of_fmap. by exists (m, old). }
    cbn [group_push]. destruct (decide (m = name s)) as [-> | Hms].
    + rewrite elem_of_cons. destruct (decide (n = name s)) as [-> | Hne].
      * split.
        -- intros [[= ->] | Hin]; [| by apply Hfresh in Hin].
           left. exists l. split; [left | done].
        -- intros [(old & Hold & ->) | [Hout _]].
           ++ apply elem_of_cons in Hold as [[= ->] | Hold]; [by left | by apply Hfresh in Hold].
           ++ destruct Hout. left.
      * rewrite elem_of_cons. split.
        -- intros [[= ? ?] | Hin]; [done | by right].
        -- intros [[= ? ?] | Hin]; [done | by right].
    + rewrite elem_of_cons, IH. destruct (decide (n = name s)) as [-> | Hne].
      * split.
        -- intros [[= ? _] | [(old & Hold & ->) | [Hout ->]]]; [done | |].
           ++ left. exists old. split; [by right | done].
           ++ right. split; [| done]. intros [? | ?]%elem_of_cons; done.
        -- intros [(old & Hold & ->) | [Hout ->]].
           ++ apply elem_of_cons in Hold as [[= ? _] | Hold]; [done |]. right. left. eauto.
           ++ right. right. split; [| done]. intros Hin. apply Hout. by right.
      * by rewrite elem_of_cons.
Qed.

Lemma named_singleton n s : named n [s] = if decide (name s = n) then [s] else [].
Proof. unfold named. cbn. by destruct (decide (name s = n)). Qed.

Lemma grouped_push groups all s :
  grouped groups all -> grouped (group_push groups s) (all ++ [s]).
Proof.
  intros [Hnd Hgroups].
  assert (forall n, n ∈ groups.*1 <-> named n all <> []) as Hkeys.
  { intros n. rewrite list_elem_of_fmap. split.
    - intros ([m l] & -> & Hin). cbn. apply Hgroups in Hin as [<- Hne]. done.
    - intros Hne. exists (n, named n all). split; [done |]. by apply Hgroups. }
  split.
  - rewrite group_push_keys. destruct (decide (name s ∈ groups.*1)); [done |].
    apply NoDup_app. split; [done |]. split; [| apply NoDup_singleton].
    intros m Hm Hs. apply list_elem_of_singleton in Hs as ->. done.
  - intros n syms. rewrite (elem_of_group_push groups s n syms Hnd).
    rewrite named_app, named_singleton.
    destruct (decide (n = name s)) as [-> | Hne].
    + rewrite decide_True by done. split.
      * intros [(old & Hold & ->) | [Hout ->]].
        -- apply Hgroups in Hold as [-> _]. split; [done |]. by destruct (named _ all).
        -- assert (named (name s) all = []) as ->; [| done].
           destruct (named (name s) all) eqn:Hn; [done |].
           destruct Hout. apply Hkeys. by rewrite Hn.
      * intros [-> _]. destruct (named (name s) all) as [|x l] eqn:Hn.
        -- right. split; [| done]. rewrite Hkeys, Hn. tauto.
        -- left. exists (x :: l). split; [| done]. apply Hgroups. by rewrite Hn.
    + rewrite decide_False by done. by rewrite app_nil_r.
Qed.

Lemma grouped_symbolGroups all : grouped (symbolGroups all) all.
Proof.
  unfold symbolGroups. induction all as [|s all IH] using rev_ind.
  - split; [constructor |]. intros n syms. split.
    + by intros H; apply elem_of_nil in H.
    + intros [-> H]. done.
  - rewrite foldl_app. by apply grouped_push.
Qed.

Lemma symbolGroups_keys all : forall groups (seen : list (option string)),
  (forall n, n ∈ seen <-> n ∈ groups.*1) ->
  (foldl group_push groups all).*1 = groups.*1 ++ first_occurrences_from seen all.
Proof.
  induction all as [|s all IH]; intros groups seen Hseen; [by rewrite app_nil_r |].
  cbn [foldl first_occurrences_from].
  destruct (decide (name s ∈ seen)) as [Hin | Hout].
  - rewrite (IH (group_push groups s) seen).
    + rewrite group_push_keys, decide_True by (by apply Hseen). done.
    + intros n. rewrite group_push_keys, decide_True by (by apply Hseen). apply Hseen.
  - assert (name s ∉ groups.*1) as Hout' by (by rewrite <- Hseen).
    rewrite (IH (group_push groups s) (name s :: seen)).
    + rewrite group_push_keys, decide_False by done. by rewrite <- app_assoc.
    + intros n. rewrite group_push_keys, decide_False by done.
      rewrite elem_of_cons, elem_of_app, list_elem_of_singleton, Hseen. tauto.
Qed.

Lemma duplicate_names all groups :
  (forall n syms, (n, syms) ∈ groups -> syms = named n all) ->
  (List.filter (fun group => 1 <? Z.of_nat (length group.2)) groups).*1
  = filter (fun n => (1 < length (named n all))%nat) groups.*1.
Proof.
  induction groups as [|[n syms] groups IH]; intros Hgroups; [done |].
  cbn [List.filter]. rewrite fmap_cons, filter_cons. cbn [fst snd].
  rewrite <- IH by (intros m l Hm; apply Hgroups; by right).
  rewrite <- (Hgroups n syms) by left.
  destruct (Z.ltb_spec 1 (Z.of_nat (length syms))).
  - rewrite decide_True by lia. done.
  - rewrite decide_False by lia. done.
Qed.

(** X19.  [findDuplicateSymbols] reports a name exactly when more than one
    record of [getAllSymbols] carries it, each name once; the group
    reported for a name is the list of the records of that name in the
    order of [getAllSymbols]; and the groups come in the order in which
    the names first occur in [getAllSymbols]. *)
Theorem findDuplicateSymbols_groups (o : OrderedIndex.state) :
  let all := OrderedIndex.getAllSymbols o in
  NoDup (findDuplicateSymbols o).*1
  /\ (forall n syms,
        (n, syms) ∈ findDuplicateSymbols o
        <-> syms = named n all /\ (1 < length syms)%nat)
  /\ (findDuplicateSymbols o).*1
     = filter (fun n => (1 < length (named n all))%nat) (first_occurrences all).
Proof.
  intros all. destruct (grouped_symbolGroups all) as [Hnd Hgroups].
  unfold findDuplicateSymbols. fold all. split; [| split].
  - apply (sublist_NoDup _ _ Hnd). apply fmap_sublist.
    generalize (symbolGroups all). intros groups.
    induction groups as [|g groups IH]; [constructor |]. cbn [List.filter].
    destruct (1 <? Z.of_nat (length g.2)); [by apply sublist_skip | by apply sublist_cons].
  - intros n syms. rewrite elem_of_List_filter, Hgroups. cbn [snd].
    rewrite Z.ltb_lt. split.
    + intros [Hlen [-> _]]. split; [done | lia].
    + intros [-> Hlen]. split; [lia |]. split; [done |].
      intros Hnil. rewrite Hnil in Hlen. cbn in Hlen. lia.
  - rewrite (duplicate_names all) by (intros n syms Hn; by apply Hgroups in Hn as [-> _]).
    f_equal. unfold symbolGroups, first_occurrences.
    by rewrite (symbolGroups_keys all [] []).
Qed.
End Duplicates.

(** ** [Array.prototype.sort] with a comparator that is a total preorder *)

Section SortByOrder.
Context {A : Type} (cmp : A -> A -> Z).
Hypothesis cmp_total : forall a b, cmp a b <= 0 \/ cmp b a <= 0.
Hypothesis cmp_trans : forall a b c, cmp a b <= 0 -> cmp b c <= 0 -> cmp a c <= 0.
Implicit Types (x y : A) (l : list A).

Lemma insert_sorted_sorted x l :
  StronglySorted (fun a b => cmp a b <= 0) l ->
  StronglySorted (fun a b => cmp a b <= 0) (JsArray.insert_sorted cmp x l).
Proof.
  induction 1 as [|y l Hl IH Hy]; simpl.
  - repeat constructor.
  - destruct (Z.leb_spec (cmp x y) 0) as [Hle | Hgt].
    + constructor; [by constructor |].
      constructor; [done |]. eapply Forall_impl; [exact Hy |]. simpl. eauto.
    + constructor; [done |]. rewrite insert_sorted_perm. constructor; [| done].
      destruct (cmp_total x y); [lia | done].
Qed.

Lemma sort_sorted l : StronglySorted (fun a b => cmp a b <= 0) (JsArray.sort cmp l).
Proof.
  unfold JsArray.sort. induction l as [|x l IH]; simpl; [constructor |].
  by apply insert_sorted_sorted.
Qed.

(** Stability: rows that the comparator does not tell apart keep their
    relative order. *)
Lemma insert_sorted_keeps (P : A -> Prop) `{!forall a, Decision (P a)} x l :
  (forall y, P x -> P y -> cmp x y <= 0) ->
  filter P (JsArray.insert_sorted cmp x l) = filter P (x :: l).
Proof.
  intros Hclass. induction l as [|y l IH]; [done |]. simpl.
  destruct (Z.leb_spec (cmp x y) 0) as [Hle | Hgt]; [done |].
  rewrite !filter_cons, IH, filter_cons.
  repeat case_decide; try done.
  assert (cmp x y <= 0) by (by apply Hclass). lia.
Qed.

Lemma sort_keeps (P : A -> Prop) `{!forall a, Decision (P a)} l :
  (forall x y, P x -> P y -> cmp x y <= 0) ->
  filter P (JsArray.sort cmp l) = filter P l.
Proof.
  intros Hclass. unfold JsArray.sort. induction l as [|x l IH]; [done |].
  simpl. rewrite insert_sorted_keeps by (intros y; apply Hclass).
  by rewrite !filter_cons, IH.
Qed.
End SortByOrder.

(** ** The lookup in the index file *)

Section IndexFile.
Import IndexLookup.
Implicit Types (rows : list DefRow) (identifier currentFile : string) (a b c : DefRow).

Lemma compare_spec currentFile a b :
  compare currentFile a b <= 0 <-> ranks_before currentFile a b.
Proof.
  unfold compare, ranks_before.
  destruct (Z.eqb_spec (file_rank currentFile a - file_rank currentFile b) 0); lia.
Qed.

Lemma compare_total currentFile a b :
  compare currentFile a b <= 0 \/ compare currentFile b a <= 0.
Proof. rewrite !compare_spec. unfold ranks_before. lia. Qed.

Lemma compare_trans currentFile a b c :
  compare currentFile a b <= 0 -> compare currentFile b c <= 0 ->
  compare currentFile a c <= 0.
Proof. rewrite !compare_spec. unfold ranks_before. lia. Qed.

End IndexFile.

(** ** Every scope of a file is registered *)

Section Reach.
Import ScopeManager ScopeQueries.
Implicit Types (objs : list Scope) (b : builder) (x : Symbol) (ids : list nat)
               (i fuel : nat) (s : Scope).

Lemma attached_alter (top_level : list nat) objs (g : Scope -> Scope) (top : nat) :
  (forall s c, c ∈ children s -> c ∈ children (g s)) ->
  attached top_level objs -> attached top_level (alter g top objs).
Proof.
  intros Hg H i Hi. rewrite length_alter in Hi.
  destruct (H i Hi) as [Hroot | (p & sp & Hp & Hc)]; [by left | right].
  destruct (lookup_alter_fwd objs g top p sp Hp) as (sp' & Hsp' & [-> | ->]); eauto.
Qed.

Lemma attached_visit b x :
  builder_ok b -> attached (scopes b) (store b) ->
  attached (scopes (visit b x)) (store (visit b x)).
Proof.
  intros [Hwl Hstack] H.
  destruct (isScopeSymbol x) eqn:Hx.
  - destruct (pop_closed (store b) (scopeStack b) (line x)) as [|top rest] eqn:Hpop.
    + rewrite (visit_root b x Hx Hpop). cbn [store scopes].
      intros i Hi. rewrite length_app in Hi. cbn in Hi.
      destruct (decide (i = length (store b))) as [-> | Hne].
      * left. apply elem_of_app. right. left.
      * destruct (H i ltac:(lia)) as [Hroot | (p & sp & Hp & Hc)].
        -- left. apply elem_of_app. by left.
        -- right. exists p, sp. split; [by apply lookup_app_l_Some | done].
    + rewrite (visit_nested b x top rest Hx Hpop). cbn [store scopes].
      destruct (pop_closed_head _ _ _ _ _ Hpop) as [_ Htop].
      rewrite Forall_forall in Hstack. specialize (Hstack top Htop).
      destruct (lookup_lt_is_Some_2 _ _ Hstack) as [ps Hps].
      intros i Hi. rewrite length_app, length_alter in Hi. cbn in Hi.
      destruct (decide (i = length (store b))) as [-> | Hne].
      * right. exists top, (push_child (length (store b)) ps). split.
        -- apply lookup_app_l_Some. by rewrite list_lookup_alter_eq, Hps.
        -- cbn. apply elem_of_app. right. left.
      * assert (attached (scopes b) (alter (push_child (length (store b))) top (store b)))
          as H' by (apply attached_alter; [intros s c Hc; cbn; apply elem_of_app; by left | done]).
        destruct (H' i ltac:(rewrite length_alter; lia)) as [Hroot | (p & sp & Hp & Hc)];
          [by left | right].
        exists p, sp. split; [by apply lookup_app_l_Some | done].
  - unfold visit. rewrite Hx.
    destruct (scopeStack b) as [|top rest] eqn:Hst; cbn [store scopes]; [done |].
    by apply attached_alter.
Qed.

Lemma attached_foldl_visit (syms : list Symbol) : forall b,
  builder_ok b -> attached (scopes b) (store b) ->
  attached (scopes (foldl visit b syms)) (store (foldl visit b syms)).
Proof.
  induction syms as [|x syms IH]; intros b Hb H; [done |].
  cbn [foldl]. apply IH; [by apply visit_ok | by apply attached_visit].
Qed.

Lemma names_alter objs (g : Scope -> Scope) (top : nat) :
  (forall s, scopeName (g s) = scopeName s) ->
  scopeName <$> alter g top objs = scopeName <$> objs.
Proof.
  intros Hg. apply list_eq. intros i. rewrite !list_lookup_fmap.
  destruct (decide (i = top)) as [-> | Hne].
  - rewrite list_lookup_alter_eq. destruct (objs !! top); cbn; [by rewrite Hg | done].
  - by rewrite list_lookup_alter_ne.
Qed.

Lemma names_visit b x :
  scopeName <$> store (visit b x)
  = (scopeName <$> store b) ++ (if isScopeSymbol x then [name x] else []).
Proof.
  destruct (isScopeSymbol x) eqn:Hx.
  - destruct (pop_closed (store b) (scopeStack b) (line x)) as [|top rest] eqn:Hpop.
    + rewrite (visit_root b x Hx Hpop). cbn [store]. by rewrite fmap_app.
    + rewrite (visit_nested b x top rest Hx Hpop). cbn [store].
      by rewrite fmap_app, names_alter.
  - unfold visit. rewrite Hx, app_nil_r.
    destruct (scopeStack b) as [|top rest]; cbn [store]; [done |].
    by rewrite names_alter.
Qed.

Lemma names_foldl_visit (syms : list Symbol) : forall b,
  scopeName <$> store (foldl visit b syms)
  = (scopeName <$> store b) ++ (name <$> List.filter isScopeSymbol syms).
Proof.
  induction syms as [|x syms IH]; intros b; [by rewrite app_nil_r |].
  cbn [foldl List.filter]. rewrite IH, names_visit, <- app_assoc.
  by destruct (isScopeSymbol x).
Qed.

Lemma descends_step objs ids p sp i :
  descends objs ids p -> objs !! p = Some sp -> i ∈ children sp -> descends objs ids i.
Proof.
  induction 1 as [ids p Hp | ids j sj p Hj Hsj _ IH]; intros Hsp Hi.
  - eapply descends_child; [exact Hp | exact Hsp |]. by apply descends_here.
  - eapply descends_child; [exact Hj | exact Hsj |]. by apply IH.
Qed.

Lemma attached_descends (top_level : list nat) objs :
  well_linked objs -> attached top_level objs ->
  forall i, (i < length objs)%nat -> descends objs top_level i.
Proof.
  intros Hwl H i. induction (lt_wf i) as [i _ IH]. intros Hi.
  destruct (H i Hi) as [Hroot | (p & sp & Hp & Hc)]; [by apply descends_here |].
  destruct (Hwl p sp Hp) as [Hfwd _]. rewrite Forall_forall in Hfwd.
  specialize (Hfwd i Hc). apply (descends_step objs top_level p sp i); [| done | done].
  apply IH; [done |]. by eapply lookup_lt_Some.
Qed.

Lemma descends_registered objs : well_linked objs ->
  forall ids i, descends objs ids i ->
  forall fuel s,
    Forall (fun j => (length objs <= j + fuel)%nat) ids ->
    objs !! i = Some s ->
    (scopeName s, mkRef objs i) ∈ registrations fuel objs ids.
Proof.
  intros Hwl ids i. induction 1 as [ids i Hi | ids j sj i Hj Hsj _ IH]; intros fuel s Hids Hs.
  - rewrite Forall_forall in Hids. specialize (Hids i Hi).
    apply lookup_lt_Some in Hs as Hlt.
    destruct fuel as [|fuel]; [lia |]. cbn [registrations].
    apply list_elem_of_bind. exists i. split; [| done]. rewrite Hs. left.
  - rewrite Forall_forall in Hids. specialize (Hids j Hj).
    apply lookup_lt_Some in Hsj as Hlt.
    destruct fuel as [|fuel]; [lia |]. cbn [registrations].
    apply list_elem_of_bind. exists j. split; [| done]. rewrite Hsj. right.
    apply IH; [| done].
    destruct (Hwl j sj Hsj) as [Hfwd _]. eapply Forall_impl; [exact Hfwd |].
    intros c Hc. cbn in Hc. lia.
Qed.

Lemma built_tree_reach (sm : state) (syms : list Symbol) (f : string) :
  let t := (buildScopeTree sm syms f).2 in
  scopeName <$> objects t = name <$> List.filter isScopeSymbol (JsArray.sort by_line syms)
  /\ forall i s, objects t !! i = Some s ->
       (scopeName s, mkRef (objects t) i)
       ∈ registrations (length (objects t)) (objects t) (roots t).
Proof.
  intros t.
  pose proof (buildScopeTree_well_linked sm syms f) as Hwl. fold t in Hwl.
  unfold t, buildScopeTree, buildScopeTree_sorted in *. cbn [snd objects roots] in *.
  set (b := foldl visit (mkBuilder [] [] []) (JsArray.sort by_line syms)) in *.
  set (objs := updateScopeEndLines (length (store b)) (store b) (scopes b)) in *.
  assert (Forall2 backfilled (store b) objs) as Hfill.
  { apply updateScopeEndLines_backfilled. apply Forall2_same_length_lookup.
    split; [done |]. intros i s s' Hs Hs'. rewrite Hs in Hs'. injection Hs' as <-.
    apply backfilled_refl. }
  assert (builder_ok (mkBuilder [] [] [])) as Hok
    by (split; [intros i sc Hi; cbn in Hi; by rewrite lookup_nil in Hi | constructor]).
  split.
  - transitivity (scopeName <$> store b).
    + apply list_eq. intros i. rewrite !list_lookup_fmap.
      destruct (objs !! i) as [s'|] eqn:Hs'.
      * destruct (Forall2_lookup_r _ _ _ _ _ Hfill Hs') as (s & -> & (Hn & _)).
        cbn. by rewrite Hn.
      * apply lookup_ge_None in Hs'. rewrite <- (Forall2_length _ _ _ Hfill) in Hs'.
        by rewrite (lookup_ge_None_2 (store b) i).
    + unfold b. by rewrite names_foldl_visit.
  - assert (attached (scopes b) objs) as Hatt.
    { assert (attached (scopes b) (store b)) as H0.
      { apply attached_foldl_visit; [done |]. intros i Hi. cbn in Hi. lia. }
      intros i Hi. rewrite <- (Forall2_length _ _ _ Hfill) in Hi.
      destruct (H0 i Hi) as [Hroot | (p & sp & Hp & Hc)]; [by left | right].
      destruct (Forall2_lookup_l _ _ _ _ _ Hfill Hp) as (sp' & Hp' & (_ & _ & _ & _ & Hch & _)).
      exists p, sp'. split; [done | by rewrite Hch]. }
    intros i s Hs. apply (descends_registered objs Hwl (scopes b) i); [| | done].
    + apply attached_descends; [done | done | by eapply lookup_lt_Some].
    + apply Forall_forall. intros j _. lia.
Qed.

(** X21.  [buildScopeTree] creates one scope for each symbol of kind
    namespace, class, struct or function, in the order of the lines, and
    registers every one of them: the names the tree binds are the names
    of those symbols, and after the call [findScopeByName] finds, for each
    of them, a scope of the new tree that carries its name. *)
Theorem every_scope_is_registered (sm : state) (syms : list Symbol) (f : string) :
  let t := (buildScopeTree sm syms f).2 in
  let sm' := (buildScopeTree sm syms f).1 in
  scopeName <$> objects t = name <$> List.filter isScopeSymbol (JsArray.sort by_line syms)
  /\ (forall n, n ∈ names_of t
                <-> exists x, x ∈ syms /\ isScopeSymbol x = true /\ name x = n)
  /\ Forall (fun x => isScopeSymbol x = true ->
                      exists r s, findScopeByName sm' (name x) = Some r
                                  /\ ref_objects r = objects t
                                  /\ deref r = Some s /\ scopeName s = name x)
            syms.
Proof.
  intros t sm'. destruct (built_tree_reach sm syms f) as [Hnames Hreach].
  fold t in Hnames, Hreach.
  assert (forall n, n ∈ names_of t
                    <-> exists x, x ∈ syms /\ isScopeSymbol x = true /\ name x = n) as Hiff.
  { intros n. split.
    - intros Hn. apply list_elem_of_fmap in Hn as ([m r] & -> & Hr).
      destruct (registrations_valid _ _ _ _ _ Hr) as (Hobjs & s & Hs & Hm).
      unfold deref in Hs. rewrite Hobjs in Hs.
      assert (m ∈ scopeName <$> objects t) as Hin.
      { apply list_elem_of_fmap. exists s. split; [done |]. by eapply list_elem_of_lookup_2. }
      rewrite Hnames in Hin. apply list_elem_of_fmap in Hin as (x & -> & Hx).
      apply elem_of_List_filter in Hx as [Hscope Hx]. rewrite sort_perm in Hx. eauto.
    - intros (x & Hx & Hscope & <-).
      assert (name x ∈ scopeName <$> objects t) as Hin.
      { rewrite Hnames. apply list_elem_of_fmap. exists x. split; [done |].
        apply elem_of_List_filter. split; [done |]. by rewrite sort_perm. }
      apply list_elem_of_fmap in Hin as (s & Hn & Hs).
      apply list_elem_of_lookup_1 in Hs as [i Hi].
      apply list_elem_of_fmap. exists (scopeName s, mkRef (objects t) i).
      split; [done |]. by apply Hreach. }
  split; [done |]. split; [done |].
  apply Forall_forall. intros x Hx Hscope.
  pose proof (findScopeByName_updateFile sm f t (name x)) as Hbound.
  rewrite bool_decide_eq_true_2 in Hbound by (apply Hiff; eauto).
  exact Hbound.
Qed.
End Reach.
